(** * ZIP Markdown editor: archive codec, reference resolution, asset store

    A shallow embedding of [src/utils/zip.ts] (readZipFile, createZipFile),
    of the reference resolvers and the asset handlers of [src/App.tsx], and
    of the parts of the JavaScript runtime and of the JSZip container these
    functions call.

    Conventions.
    - A JavaScript string is represented by its UTF-8 encoding, as a
      [string] whose characters are the octets.  All the patterns the
      source matches on ([/], [!], [.], the extensions, [%XX] escapes) are
      ASCII, and an ASCII octet never occurs inside a multi-octet sequence,
      so splitting, suffix tests and replacements act on the octets exactly
      as they act on the UTF-16 code units of a well-formed string.
    - Binary content (Blob, File) is a [list byte].
    - A URL is identified with the resource it denotes.
    - Objects that the source compares with [===] carry a heap address. *)

From Stdlib Require Import Strings.String Strings.Ascii Strings.Byte List Bool Arith NArith ZArith Lia.
From Stdlib Require Import Permutation DecimalString DecimalNat.
Import ListNotations.
Open Scope string_scope.
Open Scope list_scope.

Set Implicit Arguments.

(* ------------------------------------------------------------------ *)
(** * The JavaScript string primitives used by the source *)

Module JS.

(** Exceptions the modelled code can raise. *)
Inductive exn : Type :=
| URIError.

(** A computation that returns or throws. *)
Inductive completion (A : Type) : Type :=
| Return (a : A)
| Throw (e : exn).
Arguments Return {A} a.
Arguments Throw {A} e.

Definition bind {A B} (c : completion A) (k : A -> completion B) : completion B :=
  match c with
  | Return a => k a
  | Throw e => Throw e
  end.

Notation "x <- c ;; k" := (bind c (fun x => k))
  (at level 61, c at next level, right associativity).

(** [s.endsWith(t)] *)
Fixpoint endsWith (s t : string) : bool :=
  (s =? t) ||
  match s with
  | EmptyString => false
  | String _ r => endsWith r t
  end.

(** [s.split(sep)] for a one-character separator; never empty. *)
Fixpoint split (sep : ascii) (s : string) : list string :=
  match s with
  | EmptyString => [EmptyString]
  | String c r =>
      if Ascii.eqb c sep then EmptyString :: split sep r
      else match split sep r with
           | h :: t => String c h :: t
           | [] => [String c EmptyString]
           end
  end.

(** [a.pop()]: the last element, [undefined] on an empty array. *)
Fixpoint pop (a : list string) : option string :=
  match a with
  | [] => None
  | [x] => Some x
  | _ :: r => pop r
  end.

(** [v || ''] for a possibly undefined string [v]. *)
Definition or_empty (v : option string) : string :=
  match v with
  | Some s => s
  | None => EmptyString
  end.

(** Truthiness of a string: non-empty. *)
Definition truthy (s : string) : bool :=
  match s with
  | EmptyString => false
  | String _ _ => true
  end.

(** [s.slice(-1)] *)
Fixpoint slice_last (s : string) : string :=
  match s with
  | EmptyString => EmptyString
  | String c EmptyString => s
  | String _ r => slice_last r
  end.

(** [s.lastIndexOf(c)], [None] standing for -1. *)
Fixpoint lastIndexOf (c : ascii) (s : string) : option nat :=
  match s with
  | EmptyString => None
  | String d r =>
      match lastIndexOf c r with
      | Some i => Some (S i)
      | None => if Ascii.eqb d c then Some 0 else None
      end
  end.

(** Lower-casing of the ASCII letters; other octets are unchanged.  The
    [i] flag of a regular expression without the [u] flag relates an ASCII
    letter only to its other case. *)
Definition lower (c : ascii) : ascii :=
  let n := N_of_ascii c in
  if ((65 <=? n) && (n <=? 90))%N then ascii_of_N (n + 32) else c.

Fixpoint toLower (s : string) : string :=
  match s with
  | EmptyString => EmptyString
  | String c r => String (lower c) (toLower r)
  end.

(** ** White space and [trim]

    [String.prototype.trim] removes WhiteSpace and LineTerminator code
    points from both ends: U+0009..U+000D, U+0020, U+00A0, U+1680,
    U+2000..U+200A, U+2028, U+2029, U+202F, U+205F, U+3000, U+FEFF; they
    are listed here by their UTF-8 encodings. *)

Definition ws1 (a : ascii) : bool :=
  let n := N_of_ascii a in
  ((9 <=? n) && (n <=? 13) || (n =? 32))%N.

Definition ws2 (a b : ascii) : bool :=
  ((N_of_ascii a =? 194) && (N_of_ascii b =? 160))%N.

Definition ws3 (a b c : ascii) : bool :=
  let x := N_of_ascii a in
  let y := N_of_ascii b in
  let z := N_of_ascii c in
  (   (x =? 225) && (y =? 154) && (z =? 128)
   || (x =? 226) && (y =? 128) && ((128 <=? z) && (z <=? 138))
   || (x =? 226) && (y =? 128) && ((z =? 168) || (z =? 169) || (z =? 175))
   || (x =? 226) && (y =? 129) && (z =? 159)
   || (x =? 227) && (y =? 128) && (z =? 128)
   || (x =? 239) && (y =? 187) && (z =? 191))%N.

Fixpoint trimStart (s : string) : string :=
  match s with
  | EmptyString => s
  | String a r1 =>
      if ws1 a then trimStart r1
      else match r1 with
           | EmptyString => s
           | String b r2 =>
               if ws2 a b then trimStart r2
               else match r2 with
                    | EmptyString => s
                    | String c r3 => if ws3 a b c then trimStart r3 else s
                    end
           end
  end.

Fixpoint rev (s : string) : string :=
  match s with
  | EmptyString => EmptyString
  | String c r => rev r ++ String c EmptyString
  end.

(** The same scan on the reversed string: the octets of a white space
    code point are met last-first. *)
Fixpoint trimStart_rev (s : string) : string :=
  match s with
  | EmptyString => s
  | String a r1 =>
      if ws1 a then trimStart_rev r1
      else match r1 with
           | EmptyString => s
           | String b r2 =>
               if ws2 b a then trimStart_rev r2
               else match r2 with
                    | EmptyString => s
                    | String c r3 => if ws3 c b a then trimStart_rev r3 else s
                    end
           end
  end.

Definition trimEnd (s : string) : string := rev (trimStart_rev (rev s)).

Definition trim (s : string) : string := trimEnd (trimStart s).

(** ** Regular-expression replacements of App.tsx *)

Definition is_bang_or_backslash (c : ascii) : bool :=
  Ascii.eqb c "!" || Ascii.eqb c "\".

Definition is_open_punct (c : ascii) : bool :=
  Ascii.eqb c "!" || Ascii.eqb c "[" || Ascii.eqb c "(".

Definition is_close_punct (c : ascii) : bool :=
  Ascii.eqb c ")" || Ascii.eqb c "]".

Fixpoint remove_chars (p : ascii -> bool) (s : string) : string :=
  match s with
  | EmptyString => EmptyString
  | String c r => if p c then remove_chars p r else String c (remove_chars p r)
  end.

(** [s.replace(/[!\\]/g, '')] *)
Definition replace_bang_backslash (s : string) : string :=
  remove_chars is_bang_or_backslash s.

(** [s.replace(/^[![(]|[)\]]/g, '')]: the first alternative can only match
    at index 0, the second one matches anywhere. *)
Definition replace_markdown_punct (s : string) : string :=
  match s with
  | EmptyString => EmptyString
  | String c r =>
      if is_open_punct c || is_close_punct c
      then remove_chars is_close_punct r
      else String c (remove_chars is_close_punct r)
  end.

(** ** [decodeURIComponent] *)

Definition hex_digit (c : ascii) : option N :=
  let n := N_of_ascii c in
  if ((48 <=? n) && (n <=? 57))%N then Some (n - 48)%N
  else if ((65 <=? n) && (n <=? 70))%N then Some (n - 55)%N
  else if ((97 <=? n) && (n <=? 102))%N then Some (n - 87)%N
  else None.

Definition hex_octet (h l : ascii) : option N :=
  match hex_digit h, hex_digit l with
  | Some x, Some y => Some (16 * x + y)%N
  | _, _ => None
  end.

(** What the decoder expects next: any character, or [more] further
    escaped continuation octets, the next one within [lo..hi]. *)
Inductive expect : Type :=
| Any
| Continuation (more : nat) (lo hi : N).

(** The octets allowed after the leading octet [b] of a well-formed UTF-8
    sequence; [None] when [b] cannot lead one. *)
Definition after_lead (b : N) : option expect :=
  if ((194 <=? b) && (b <=? 223))%N then Some (Continuation 0 128 191)
  else if (b =? 224)%N then Some (Continuation 1 160 191)
  else if ((225 <=? b) && (b <=? 236))%N then Some (Continuation 1 128 191)
  else if (b =? 237)%N then Some (Continuation 1 128 159)
  else if ((238 <=? b) && (b <=? 239))%N then Some (Continuation 1 128 191)
  else if (b =? 240)%N then Some (Continuation 2 144 191)
  else if ((241 <=? b) && (b <=? 243))%N then Some (Continuation 2 128 191)
  else if (b =? 244)%N then Some (Continuation 2 128 143)
  else None.

Definition after_continuation (more : nat) : expect :=
  match more with
  | O => Any
  | S m => Continuation m 128 191
  end.

Fixpoint decode (e : expect) (s : string) : completion string :=
  match s with
  | EmptyString =>
      match e with
      | Any => Return EmptyString
      | Continuation _ _ _ => Throw URIError
      end
  | String c r =>
      if Ascii.eqb c "%" then
        match r with
        | String h (String l r') =>
            match hex_octet h l with
            | None => Throw URIError
            | Some b =>
                match e with
                | Any =>
                    if (b <? 128)%N
                    then (d <- decode Any r' ;; Return (String (ascii_of_N b) d))
                    else match after_lead b with
                         | None => Throw URIError
                         | Some e' =>
                             d <- decode e' r' ;; Return (String (ascii_of_N b) d)
                         end
                | Continuation more lo hi =>
                    if ((lo <=? b) && (b <=? hi))%N
                    then (d <- decode (after_continuation more) r' ;;
                          Return (String (ascii_of_N b) d))
                    else Throw URIError
                end
            end
        | _ => Throw URIError
        end
      else
        match e with
        | Any => d <- decode Any r ;; Return (String c d)
        | Continuation _ _ _ => Throw URIError
        end
  end.

Definition decodeURIComponent (s : string) : completion string :=
  decode Any s.

(** ** Property order of an ordinary object

    [Object.entries] lists the keys that are array indices (canonical
    decimal numerals up to 2^32 - 2) first, in ascending numeric order,
    then the other string keys in insertion order. *)

Definition digit (c : ascii) : option N :=
  let n := N_of_ascii c in
  if ((48 <=? n) && (n <=? 57))%N then Some (n - 48)%N else None.

Fixpoint numeral (acc : N) (s : string) : option N :=
  match s with
  | EmptyString => Some acc
  | String c r =>
      match digit c with
      | Some d => numeral (10 * acc + d)%N r
      | None => None
      end
  end.

Definition array_index (k : string) : option N :=
  match k with
  | EmptyString => None
  | String c r =>
      if Ascii.eqb c "0" && truthy r then None
      else if (10 <? String.length k)%nat then None
      else match numeral 0 k with
           | Some n => if (n <=? 4294967294)%N then Some n else None
           | None => None
           end
  end.

Section Entries.
Variable A : Type.
Variable key : A -> string.

Fixpoint insert_index (n : N) (x : A) (l : list (N * A)) : list (N * A) :=
  match l with
  | [] => [(n, x)]
  | (m, y) :: r =>
      if (n <=? m)%N then (n, x) :: l else (m, y) :: insert_index n x r
  end.

Fixpoint indexed (props : list A) : list (N * A) :=
  match props with
  | [] => []
  | x :: r =>
      match array_index (key x) with
      | Some n => insert_index n x (indexed r)
      | None => indexed r
      end
  end.

Definition named (x : A) : bool :=
  match array_index (key x) with
  | Some _ => false
  | None => true
  end.

(** [Object.entries(o)] for an object whose properties, in insertion
    order, are [props]. *)
Definition entries (props : list A) : list A :=
  map snd (indexed props) ++ filter named props.
End Entries.

End JS.

(* ------------------------------------------------------------------ *)
(** * The JSZip container

    The part of the JSZip API [zip.ts] calls.  A JSZip instance holds a
    table [files] from entry names to entries, an ordinary object whose
    insertion order is the order of the list; [folder] returns a clone that
    shares the table and differs in its [root] prefix.  Dates, permissions
    and compression settings play no role in the source and are left out.
    An archive is represented by the table of its entries: what
    [loadAsync] presents, and what [generateAsync] writes out.  Writing a
    table and loading it again gives the same table when the names are
    ordinary paths; a file whose name ends with a slash would be loaded as
    a folder, and [.] and [..] segments are resolved on loading. *)

Module JSZip.

Record ZipObject : Type := mkZipObject {
  name : string;
  dir : bool;
  data : list byte
}.

Definition Files : Type := list ZipObject.

(** [files[k]] *)
Fixpoint get (fs : Files) (k : string) : option ZipObject :=
  match fs with
  | [] => None
  | o :: r => if name o =? k then Some o else get r k
  end.

(** [files[o.name] = o]: an existing key keeps its place. *)
Fixpoint set (fs : Files) (o : ZipObject) : Files :=
  match fs with
  | [] => [o]
  | x :: r => if name x =? name o then o :: r else x :: set r o
  end.

Definition forceTrailingSlash (path : string) : string :=
  if JS.slice_last path =? "/" then path else path ++ "/".

Definition parentFolder (path : string) : string :=
  let path :=
    if JS.slice_last path =? "/"
    then substring 0 (String.length path - 1) path
    else path in
  match JS.lastIndexOf "/" path with
  | Some (S i) => substring 0 (S i) path
  | _ => EmptyString
  end.

(** [fileAdd] with the default [createFolders: true]: the parent folders
    that are missing are added first ([folderAdd]), innermost last.  Each
    recursive call is on a strictly shorter name; [fuel] bounds the
    depth. *)
Fixpoint fileAdd (fuel : nat) (fs : Files) (nm : string) (d : list byte)
    (isdir : bool) : Files :=
  let nm := if isdir then forceTrailingSlash nm else nm in
  let parent := parentFolder nm in
  let fs :=
    if JS.truthy parent then
      match fuel with
      | O => fs
      | S fuel' =>
          let folder := forceTrailingSlash parent in
          match get fs folder with
          | Some _ => fs
          | None => fileAdd fuel' fs folder [] true
          end
      end
    else fs in
  set fs (mkZipObject nm isdir (if isdir then [] else d)).

Definition folderAdd (fs : Files) (nm : string) : Files :=
  let nm := forceTrailingSlash nm in
  match get fs nm with
  | Some _ => fs
  | None => fileAdd (String.length nm) fs nm [] true
  end.

(** [zip.file(name, data)] on an instance with prefix [root] *)
Definition file (fs : Files) (root nm : string) (d : list byte) : Files :=
  fileAdd (String.length (root ++ nm)) fs (root ++ nm) d false.

(** [zip.folder(name)]: the table, and the prefix of the returned clone *)
Definition folder (fs : Files) (root nm : string) : Files * string :=
  (folderAdd fs (root ++ nm), forceTrailingSlash (root ++ nm)).

(** [zip.file(name)]: the entry of that name when it is not a folder *)
Definition file_named (fs : Files) (root nm : string) : option ZipObject :=
  match get fs (root ++ nm) with
  | Some o => if dir o then None else Some o
  | None => None
  end.

(** [entry.async('text')]: the octets read as UTF-8.  Strings being
    represented by their UTF-8 encoding, this is the string of the octets;
    the replacement of ill-formed sequences by U+FFFD is not modelled. *)
Definition async_text (o : ZipObject) : string :=
  string_of_list_byte (data o).

End JSZip.

(* ------------------------------------------------------------------ *)
(** * Browser values: blobs, files, URLs *)

Module Web.

Record Blob : Type := mkBlob {
  blob_type : string;
  blob_bytes : list byte
}.

(** [new File([blob], name, { type })] *)
Record File : Type := mkFile {
  file_name : string;
  file_type : string;
  file_bytes : list byte
}.

Definition blob_size (b : Blob) : nat := List.length (blob_bytes b).
Definition file_size (f : File) : nat := List.length (file_bytes f).

(** A [File] is a [Blob]. *)
Definition blob_of_file (f : File) : Blob :=
  mkBlob (file_type f) (file_bytes f).

(** A URL stands for what it resolves to: [URL.createObjectURL(blob)]
    for the blob, a [data:] URL for its media type and octets. *)
Inductive URL : Type :=
| ObjectURL (b : Blob)
| DataURL (mime : string) (octets : list byte).

(** [(await fetch(url)).blob()], as octets *)
Definition fetch (u : URL) : list byte :=
  match u with
  | ObjectURL b => blob_bytes b
  | DataURL _ octets => octets
  end.

(** [reader.readAsDataURL(file)], the [result] handed to [onload] *)
Definition readAsDataURL (f : File) : URL :=
  DataURL (file_type f) (file_bytes f).

(** [zipEntry.async('blob')]: JSZip builds the blob with an empty type. *)
Definition async_blob (o : JSZip.ZipObject) : Blob :=
  mkBlob EmptyString (JSZip.data o).

End Web.

(* ------------------------------------------------------------------ *)
(** * [src/types.ts] *)

Module ImageFile.
Record t : Type := mk {
  id : string;
  name : string;
  url : Web.URL;
  file : Web.File;
  size : nat
}.
End ImageFile.

(** The interface declares [id: string]; an object literal that omits the
    property has it [undefined] at run time, which is [None] here. *)
Module Attachment.
Record t : Type := mk {
  id : option string;
  name : string;
  file : Web.File;
  size : nat
}.
End Attachment.

Module ZipContent.
Record t : Type := mk {
  readme : string;
  images : list ImageFile.t;
  attachments : list Attachment.t
}.
End ZipContent.

(* ------------------------------------------------------------------ *)
(** * [src/utils/zip.ts] *)

Module Zip.

(** [/\.(jpg|jpeg|png|gif|webp)$/i.test(fileName)] *)
Definition image_extensions : list string :=
  [".jpg"; ".jpeg"; ".png"; ".gif"; ".webp"].

Definition is_image_name (fileName : string) : bool :=
  existsb (JS.endsWith (JS.toLower fileName)) image_extensions.

(** The state of the loop of [readZipFile]: the two arrays being filled and
    the number of identifiers drawn so far from [crypto.randomUUID]. *)
Record acc : Type := mkAcc {
  images : list ImageFile.t;
  attachments : list Attachment.t;
  drawn : nat
}.

Section Decode.
(** [randomUUID n] is the value of the [n]-th call of
    [crypto.randomUUID()]. *)
Variable randomUUID : nat -> string.

(** One iteration of [for (const [path, zipEntry] of ...)] *)
Definition step (a : acc) (zipEntry : JSZip.ZipObject) : acc :=
  let path := JSZip.name zipEntry in
  if negb (JSZip.dir zipEntry) then
    let blob := Web.async_blob zipEntry in
    let fileName := JS.or_empty (JS.pop (JS.split "/" path)) in
    if is_image_name fileName then
      let url := Web.ObjectURL blob in
      mkAcc
        (images a ++
           [ImageFile.mk (randomUUID (drawn a)) fileName url
              (Web.mkFile fileName (Web.blob_type blob) (Web.blob_bytes blob))
              (Web.blob_size blob)])
        (attachments a)
        (S (drawn a))
    else if negb (path =? "README.md") then
      mkAcc
        (images a)
        (attachments a ++
           [Attachment.mk None fileName
              (Web.mkFile fileName (Web.blob_type blob) (Web.blob_bytes blob))
              (Web.blob_size blob)])
        (drawn a)
    else a
  else a.

(** [readZipFile], on the table JSZip loads from the file, with [n]
    identifiers drawn before the call; returns the content and the number
    of identifiers drawn after it. *)
Definition readZipFile (contents : JSZip.Files) (n : nat)
  : ZipContent.t * nat :=
  let readme := JSZip.file_named contents EmptyString "README.md" in
  let readmeContent :=
    match readme with
    | Some o => JSZip.async_text o
    | None => EmptyString
    end in
  let a :=
    fold_left step (JS.entries JSZip.name contents) (mkAcc [] [] n) in
  (ZipContent.mk readmeContent (images a) (attachments a), drawn a).
End Decode.

(** [createZipFile]: the table of the archive that is generated. *)
Definition createZipFile (markdown : string) (images : list ImageFile.t)
    (attachments : list Attachment.t) : JSZip.Files :=
  let zip := JSZip.file [] EmptyString "README.md" (list_byte_of_string markdown) in
  let '(zip, imagesFolder) := JSZip.folder zip EmptyString "images" in
  let zip :=
    fold_left
      (fun zip image =>
         let blob := Web.fetch (ImageFile.url image) in
         JSZip.file zip imagesFolder (ImageFile.name image) blob)
      images zip in
  let '(zip, attachmentsFolder) := JSZip.folder zip EmptyString "attachments" in
  fold_left
    (fun zip attachment =>
       JSZip.file zip attachmentsFolder (Attachment.name attachment)
         (Web.file_bytes (Attachment.file attachment)))
    attachments zip.

End Zip.

(* ------------------------------------------------------------------ *)
(** * Numbers as the size formatters print them

    A file size is a non-negative integer below 2^53.  Dividing it by 1024
    or by 1024 * 1024 only changes the exponent of the double, so the
    quotient is exact; [toFixed(1)] then yields the integer [n] for which
    [n / 10] is nearest to the quotient, the larger one on a tie, printed
    with one digit after the point.  All of it is integer arithmetic. *)

Module Num.

(** [String(n)] for a non-negative integer below 10^21 *)
Definition decimal (n : N) : string := NilZero.string_of_uint (N.to_uint n).

(** The integer [n] of [(num / den).toFixed(1)]: [10 * num / den] rounded
    to the nearest integer, halves up. *)
Definition tenths (num den : N) : N := ((20 * num + den) / (2 * den))%N.

(** The digits of [toFixed(1)] for that [n]. *)
Definition fixed1 (n : N) : string :=
  (decimal (n / 10) ++ "." ++ decimal (n mod 10))%string.

(** [(num / den).toFixed(1)] *)
Definition toFixed1 (num den : N) : string := fixed1 (tenths num den).

End Num.

(* ------------------------------------------------------------------ *)
(** * [src/App.tsx] *)

Module App.

(** An object of the heap: its address and its properties.  [===] on
    objects compares addresses; an object literal allocates. *)
Record Obj (A : Type) : Type := mkObj {
  addr : nat;
  fields : A
}.
Arguments mkObj {A} addr fields.

Definition same_object {A} (x y : Obj A) : bool := Nat.eqb (addr x) (addr y).

(** The state held by the [App] component ([useState]), with the next free
    heap address and the number of identifiers drawn so far. *)
Record State : Type := mkState {
  markdown : string;
  images : list (Obj ImageFile.t);
  attachments : list (Obj Attachment.t);
  editingImage : option (Obj ImageFile.t);
  editingName : option string;
  heap : nat;
  drawn : nat
}.

Definition initial : State := mkState EmptyString [] [] None None 0 0.

(** ** RenameInput *)

Inductive RenameEvent : Type :=
| OnRename (newName : string)
| OnCancel.

(** [handleSubmit], for the text [value] typed in a field opened on
    [name]: which callback is invoked. *)
Definition handleSubmit (name value : string) : RenameEvent :=
  let trimmedValue := JS.trim value in
  if JS.truthy trimmedValue && negb (trimmedValue =? name)
  then OnRename trimmedValue
  else OnCancel.

(** [{ ...img, name: newName }] *)
Definition with_image_name (img : ImageFile.t) (newName : string) : ImageFile.t :=
  ImageFile.mk (ImageFile.id img) newName (ImageFile.url img)
    (ImageFile.file img) (ImageFile.size img).

(** [{ ...att, name: newName }] *)
Definition with_attachment_name (att : Attachment.t) (newName : string)
  : Attachment.t :=
  Attachment.mk (Attachment.id att) newName (Attachment.file att)
    (Attachment.size att).

(** [{ ...img, file: editedImage, url }] *)
Definition with_image_content (img : ImageFile.t) (editedImage : Web.File)
    (url : Web.URL) : ImageFile.t :=
  ImageFile.mk (ImageFile.id img) (ImageFile.name img) url editedImage
    (ImageFile.size img).

(** [arr.map(x => test(x) ? { ...changed(x) } : x)]: the elements that pass
    the test are replaced by freshly allocated objects. *)
Fixpoint map_replacing {A} (test : Obj A -> bool) (changed : A -> A)
    (arr : list (Obj A)) (h : nat) : list (Obj A) * nat :=
  match arr with
  | [] => ([], h)
  | x :: r =>
      if test x then
        let '(r', h') := map_replacing test changed r (S h) in
        (mkObj h (changed (fields x)) :: r', h')
      else
        let '(r', h') := map_replacing test changed r h in
        (x :: r', h')
  end.

(** The [onRename] callback of the image list, bound to [image]. *)
Definition onRenameImage (st : State) (image : Obj ImageFile.t)
    (newName : string) : State :=
  let '(imgs, h) :=
    map_replacing (fun img => same_object img image)
      (fun img => with_image_name img newName) (images st) (heap st) in
  mkState (markdown st) imgs (attachments st) (editingImage st) None h
    (drawn st).

(** The [onRename] callback of the attachment list, bound to [attachment]. *)
Definition onRenameAttachment (st : State) (attachment : Obj Attachment.t)
    (newName : string) : State :=
  let '(atts, h) :=
    map_replacing (fun att => same_object att attachment)
      (fun att => with_attachment_name att newName) (attachments st) (heap st) in
  mkState (markdown st) (images st) atts (editingImage st) None h (drawn st).

(** [onCancel]: [setEditingName(null)] *)
Definition onCancel (st : State) : State :=
  mkState (markdown st) (images st) (attachments st) (editingImage st) None
    (heap st) (drawn st).

(** Submitting the rename field of [image] with the text [value]. *)
Definition submitImageRename (st : State) (image : Obj ImageFile.t)
    (value : string) : State :=
  match handleSubmit (ImageFile.name (fields image)) value with
  | OnRename newName => onRenameImage st image newName
  | OnCancel => onCancel st
  end.

(** Submitting the rename field of [attachment] with the text [value]. *)
Definition submitAttachmentRename (st : State) (attachment : Obj Attachment.t)
    (value : string) : State :=
  match handleSubmit (Attachment.name (fields attachment)) value with
  | OnRename newName => onRenameAttachment st attachment newName
  | OnCancel => onCancel st
  end.

(** ** Delete buttons *)

(** [setImages(images.filter(img => img !== image))] *)
Definition deleteImage (st : State) (image : Obj ImageFile.t) : State :=
  mkState (markdown st)
    (filter (fun img => negb (same_object img image)) (images st))
    (attachments st) (editingImage st) (editingName st) (heap st) (drawn st).

(** [setAttachments(attachments.filter(a => a !== attachment))] *)
Definition deleteAttachment (st : State) (attachment : Obj Attachment.t)
  : State :=
  mkState (markdown st) (images st)
    (filter (fun a => negb (same_object a attachment)) (attachments st))
    (editingImage st) (editingName st) (heap st) (drawn st).

(** ** Image editing *)

Definition handleImageEdit (st : State) (image : Obj ImageFile.t) : State :=
  mkState (markdown st) (images st) (attachments st) (Some image)
    (editingName st) (heap st) (drawn st).

(** [img.id === editingImage?.id] *)
Definition is_editing (editingImage : option (Obj ImageFile.t))
    (img : Obj ImageFile.t) : bool :=
  match editingImage with
  | Some e => ImageFile.id (fields img) =? ImageFile.id (fields e)
  | None => false
  end.

(** [handleImageSave]: the state once the reader has loaded the file and
    the update of [setImages] has run. *)
Definition handleImageSave (st : State) (editedImage : Web.File) : State :=
  let url := Web.readAsDataURL editedImage in
  let '(imgs, h) :=
    map_replacing (is_editing (editingImage st))
      (fun img => with_image_content img editedImage url)
      (images st) (heap st) in
  mkState (markdown st) imgs (attachments st) None (editingName st) h
    (drawn st).

(** ** Ingestion *)

Section Ingest.
Variable randomUUID : nat -> string.

(** The object literals of [handleImageUpload], one per chosen file. *)
Fixpoint newImages (files : list Web.File) (h n : nat)
  : list (Obj ImageFile.t) :=
  match files with
  | [] => []
  | file :: r =>
      let url := Web.ObjectURL (Web.blob_of_file file) in
      mkObj h (ImageFile.mk (randomUUID n) (Web.file_name file) url file
                 (Web.file_size file))
      :: newImages r (S h) (S n)
  end.

(** [handleImageUpload]; [None] when [event.target.files] is null. *)
Definition handleImageUpload (st : State) (files : option (list Web.File))
  : State :=
  match files with
  | Some files =>
      mkState (markdown st)
        (images st ++ newImages files (heap st) (drawn st))
        (attachments st) (editingImage st) (editingName st)
        (heap st + List.length files) (drawn st + List.length files)
  | None => st
  end.

Fixpoint newAttachments (files : list Web.File) (h n : nat)
  : list (Obj Attachment.t) :=
  match files with
  | [] => []
  | file :: r =>
      mkObj h (Attachment.mk (Some (randomUUID n)) (Web.file_name file) file
                 (Web.file_size file))
      :: newAttachments r (S h) (S n)
  end.

Definition handleAttachmentUpload (st : State)
    (files : option (list Web.File)) : State :=
  match files with
  | Some files =>
      mkState (markdown st) (images st)
        (attachments st ++ newAttachments files (heap st) (drawn st))
        (editingImage st) (editingName st)
        (heap st + List.length files) (drawn st + List.length files)
  | None => st
  end.

(** The objects of an array returned by [readZipFile], at consecutive
    addresses. *)
Fixpoint allocate {A} (l : list A) (h : nat) : list (Obj A) :=
  match l with
  | [] => []
  | x :: r => mkObj h x :: allocate r (S h)
  end.

(** [handleZipUpload] on a chosen file that JSZip loads as [contents]. *)
Definition handleZipUpload (st : State) (contents : JSZip.Files) : State :=
  let '(content, n) := Zip.readZipFile randomUUID contents (drawn st) in
  let imgs := ZipContent.images content in
  let atts := ZipContent.attachments content in
  mkState (ZipContent.readme content)
    (allocate imgs (heap st))
    (allocate atts (heap st + List.length imgs))
    (editingImage st) (editingName st)
    (heap st + List.length imgs + List.length atts) n.
End Ingest.

(** [handleExportZip]: the archive handed to the download; the state is
    not changed. *)
Definition handleExportZip (st : State) : JSZip.Files :=
  Zip.createZipFile (markdown st) (map (@fields _) (images st))
    (map (@fields _) (attachments st)).

(** ** Reference resolution (the [img] and [a] renderers) *)

Inductive ImgView : Type :=
| ShowImage (image : Obj ImageFile.t)
| ImageNotFound (decodedSrc : string).

Inductive LinkView : Type :=
| DownloadButton (attachment : Obj Attachment.t)
| PlainLink (href : option string).

(** The callback of [images.find] *)
Definition image_matches (decodedSrc : string) (img : Obj ImageFile.t) : bool :=
  let imgName := ImageFile.name (fields img) in
  let imgPath := ("images/" ++ imgName)%string in
  let cleanedSrc := JS.trim (JS.replace_markdown_punct decodedSrc) in
  let cleanedImgName := JS.trim (JS.replace_markdown_punct imgName) in
  (cleanedSrc =? imgPath) ||
  (cleanedSrc =? imgName) ||
  JS.endsWith cleanedSrc imgPath ||
  JS.endsWith cleanedSrc imgName ||
  (cleanedSrc =? cleanedImgName).

(** [components.img] *)
Definition resolveImage (src : option string) (images : list (Obj ImageFile.t))
  : JS.completion ImgView :=
  JS.bind
    (JS.decodeURIComponent
       (JS.or_empty (option_map JS.replace_bang_backslash src)))
    (fun decodedSrc =>
       match find (image_matches decodedSrc) images with
       | Some image => JS.Return (ShowImage image)
       | None => JS.Return (ImageNotFound decodedSrc)
       end).

(** The callback of [attachments.find] *)
Definition attachment_matches (decodedHref : string) (attach : Obj Attachment.t)
  : bool :=
  let attachPath := ("attachments/" ++ Attachment.name (fields attach))%string in
  (decodedHref =? attachPath) || JS.endsWith decodedHref attachPath.

(** [components.a] *)
Definition resolveAttachment (href : option string)
    (attachments : list (Obj Attachment.t)) : JS.completion LinkView :=
  JS.bind (JS.decodeURIComponent (JS.or_empty href))
    (fun decodedHref =>
       match find (attachment_matches decodedHref) attachments with
       | Some attachment => JS.Return (DownloadButton attachment)
       | None => JS.Return (PlainLink href)
       end).

(** ** The size shown next to an asset *)

(** [formatFileSize] *)
Definition formatFileSize (size : N) : string :=
  if (size <? 1024)%N then (Num.decimal size ++ " B")%string
  else if (size <? 1024 * 1024)%N then (Num.toFixed1 size 1024 ++ " KB")%string
  else (Num.toFixed1 size (1024 * 1024) ++ " MB")%string.

(** ** The text the copy buttons put on the clipboard *)

Definition copyImageMarkdown (image : Obj ImageFile.t) : string :=
  let n := ImageFile.name (fields image) in
  ("![" ++ n ++ "](images/" ++ n ++ ")")%string.

Definition copyAttachmentMarkdown (attachment : Obj Attachment.t) : string :=
  let n := Attachment.name (fields attachment) in
  ("[" ++ n ++ "](attachments/" ++ n ++ ")")%string.

(** ** The remaining state updates *)

(** The editor's [onChange]: [setMarkdown(value || '')] *)
Definition setMarkdown (st : State) (value : option string) : State :=
  mkState (JS.or_empty value) (images st) (attachments st) (editingImage st)
    (editingName st) (heap st) (drawn st).

(** The image editor's [onCancel]: [setEditingImage(null)] *)
Definition cancelImageEdit (st : State) : State :=
  mkState (markdown st) (images st) (attachments st) None (editingName st)
    (heap st) (drawn st).

(** A click on a name: [setEditingName(name)] *)
Definition startRename (st : State) (name : string) : State :=
  mkState (markdown st) (images st) (attachments st) (editingImage st)
    (Some name) (heap st) (drawn st).

End App.

(* ------------------------------------------------------------------ *)
(** * The [AttachmentList] component *)

Module AttachmentList.

(** [formatSize] *)
Definition formatSize (size : N) : string :=
  if (size <? 1024)%N then (Num.decimal size ++ " B")%string
  else if (size <? 1024 * 1024)%N then (Num.toFixed1 size 1024 ++ " KB")%string
  else (Num.toFixed1 size (1024 * 1024) ++ " MB")%string.

(** [copyMarkdownLink]: the text written to the clipboard *)
Definition copyMarkdownLink (attachment : Attachment.t) : string :=
  ("[" ++ Attachment.name attachment ++ "](attachments/" ++
   Attachment.name attachment ++ ")")%string.

End AttachmentList.

(* ------------------------------------------------------------------ *)
(** * The [ImageEditor] component: dragging

    The coordinates are JavaScript numbers; the model is over any type of
    numbers with its subtraction, so that nothing is assumed about
    rounding. *)

Module ImageEditor.

Section Editor.
Variable num : Type.
Variable sub : num -> num -> num.

Record point : Type := mkPoint {
  x : num;
  y : num
}.

(** The four [useState] cells. *)
Record State : Type := mkState {
  scale : num;
  isDragging : bool;
  position : point;
  startPos : point
}.

(** What the handlers read of a mouse event. *)
Record MouseEvent : Type := mkMouseEvent {
  clientX : num;
  clientY : num
}.

Definition handleMouseDown (st : State) (e : MouseEvent) : State :=
  mkState (scale st) true (position st)
    (mkPoint (sub (clientX e) (x (position st)))
             (sub (clientY e) (y (position st)))).

Definition handleMouseMove (st : State) (e : MouseEvent) : State :=
  if isDragging st then
    mkState (scale st) (isDragging st)
      (mkPoint (sub (clientX e) (x (startPos st)))
               (sub (clientY e) (y (startPos st))))
      (startPos st)
  else st.

Definition handleMouseUp (st : State) : State :=
  mkState (scale st) false (position st) (startPos st).

(** The range input: [setScale(parseFloat(e.target.value))], for the
    number parsed. *)
Definition setScale (st : State) (v : num) : State :=
  mkState v (isDragging st) (position st) (startPos st).

(** What the pointer does over the image. *)
Inductive gesture : Type :=
| Down (e : MouseEvent)
| Move (e : MouseEvent)
| Up
| Leave.

Definition handle (st : State) (g : gesture) : State :=
  match g with
  | Down e => handleMouseDown st e
  | Move e => handleMouseMove st e
  | Up => handleMouseUp st
  | Leave => handleMouseUp st
  end.
End Editor.

End ImageEditor.

(* ------------------------------------------------------------------ *)
(** * Sessions: the handlers of [App] applied one after the other *)

Module Session.

(** One call of a handler, with what it is bound to or given.  A handler
    of the lists may be bound to any object, in the lists or not. *)
Inductive event : Type :=
| ImageUpload (files : option (list Web.File))
| AttachmentUpload (files : option (list Web.File))
| ZipUpload (contents : JSZip.Files)
| Edit (value : option string)
| StartRename (name : string)
| SubmitImageRename (image : App.Obj ImageFile.t) (value : string)
| SubmitAttachmentRename (attachment : App.Obj Attachment.t) (value : string)
| CancelRename
| DeleteImage (image : App.Obj ImageFile.t)
| DeleteAttachment (attachment : App.Obj Attachment.t)
| ImageEdit (image : App.Obj ImageFile.t)
| ImageSave (editedImage : Web.File)
| CancelImageEdit.

Section Run.
Variable randomUUID : nat -> string.

Definition step (st : App.State) (ev : event) : App.State :=
  match ev with
  | ImageUpload files => App.handleImageUpload randomUUID st files
  | AttachmentUpload files => App.handleAttachmentUpload randomUUID st files
  | ZipUpload contents => App.handleZipUpload randomUUID st contents
  | Edit value => App.setMarkdown st value
  | StartRename name => App.startRename st name
  | SubmitImageRename image value => App.submitImageRename st image value
  | SubmitAttachmentRename attachment value =>
      App.submitAttachmentRename st attachment value
  | CancelRename => App.onCancel st
  | DeleteImage image => App.deleteImage st image
  | DeleteAttachment attachment => App.deleteAttachment st attachment
  | ImageEdit image => App.handleImageEdit st image
  | ImageSave editedImage => App.handleImageSave st editedImage
  | CancelImageEdit => App.cancelImageEdit st
  end.

Definition run (events : list event) : App.State :=
  fold_left step events App.initial.
End Run.

(** The identifiers that are defined, of images and of attachments. *)
Definition image_ids (st : App.State) : list string :=
  map (fun img => ImageFile.id (App.fields img)) (App.images st).

Fixpoint defined (ids : list (option string)) : list string :=
  match ids with
  | [] => []
  | Some i :: r => i :: defined r
  | None :: r => defined r
  end.

Definition attachment_ids (st : App.State) : list string :=
  defined (map (fun att => Attachment.id (App.fields att)) (App.attachments st)).

(** The addresses of the objects held in the two lists. *)
Definition addresses (st : App.State) : list nat :=
  map (@App.addr _) (App.images st) ++ map (@App.addr _) (App.attachments st).

(** What every state of a session satisfies: the objects of the lists are
    pairwise distinct and were allocated; the identifiers are pairwise
    distinct and were drawn. *)
Definition well_formed (randomUUID : nat -> string) (st : App.State) : Prop :=
  NoDup (addresses st) /\
  Forall (fun a => a < App.heap st) (addresses st) /\
  NoDup (image_ids st ++ attachment_ids st) /\
  Forall (fun i => exists k, k < App.drawn st /\ i = randomUUID k)
    (image_ids st ++ attachment_ids st).

End Session.

(* ------------------------------------------------------------------ *)
(** * Notions used to state the properties *)

Module Bundle.

(** What a bundle is observed by: the (display name, content) pairs of each
    namespace.  The content of an image is what its URL resolves to, which
    is what [createZipFile] writes. *)
Definition image_pair (img : ImageFile.t) : string * list byte :=
  (ImageFile.name img, Web.fetch (ImageFile.url img)).

Definition attachment_pair (att : Attachment.t) : string * list byte :=
  (Attachment.name att, Web.file_bytes (Attachment.file att)).

(** Two lists hold the same set of pairs. *)
Definition same_set {A} (l1 l2 : list A) : Prop :=
  forall x, In x l1 <-> In x l2.

Fixpoint has_slash (s : string) : bool :=
  match s with
  | EmptyString => false
  | String c r => Ascii.eqb c "/" || has_slash r
  end.

(** A display name that is one path segment. *)
Definition plain_name (s : string) : Prop :=
  s <> EmptyString /\ has_slash s = false.

(** A display name that the container stores and loads as it is: JSZip
    reads an entry whose name ends with a slash as a folder and resolves
    the segments [.] and [..] when it loads an archive. *)
Definition ordinary_name (s : string) : Prop :=
  plain_name s /\ s <> "." /\ s <> "..".

(** The entries of an archive that are files, as (path, content). *)
Definition file_entries (fs : JSZip.Files) : list (string * list byte) :=
  map (fun o => (JSZip.name o, JSZip.data o))
    (filter (fun o => negb (JSZip.dir o)) fs).

(** The name under which [fileAdd] stores the entry. *)
Definition stored_name (nm : string) (isdir : bool) : string :=
  if isdir then JSZip.forceTrailingSlash nm else nm.

(** The entries [createZipFile] writes for an image, for an attachment
    and for the readme. *)
Definition image_written (img : ImageFile.t) : JSZip.ZipObject :=
  JSZip.mkZipObject ("images/" ++ ImageFile.name img) false
    (Web.fetch (ImageFile.url img)).

Definition attachment_written (att : Attachment.t) : JSZip.ZipObject :=
  JSZip.mkZipObject ("attachments/" ++ Attachment.name att) false
    (Web.file_bytes (Attachment.file att)).

Definition readme_written (markdown : string) : JSZip.ZipObject :=
  JSZip.mkZipObject "README.md" false (list_byte_of_string markdown).

Section WriteAll.
Context {X : Type} (root : string) (nm : X -> string) (dat : X -> list byte).

(** A loop of [createZipFile]: one [file] call per asset, on the clone
    whose prefix is [root]. *)
Definition write_all (items : list X) (fs : JSZip.Files) : JSZip.Files :=
  fold_left (fun zip x => JSZip.file zip root (nm x) (dat x)) items fs.

Definition written (x : X) : JSZip.ZipObject :=
  JSZip.mkZipObject (root ++ nm x) false (dat x).
End WriteAll.

(** The final path segment, as [readZipFile] computes it. *)
Definition base_name (path : string) : string :=
  JS.or_empty (JS.pop (JS.split "/" path)).

End Bundle.

Module Decoded.

(** The entries [readZipFile] turns into images, and into attachments. *)
Definition image_entry (o : JSZip.ZipObject) : bool :=
  negb (JSZip.dir o) && Zip.is_image_name (Bundle.base_name (JSZip.name o)).

Definition attachment_entry (o : JSZip.ZipObject) : bool :=
  negb (JSZip.dir o) &&
  negb (Zip.is_image_name (Bundle.base_name (JSZip.name o))) &&
  negb (JSZip.name o =? "README.md").

(** The asset made from a file entry: named by the base name of the path,
    holding the octets of the entry, sized by their number. *)
Definition image_of (o : JSZip.ZipObject) (img : ImageFile.t) : Prop :=
  ImageFile.name img = Bundle.base_name (JSZip.name o) /\
  Web.file_name (ImageFile.file img) = Bundle.base_name (JSZip.name o) /\
  Web.file_bytes (ImageFile.file img) = JSZip.data o /\
  Web.fetch (ImageFile.url img) = JSZip.data o /\
  ImageFile.size img = List.length (JSZip.data o).

Definition attachment_of (o : JSZip.ZipObject) (att : Attachment.t) : Prop :=
  Attachment.name att = Bundle.base_name (JSZip.name o) /\
  Web.file_name (Attachment.file att) = Bundle.base_name (JSZip.name o) /\
  Web.file_bytes (Attachment.file att) = JSZip.data o /\
  Attachment.size att = List.length (JSZip.data o).

(** What an asset made from an entry is observed by. *)
Definition entry_pair (o : JSZip.ZipObject) : string * list byte :=
  (Bundle.base_name (JSZip.name o), JSZip.data o).

(** The entries that are files other than the readme. *)
Definition asset_entry (o : JSZip.ZipObject) : bool :=
  negb (JSZip.dir o) && negb (JSZip.name o =? "README.md").

(** A file name that ends with a dot followed by one of the five
    extensions, in any letter case. *)
Definition has_image_extension (fileName : string) : Prop :=
  exists stem ext,
    fileName = (stem ++ "." ++ ext)%string /\
    In (JS.toLower ext) ["jpg"; "jpeg"; "png"; "gif"; "webp"].

(** The objects the loop of [readZipFile] pushes for a list of entries. *)
Fixpoint new_images (randomUUID : nat -> string) (n : nat)
    (es : list JSZip.ZipObject) : list ImageFile.t :=
  match es with
  | [] => []
  | o :: r =>
      let fileName := Bundle.base_name (JSZip.name o) in
      ImageFile.mk (randomUUID n) fileName
        (Web.ObjectURL (Web.mkBlob EmptyString (JSZip.data o)))
        (Web.mkFile fileName EmptyString (JSZip.data o))
        (List.length (JSZip.data o))
      :: new_images randomUUID (S n) r
  end.

Definition new_attachment (o : JSZip.ZipObject) : Attachment.t :=
  let fileName := Bundle.base_name (JSZip.name o) in
  Attachment.mk None fileName
    (Web.mkFile fileName EmptyString (JSZip.data o))
    (List.length (JSZip.data o)).

End Decoded.

Module Resolver.

(** [t] is a suffix of [s]. *)
Definition suffix (t s : string) : Prop :=
  exists p, s = (p ++ t)%string.

(** The target as cleaned by the [img] renderer for the comparisons. *)
Definition cleaned (decodedSrc : string) : string :=
  JS.trim (JS.replace_markdown_punct decodedSrc).

(** The five conditions under which the [img] renderer takes an image for
    the cleaned target [c]. *)
Definition accepts_image (c : string) (img : App.Obj ImageFile.t) : Prop :=
  let n := ImageFile.name (App.fields img) in
  c = ("images/" ++ n)%string \/
  c = n \/
  suffix ("images/" ++ n) c \/
  suffix n c \/
  c = JS.trim (JS.replace_markdown_punct n).

(** The two conditions under which the [a] renderer takes an attachment
    for the decoded href [d]. *)
Definition accepts_attachment (d : string) (att : App.Obj Attachment.t) : Prop :=
  let p := ("attachments/" ++ Attachment.name (App.fields att))%string in
  d = p \/ suffix p d.

(** [x] is the first element of [l] that satisfies [P]. *)
Definition first_such {A} (P : A -> Prop) (x : A) (l : list A) : Prop :=
  exists pre post,
    l = pre ++ x :: post /\ P x /\ Forall (fun y => ~ P y) pre.

End Resolver.

Module Store.

(** How a rename to [t] bound to the object at address [a] relates an
    image of the store before it to the image at the same place after it:
    the image at [a] has the name [t] and its other properties as before,
    any other image is the very same object. *)
Definition renamed_image (a : nat) (t : string)
    (old new : App.Obj ImageFile.t) : Prop :=
  (App.addr old = a ->
   ImageFile.name (App.fields new) = t /\
   ImageFile.id (App.fields new) = ImageFile.id (App.fields old) /\
   ImageFile.url (App.fields new) = ImageFile.url (App.fields old) /\
   ImageFile.file (App.fields new) = ImageFile.file (App.fields old) /\
   ImageFile.size (App.fields new) = ImageFile.size (App.fields old)) /\
  (App.addr old <> a -> new = old).

Definition renamed_attachment (a : nat) (t : string)
    (old new : App.Obj Attachment.t) : Prop :=
  (App.addr old = a ->
   Attachment.name (App.fields new) = t /\
   Attachment.id (App.fields new) = Attachment.id (App.fields old) /\
   Attachment.file (App.fields new) = Attachment.file (App.fields old) /\
   Attachment.size (App.fields new) = Attachment.size (App.fields old)) /\
  (App.addr old <> a -> new = old).

(** The size invariant of an image: the recorded size is the length of
    the content, of the file and of what the URL resolves to. *)
Definition size_ok (img : ImageFile.t) : Prop :=
  ImageFile.size img = Web.file_size (ImageFile.file img) /\
  ImageFile.size img = List.length (Web.fetch (ImageFile.url img)).

End Store.

Module Names.

(** Printable ASCII other than the characters the resolvers treat
    specially: space, [%], [!], backslash, parentheses and brackets. *)
Definition tame_char (c : ascii) : bool :=
  let n := N_of_ascii c in
  ((33 <=? n) && (n <=? 126))%N &&
  negb (Ascii.eqb c "%") && negb (JS.is_bang_or_backslash c) &&
  negb (JS.is_open_punct c) && negb (JS.is_close_punct c).

Fixpoint tame (s : string) : bool :=
  match s with
  | EmptyString => true
  | String c r => tame_char c && tame r
  end.

(** The scan of [trimStart] and of its mirror image, for any three tests
    of white space sequences of one, two and three octets. *)
Section Scan.
Variable w1 : ascii -> bool.
Variable w2 : ascii -> ascii -> bool.
Variable w3 : ascii -> ascii -> ascii -> bool.

Fixpoint scan (s : string) : string :=
  match s with
  | EmptyString => s
  | String a r1 =>
      if w1 a then scan r1
      else match r1 with
           | EmptyString => s
           | String b r2 =>
               if w2 a b then scan r2
               else match r2 with
                    | EmptyString => s
                    | String c r3 => if w3 a b c then scan r3 else s
                    end
           end
  end.

(** No white space sequence at the head. *)
Definition solid_head (s : string) : bool :=
  match s with
  | EmptyString => true
  | String a r1 =>
      negb (w1 a) &&
      match r1 with
      | EmptyString => true
      | String b r2 =>
          negb (w2 a b) &&
          match r2 with
          | EmptyString => true
          | String c _ => negb (w3 a b c)
          end
      end
  end.
End Scan.

Fixpoint has_percent (s : string) : bool :=
  match s with
  | EmptyString => false
  | String c r => Ascii.eqb c "%" || has_percent r
  end.

(** No character of [s] is one that [p] picks. *)
Fixpoint avoids (p : ascii -> bool) (s : string) : bool :=
  match s with
  | EmptyString => true
  | String c r => negb (p c) && avoids p r
  end.

End Names.

(** The readings of the specification that the code is compared with. *)
Module Claimed.

(** "rename(identity, newName) (fails with InvalidName if newName trims to
    empty)": the result of a rename in the words of the specification. *)
Inductive RenameResult : Type :=
| InvalidName
| Renamed (newName : string).

Definition rename (newName : string) : RenameResult :=
  if JS.truthy (JS.trim newName) then Renamed (JS.trim newName)
  else InvalidName.

(** Attachment resolution with "the same cleaning steps and the same
    ordered match predicates as image resolution, evaluated against the
    attachments/<name> namespace". *)
Definition attachment_matches (decodedHref : string)
    (attach : App.Obj Attachment.t) : bool :=
  let attName := Attachment.name (App.fields attach) in
  let attPath := ("attachments/" ++ attName)%string in
  let cleanedHref := JS.trim (JS.replace_markdown_punct decodedHref) in
  let cleanedAttName := JS.trim (JS.replace_markdown_punct attName) in
  (cleanedHref =? attPath) ||
  (cleanedHref =? attName) ||
  JS.endsWith cleanedHref attPath ||
  JS.endsWith cleanedHref attName ||
  (cleanedHref =? cleanedAttName).

Definition resolveAttachment (href : option string)
    (attachments : list (App.Obj Attachment.t)) : JS.completion App.LinkView :=
  JS.bind
    (JS.decodeURIComponent
       (JS.or_empty (option_map JS.replace_bang_backslash href)))
    (fun decodedHref =>
       match find (attachment_matches decodedHref) attachments with
       | Some attachment => JS.Return (App.DownloadButton attachment)
       | None => JS.Return (App.PlainLink href)
       end).

End Claimed.

(** Concrete values the properties are tried on. *)
Module Sample.

Definition uuid (n : nat) : string :=
  ("uuid-" ++ NilEmpty.string_of_uint (Nat.to_uint n))%string.

Definition my_photo : App.Obj ImageFile.t :=
  App.mkObj 0
    (ImageFile.mk "id-0" "my photo.png"
       (Web.ObjectURL (Web.mkBlob "" [x01; x02; x03]))
       (Web.mkFile "my photo.png" "" [x01; x02; x03]) 3).

Definition notes_txt : App.Obj Attachment.t :=
  App.mkObj 2
    (Attachment.mk (Some "id-0") "notes.txt"
       (Web.mkFile "notes.txt" "text/plain" [x01; x02; x03; x04; x05]) 5).

Definition x_png : App.Obj ImageFile.t :=
  App.mkObj 1
    (ImageFile.mk "id-1" "x.png"
       (Web.ObjectURL (Web.mkBlob "" [x0a; x0b; x0c]))
       (Web.mkFile "x.png" "" [x0a; x0b; x0c]) 3).

Definition sample_state : App.State :=
  App.mkState "![x](images/x.png)" [my_photo; x_png] [notes_txt] None None 3 3.

Definition edited_png : Web.File :=
  Web.mkFile "x.png" "image/png" [x01; x02; x03; x04; x05].

Definition editing_state : App.State :=
  App.handleImageEdit sample_state x_png.

(** Two images that share the display name a.png. *)
Definition first_a_png : ImageFile.t :=
  ImageFile.mk "id-a" "a.png" (Web.ObjectURL (Web.mkBlob "image/png" [x01]))
    (Web.mkFile "a.png" "image/png" [x01]) 1.

Definition second_a_png : ImageFile.t :=
  ImageFile.mk "id-b" "a.png" (Web.ObjectURL (Web.mkBlob "image/png" [x02; x03]))
    (Web.mkFile "a.png" "image/png" [x02; x03]) 2.

(** An attachment whose name has an image extension, and an image whose
    name holds a slash. *)
Definition chart_png : Attachment.t :=
  Attachment.mk (Some "id-c") "chart.png"
    (Web.mkFile "chart.png" "image/png" [x05; x06]) 2.

Definition nested_png : ImageFile.t :=
  ImageFile.mk "id-n" "d/a.png" (Web.ObjectURL (Web.mkBlob "image/png" [x07]))
    (Web.mkFile "d/a.png" "image/png" [x07]) 1.

Definition cat_png : App.Obj ImageFile.t :=
  App.mkObj 7
    (ImageFile.mk "id-7" "cat.png" (Web.ObjectURL (Web.mkBlob "image/png" [x09]))
       (Web.mkFile "cat.png" "image/png" [x09]) 1).

Definition t_png : App.Obj ImageFile.t :=
  App.mkObj 8
    (ImageFile.mk "id-8" "t.png" (Web.ObjectURL (Web.mkBlob "image/png" [x08]))
       (Web.mkFile "t.png" "image/png" [x08]) 1).

(** An image whose name begins with U+732B, three octets in UTF-8, and
    holds a space and an opening bracket. *)
Definition neko_name : string :=
  String (ascii_of_nat 231) (String (ascii_of_nat 140)
    (String (ascii_of_nat 171) " [1.png")).

Definition neko_png : App.Obj ImageFile.t :=
  App.mkObj 10
    (ImageFile.mk "id-10" neko_name
       (Web.ObjectURL (Web.mkBlob "image/png" [x0a]))
       (Web.mkFile neko_name "image/png" [x0a]) 1).

Definition report_pdf : App.Obj Attachment.t :=
  App.mkObj 9
    (Attachment.mk (Some "id-9") "report.pdf"
       (Web.mkFile "report.pdf" "application/pdf" [x0d; x0e]) 2).

(** Coordinates taken as integers, for the image editor. *)
Definition press : ImageEditor.MouseEvent Z := ImageEditor.mkMouseEvent 100%Z 50%Z.
Definition release_at : ImageEditor.MouseEvent Z := ImageEditor.mkMouseEvent 130%Z 45%Z.
Definition editor_at_rest : ImageEditor.State Z :=
  ImageEditor.mkState 1%Z false (ImageEditor.mkPoint 7%Z 9%Z)
    (ImageEditor.mkPoint 0%Z 0%Z).

(** The archive of the scenario of the specification, with a nested
    README.md added. *)
Definition archive : JSZip.Files :=
  [ JSZip.mkZipObject "README.md" false
      (list_byte_of_string "![x](images/x.png)");
    JSZip.mkZipObject "images/" true [];
    JSZip.mkZipObject "images/x.png" false [x0a; x0b; x0c];
    JSZip.mkZipObject "attachments/" true [];
    JSZip.mkZipObject "attachments/notes.txt" false [x01; x02; x03; x04; x05];
    JSZip.mkZipObject "docs/" true [];
    JSZip.mkZipObject "docs/README.md" false (list_byte_of_string "nested") ].

End Sample.

(* ------------------------------------------------------------------ *)
(** * Facts about the string primitives *)

Unset Implicit Arguments.

Lemma endsWith_suffix (s t : string) :
  JS.endsWith s t = true <-> Resolver.suffix t s.
Proof.
  induction s as [|c r IH]; cbn [JS.endsWith].
  - rewrite orb_false_r, String.eqb_eq. split.
    + intros <-. now exists EmptyString.
    + intros [p Hp]. destruct p; simpl in Hp; [assumption|discriminate].
  - rewrite orb_true_iff, String.eqb_eq, IH. split.
    + intros [<- | [p Hp]].
      * now exists EmptyString.
      * exists (String c p). simpl. now rewrite Hp.
    + intros [p Hp]. destruct p as [|d p]; simpl in Hp.
      * now left.
      * right. exists p. now injection Hp.
Qed.

Lemma append_nil_r (s : string) : (s ++ "")%string = s.
Proof. induction s; simpl; congruence. Qed.

Lemma append_assoc (a b c : string) :
  ((a ++ b) ++ c)%string = (a ++ (b ++ c))%string.
Proof. induction a; simpl; congruence. Qed.

(* ------------------------------------------------------------------ *)
(** * Reference resolution *)

Section FindFirst.
Context {A : Type} (f : A -> bool) (P : A -> Prop).
Hypothesis f_spec : forall x, f x = true <-> P x.

Lemma f_false (x : A) : f x = false <-> ~ P x.
Proof.
  rewrite <- f_spec. destruct (f x); split; congruence.
Qed.

Lemma find_first_such (l : list A) (x : A) :
  find f l = Some x <-> Resolver.first_such P x l.
Proof.
  induction l as [|y l IH]; simpl.
  - split; [discriminate|].
    intros (pre & post & E & _). destruct pre; discriminate.
  - destruct (f y) eqn:Fy.
    + split.
      * intros [= <-]. exists [], l. repeat split; auto. now apply f_spec.
      * intros (pre & post & E & Px & Hpre).
        destruct pre as [|z pre]; simpl in E; injection E as -> ->.
        -- reflexivity.
        -- inversion Hpre; subst. apply f_spec in Fy. contradiction.
    + rewrite IH. split.
      * intros (pre & post & -> & Px & Hpre).
        exists (y :: pre), post. repeat split; auto.
        constructor; auto. now apply f_false.
      * intros (pre & post & E & Px & Hpre).
        destruct pre as [|z pre]; simpl in E; injection E as -> ->.
        -- apply f_false in Fy. contradiction.
        -- exists pre, post. inversion Hpre; subst. repeat split; auto.
Qed.

Lemma find_none_such (l : list A) :
  find f l = None <-> Forall (fun y => ~ P y) l.
Proof.
  induction l as [|y l IH]; simpl.
  - split; auto.
  - destruct (f y) eqn:Fy.
    + split; [discriminate|]. intros H. inversion H; subst.
      apply f_spec in Fy. contradiction.
    + rewrite IH. split.
      * intros H. constructor; auto. now apply f_false.
      * intros H. now inversion H.
Qed.
End FindFirst.

Lemma image_matches_accepts (d : string) (img : App.Obj ImageFile.t) :
  App.image_matches d img = true <->
  Resolver.accepts_image (Resolver.cleaned d) img.
Proof.
  unfold App.image_matches, Resolver.accepts_image, Resolver.cleaned.
  cbv zeta.
  rewrite !orb_true_iff, !String.eqb_eq, !endsWith_suffix. tauto.
Qed.

Lemma attachment_matches_accepts (d : string) (att : App.Obj Attachment.t) :
  App.attachment_matches d att = true <-> Resolver.accepts_attachment d att.
Proof.
  unfold App.attachment_matches, Resolver.accepts_attachment. cbv zeta.
  rewrite orb_true_iff, String.eqb_eq, endsWith_suffix. tauto.
Qed.

(** C6, as amended.  For every raw image target whose URL-decoding succeeds
    (after the removal of [!] and backslash characters) and every image
    store: the [img] renderer shows an image exactly when that image is the
    first one of the store, in order, for which the cleaned target equals
    [images/<name>], equals the bare name, ends with [images/<name>], ends
    with the bare name, or equals the name cleaned in the same way; it
    reports not-found exactly when no image satisfies any of the five
    conditions, and the value it then carries is the decoded target, before
    the stripping of brackets and the trimming; it does not throw. *)
Theorem resolveImage_first_match
    (src : option string) (images : list (App.Obj ImageFile.t)) (d : string) :
  JS.decodeURIComponent
    (JS.or_empty (option_map JS.replace_bang_backslash src)) = JS.Return d ->
  (forall img,
      App.resolveImage src images = JS.Return (App.ShowImage img) <->
      Resolver.first_such
        (Resolver.accepts_image (Resolver.cleaned d)) img images) /\
  (App.resolveImage src images = JS.Return (App.ImageNotFound d) <->
   Forall (fun img => ~ Resolver.accepts_image (Resolver.cleaned d) img)
     images) /\
  (exists v, App.resolveImage src images = JS.Return v).
Proof.
  intros Hd. unfold App.resolveImage. rewrite Hd. cbn [JS.bind].
  pose proof (find_first_such _ _ (image_matches_accepts d) images) as Hfirst.
  pose proof (find_none_such _ _ (image_matches_accepts d) images) as Hnone.
  destruct (find (App.image_matches d) images) as [found|] eqn:F.
  - repeat split.
    + intros [= <-]. now apply Hfirst.
    + intros H. apply Hfirst in H. congruence.
    + discriminate.
    + intros H. apply Hnone in H. discriminate.
    + eexists; reflexivity.
  - repeat split.
    + discriminate.
    + intros H. apply Hfirst in H. discriminate.
    + intros _. now apply Hnone.
    + eexists; reflexivity.
Qed.

Lemma resolveImage_first_match_witness :
  JS.decodeURIComponent
    (JS.or_empty
       (option_map JS.replace_bang_backslash (Some "images/my%20photo.png")))
  = JS.Return "images/my photo.png" /\
  App.resolveImage (Some "images/my%20photo.png") [Sample.my_photo]
  = JS.Return (App.ShowImage Sample.my_photo).
Proof.
  split; [reflexivity|].
  apply (resolveImage_first_match (Some "images/my%20photo.png") [Sample.my_photo]
           "images/my photo.png"); [reflexivity|].
  exists [], []. repeat split; [|constructor].
  left. reflexivity.
Defined.

(** C6 fails as stated: a target whose escapes are not UTF-8 makes the
    renderer throw, and the not-found value carries the decoded target, not
    the cleaned one. *)
Lemma resolveImage_throws_and_reports_uncleaned :
  ~ (exists v, App.resolveImage (Some "%FF") [] = JS.Return v) /\
  Resolver.cleaned "images/dog.png)" = "images/dog.png" /\
  App.resolveImage (Some "images/dog.png)") []
  <> JS.Return (App.ImageNotFound (Resolver.cleaned "images/dog.png)")) /\
  App.resolveImage (Some "images/dog.png)") []
  = JS.Return (App.ImageNotFound "images/dog.png)").
Proof.
  split; [|split; [|split]].
  - intros [v H]. vm_compute in H. discriminate.
  - reflexivity.
  - vm_compute. discriminate.
  - reflexivity.
Qed.

(** C5, as amended.  Attachment resolution URL-decodes the raw href and
    cleans nothing else (no stripping of [!], brackets or parentheses, no
    trimming); when the decoding succeeds it yields the first attachment of
    the store whose path [attachments/<name>] equals the decoded href or is
    a suffix of it, and otherwise leaves an ordinary link with the raw
    href.  Bare names are not matched. *)
Theorem resolveAttachment_first_match
    (href : option string) (attachments : list (App.Obj Attachment.t))
    (d : string) :
  JS.decodeURIComponent (JS.or_empty href) = JS.Return d ->
  (forall att,
      App.resolveAttachment href attachments
      = JS.Return (App.DownloadButton att) <->
      Resolver.first_such (Resolver.accepts_attachment d) att attachments) /\
  (App.resolveAttachment href attachments = JS.Return (App.PlainLink href) <->
   Forall (fun att => ~ Resolver.accepts_attachment d att) attachments).
Proof.
  intros Hd. unfold App.resolveAttachment. rewrite Hd. cbn [JS.bind].
  pose proof (find_first_such _ _ (attachment_matches_accepts d) attachments)
    as Hfirst.
  pose proof (find_none_such _ _ (attachment_matches_accepts d) attachments)
    as Hnone.
  destruct (find (App.attachment_matches d) attachments) as [found|] eqn:F.
  - repeat split.
    + intros [= <-]. now apply Hfirst.
    + intros H. apply Hfirst in H. congruence.
    + discriminate.
    + intros H. apply Hnone in H. discriminate.
  - repeat split.
    + discriminate.
    + intros H. apply Hfirst in H. discriminate.
    + intros _. now apply Hnone.
Qed.

Lemma resolveAttachment_first_match_witness :
  JS.decodeURIComponent (JS.or_empty (Some "./attachments/notes.txt"))
  = JS.Return "./attachments/notes.txt" /\
  App.resolveAttachment (Some "./attachments/notes.txt") [Sample.notes_txt]
  = JS.Return (App.DownloadButton Sample.notes_txt).
Proof.
  split; [reflexivity|].
  apply (resolveAttachment_first_match (Some "./attachments/notes.txt")
           [Sample.notes_txt] "./attachments/notes.txt"); [reflexivity|].
  exists [], []. repeat split; [|constructor].
  right. exists "./". reflexivity.
Defined.

(** C5 fails as stated: with the cleaning and the predicates of image
    resolution a bare name, or a path with stray punctuation or spaces,
    would resolve; the [a] renderer leaves them unresolved. *)
Lemma resolveAttachment_differs_from_image_rules :
  Claimed.resolveAttachment (Some "notes.txt") [Sample.notes_txt]
  = JS.Return (App.DownloadButton Sample.notes_txt) /\
  App.resolveAttachment (Some "notes.txt") [Sample.notes_txt]
  = JS.Return (App.PlainLink (Some "notes.txt")) /\
  Claimed.resolveAttachment (Some "(attachments/notes.txt) ") [Sample.notes_txt]
  = JS.Return (App.DownloadButton Sample.notes_txt) /\
  App.resolveAttachment (Some "(attachments/notes.txt) ") [Sample.notes_txt]
  = JS.Return (App.PlainLink (Some "(attachments/notes.txt) ")).
Proof. repeat split. Qed.

(* ------------------------------------------------------------------ *)
(** * The asset store: delete, rename, edit *)

Lemma filter_twice {A} (p : A -> bool) (l : list A) :
  filter p (filter p l) = filter p l.
Proof.
  induction l as [|x l IH]; simpl; [reflexivity|].
  destruct (p x) eqn:Px; simpl; [rewrite Px, IH|]; auto.
Qed.

Lemma filter_absent {A} (x : App.Obj A) (l : list (App.Obj A)) :
  ~ In (App.addr x) (map (@App.addr A) l) ->
  filter (fun y => negb (App.same_object y x)) l = l.
Proof.
  induction l as [|y l IH]; simpl; [reflexivity|].
  intros H. unfold App.same_object at 1.
  destruct (Nat.eqb_spec (App.addr y) (App.addr x)) as [E|N]; simpl.
  - exfalso. apply H. now left.
  - rewrite IH; auto.
Qed.

(** C9.  Deleting an asset (the handlers take the object itself for its
    identity) is idempotent, for images and for attachments: a second
    deletion of the same object returns, without error, the store the first
    one left; and deleting an object that is not in the store changes
    nothing. *)
Theorem delete_idempotent
    (st : App.State) (image : App.Obj ImageFile.t)
    (attachment : App.Obj Attachment.t) :
  App.deleteImage (App.deleteImage st image) image = App.deleteImage st image /\
  App.deleteAttachment (App.deleteAttachment st attachment) attachment
  = App.deleteAttachment st attachment /\
  (~ In (App.addr image) (map (@App.addr _) (App.images st)) ->
   App.deleteImage st image = st) /\
  (~ In (App.addr attachment) (map (@App.addr _) (App.attachments st)) ->
   App.deleteAttachment st attachment = st).
Proof.
  repeat split.
  - unfold App.deleteImage. simpl. now rewrite filter_twice.
  - unfold App.deleteAttachment. simpl. now rewrite filter_twice.
  - intros H. destruct st. unfold App.deleteImage. simpl in *.
    now rewrite filter_absent.
  - intros H. destruct st. unfold App.deleteAttachment. simpl in *.
    now rewrite filter_absent.
Qed.

Lemma delete_idempotent_witness :
  ~ In (App.addr Sample.x_png)
      (map (@App.addr _) (App.images (App.deleteImage Sample.sample_state Sample.x_png))) /\
  App.deleteImage (App.deleteImage Sample.sample_state Sample.x_png) Sample.x_png
  = App.deleteImage Sample.sample_state Sample.x_png.
Proof.
  assert (H : ~ In (App.addr Sample.x_png)
      (map (@App.addr _) (App.images (App.deleteImage Sample.sample_state Sample.x_png)))).
  { simpl. intros [H|[]]. discriminate. }
  split; [exact H|].
  exact (proj1 (proj2 (proj2
    (delete_idempotent (App.deleteImage Sample.sample_state Sample.x_png) Sample.x_png Sample.notes_txt))) H).
Defined.

Lemma same_addr_same_object {A} (l : list (App.Obj A)) (x y : App.Obj A) :
  NoDup (map (@App.addr A) l) -> In x l -> In y l ->
  App.addr x = App.addr y -> x = y.
Proof.
  induction l as [|z l IH]; simpl; [contradiction|].
  intros ND Hx Hy E. inversion ND as [|? ? Hz ND']; subst.
  destruct Hx as [->|Hx], Hy as [->|Hy]; auto.
  - exfalso. apply Hz. rewrite E. now apply in_map.
  - exfalso. apply Hz. rewrite <- E. now apply in_map.
Qed.

Lemma map_replacing_related {A} (test : App.Obj A -> bool) (changed : A -> A)
    (arr : list (App.Obj A)) (h : nat) :
  Forall2
    (fun old new =>
       (test old = true -> App.fields new = changed (App.fields old)) /\
       (test old = false -> new = old))
    arr (fst (App.map_replacing test changed arr h)).
Proof.
  revert h. induction arr as [|x r IH]; intros h; simpl; [constructor|].
  destruct (test x) eqn:T.
  - specialize (IH (S h)).
    destruct (App.map_replacing test changed r (S h)) as [r' h'].
    simpl in *. constructor; auto. split; [reflexivity|congruence].
  - specialize (IH h).
    destruct (App.map_replacing test changed r h) as [r' h'].
    simpl in *. constructor; auto. split; [congruence|reflexivity].
Qed.

Lemma Forall2_same {A} (R : A -> A -> Prop) (l : list A) :
  (forall x, In x l -> R x x) -> Forall2 R l l.
Proof.
  induction l as [|x l IH]; intros H; constructor.
  - apply H. now left.
  - apply IH. intros y Hy. apply H. now right.
Qed.

Lemma handleSubmit_cases (name value : string) :
  (JS.trim value = EmptyString /\ App.handleSubmit name value = App.OnCancel) \/
  (JS.trim value = name /\ App.handleSubmit name value = App.OnCancel) \/
  (JS.trim value <> EmptyString /\ JS.trim value <> name /\
   App.handleSubmit name value = App.OnRename (JS.trim value)).
Proof.
  unfold App.handleSubmit. cbv zeta.
  destruct (JS.trim value) as [|c r] eqn:T; [now left|]. right.
  cbn [JS.truthy andb].
  destruct (String.eqb_spec (String c r) name) as [E|N]; simpl.
  - now left.
  - right. repeat split; auto. discriminate.
Qed.

Lemma images_onRenameImage (st : App.State) (image : App.Obj ImageFile.t)
    (t : string) :
  Forall2 (Store.renamed_image (App.addr image) t)
    (App.images st) (App.images (App.onRenameImage st image t)) /\
  App.attachments (App.onRenameImage st image t) = App.attachments st.
Proof.
  unfold App.onRenameImage.
  pose proof (map_replacing_related
                (fun img => App.same_object img image)
                (fun img => App.with_image_name img t)
                (App.images st) (App.heap st)) as H.
  destruct (App.map_replacing _ _ (App.images st) (App.heap st)) as [imgs h].
  simpl in *. split; [|reflexivity].
  eapply Forall2_impl; [|exact H]. intros old new [Ht Hf].
  unfold App.same_object in *. split.
  - intros E. apply Nat.eqb_eq in E. rewrite (Ht E). now simpl.
  - intros N. apply Nat.eqb_neq in N. auto.
Qed.

Lemma attachments_onRenameAttachment (st : App.State)
    (attachment : App.Obj Attachment.t) (t : string) :
  Forall2 (Store.renamed_attachment (App.addr attachment) t)
    (App.attachments st)
    (App.attachments (App.onRenameAttachment st attachment t)) /\
  App.images (App.onRenameAttachment st attachment t) = App.images st.
Proof.
  unfold App.onRenameAttachment.
  pose proof (map_replacing_related
                (fun att => App.same_object att attachment)
                (fun att => App.with_attachment_name att t)
                (App.attachments st) (App.heap st)) as H.
  destruct (App.map_replacing _ _ (App.attachments st) (App.heap st))
    as [atts h].
  simpl in *. split; [|reflexivity].
  eapply Forall2_impl; [|exact H]. intros old new [Ht Hf].
  unfold App.same_object in *. split.
  - intros E. apply Nat.eqb_eq in E. rewrite (Ht E). now simpl.
  - intros N. apply Nat.eqb_neq in N. auto.
Qed.

(** C8, as amended.  A rename whose text trims to the empty string is not
    carried out, and it is not reported as an error either: whatever the
    asset, the form cancels, which leaves the state exactly as closing the
    field does, so both asset lists and the prior display name are as they
    were.  A text that trims to a non-empty name leaves the asset, image or
    attachment, with that trimmed name and with its identifier, content and
    size unchanged, and leaves every other asset untouched; for this the
    list of the asset's kind holds the asset and no object twice, the other
    list being arbitrary. *)
Theorem rename_cancels_blank_and_changes_only_the_name
    (st : App.State) (value : string) :
  (JS.trim value = EmptyString ->
   (forall name, App.handleSubmit name value = App.OnCancel) /\
   (forall image, App.submitImageRename st image value = App.onCancel st) /\
   (forall attachment,
      App.submitAttachmentRename st attachment value = App.onCancel st) /\
   App.images (App.onCancel st) = App.images st /\
   App.attachments (App.onCancel st) = App.attachments st) /\
  (JS.trim value <> EmptyString ->
   (forall image,
      In image (App.images st) ->
      NoDup (map (@App.addr _) (App.images st)) ->
      Forall2 (Store.renamed_image (App.addr image) (JS.trim value))
        (App.images st) (App.images (App.submitImageRename st image value)) /\
      App.attachments (App.submitImageRename st image value)
      = App.attachments st) /\
   (forall attachment,
      In attachment (App.attachments st) ->
      NoDup (map (@App.addr _) (App.attachments st)) ->
      Forall2 (Store.renamed_attachment (App.addr attachment) (JS.trim value))
        (App.attachments st)
        (App.attachments (App.submitAttachmentRename st attachment value)) /\
      App.images (App.submitAttachmentRename st attachment value)
      = App.images st)).
Proof.
  unfold App.submitImageRename, App.submitAttachmentRename.
  split.
  - intros E.
    assert (C : forall name, App.handleSubmit name value = App.OnCancel).
    { intros name.
      destruct (handleSubmit_cases name value)
        as [[_ H]|[[_ H]|(N & _)]]; [exact H|exact H|contradiction]. }
    split; [exact C|].
    split; [intros image; now rewrite C|].
    split; [intros attachment; now rewrite C|].
    split; reflexivity.
  - intros NE. split.
    + intros image Hi NDi. split.
      * destruct (handleSubmit_cases (ImageFile.name (App.fields image)) value)
          as [[E _]|[[E ->]|(_ & _ & ->)]]; [contradiction| |].
        -- simpl. apply Forall2_same. intros old Hold. split; [|reflexivity].
           intros Eaddr.
           rewrite (same_addr_same_object _ old image NDi Hold Hi Eaddr).
           now rewrite E.
        -- apply images_onRenameImage.
      * destruct (App.handleSubmit (ImageFile.name (App.fields image)) value);
          [apply images_onRenameImage | reflexivity].
    + intros attachment Ha NDa. split.
      * destruct (handleSubmit_cases
                    (Attachment.name (App.fields attachment)) value)
          as [[E _]|[[E ->]|(_ & _ & ->)]]; [contradiction| |].
        -- simpl. apply Forall2_same. intros old Hold. split; [|reflexivity].
           intros Eaddr.
           rewrite (same_addr_same_object _ old attachment NDa Hold Ha Eaddr).
           now rewrite E.
        -- apply attachments_onRenameAttachment.
      * destruct (App.handleSubmit
                    (Attachment.name (App.fields attachment)) value);
          [apply attachments_onRenameAttachment | reflexivity].
Qed.

Lemma rename_cancels_blank_and_changes_only_the_name_witness :
  let st := App.mkState EmptyString [Sample.my_photo] [] None None 1 1 in
  JS.trim "  cat.png " <> EmptyString /\
  In Sample.my_photo (App.images st) /\
  NoDup (map (@App.addr _) (App.images st)) /\
  Forall2 (Store.renamed_image (App.addr Sample.my_photo) (JS.trim "  cat.png "))
    (App.images st)
    (App.images (App.submitImageRename st Sample.my_photo "  cat.png ")).
Proof.
  intros st.
  assert (NE : JS.trim "  cat.png " <> EmptyString)
    by (vm_compute; discriminate).
  assert (Hi : In Sample.my_photo (App.images st)) by (simpl; auto).
  assert (NDi : NoDup (map (@App.addr _) (App.images st))).
  { simpl. repeat constructor; simpl; intuition. }
  repeat (split; [assumption|]).
  exact (proj1 (proj1 (proj2
    (rename_cancels_blank_and_changes_only_the_name st "  cat.png ") NE)
    Sample.my_photo Hi NDi)).
Defined.

(** C8 fails as stated: the code has no InvalidName result.  A text that
    trims to the empty string and a text that trims to the current name
    have the same outcome, the form cancels, and lead to the same state; so
    nothing computed from the outcome tells the rename that the
    specification rejects from one that it accepts. *)
Lemma blank_rename_reports_no_InvalidName :
  Claimed.rename "   " = Claimed.InvalidName /\
  Claimed.rename " x.png " = Claimed.Renamed "x.png" /\
  App.handleSubmit "x.png" "   " = App.OnCancel /\
  App.handleSubmit "x.png" " x.png " = App.OnCancel /\
  App.submitImageRename Sample.sample_state Sample.x_png "   "
  = App.submitImageRename Sample.sample_state Sample.x_png " x.png " /\
  ~ (exists report : App.RenameEvent -> Claimed.RenameResult,
       forall value,
         report (App.handleSubmit "x.png" value) = Claimed.rename value).
Proof.
  repeat split. intros [report H].
  pose proof (H "   ") as H1. pose proof (H " x.png ") as H2.
  vm_compute in H1, H2. congruence.
Qed.

(* ------------------------------------------------------------------ *)
(** * Content replacement *)

(** C3 does not hold of the code.  Saving an edited image replaces the file
    and the URL of the image and copies the old size: after a 3-octet image
    is replaced by a 5-octet one its size field still reads 3. *)
Theorem handleImageSave_keeps_the_old_size :
  exists img,
    App.images (App.handleImageSave Sample.editing_state Sample.edited_png)
    = [Sample.my_photo; img] /\
    Web.file_bytes (ImageFile.file (App.fields img)) = [x01; x02; x03; x04; x05] /\
    Web.fetch (ImageFile.url (App.fields img)) = [x01; x02; x03; x04; x05] /\
    ImageFile.size (App.fields img) = 3 /\
    ~ Store.size_ok (App.fields img).
Proof.
  eexists. split; [reflexivity|]. repeat split.
  unfold Store.size_ok. simpl. intros [H _]. discriminate.
Qed.

(** The defect is general: whatever is saved, every image keeps the size
    it had. *)
Lemma handleImageSave_sizes (st : App.State) (editedImage : Web.File) :
  map (fun img => ImageFile.size (App.fields img))
    (App.images (App.handleImageSave st editedImage))
  = map (fun img => ImageFile.size (App.fields img)) (App.images st).
Proof.
  unfold App.handleImageSave.
  pose proof (map_replacing_related (App.is_editing (App.editingImage st))
                (fun img => App.with_image_content img editedImage
                              (Web.readAsDataURL editedImage))
                (App.images st) (App.heap st)) as H.
  destruct (App.map_replacing _ _ (App.images st) (App.heap st)) as [imgs h].
  simpl in *. symmetry.
  induction H as [|old new l l' [Ht Hf] _ IH]; simpl; [reflexivity|].
  f_equal; [|exact IH].
  destruct (App.is_editing (App.editingImage st) old).
  - now rewrite Ht.
  - now rewrite Hf.
Qed.

(* ------------------------------------------------------------------ *)
(** * Paths and file names *)

Lemma split_not_nil (sep : ascii) (s : string) : JS.split sep s <> [].
Proof.
  destruct s as [|c r]; simpl; [discriminate|].
  destruct (Ascii.eqb c sep); [discriminate|].
  destruct (JS.split sep r); discriminate.
Qed.

Lemma split_app (sep : ascii) (a b : string) :
  JS.split sep (a ++ String sep b) = JS.split sep a ++ JS.split sep b.
Proof.
  induction a as [|c r IH]; simpl.
  - now rewrite Ascii.eqb_refl.
  - destruct (Ascii.eqb c sep); [now rewrite IH|].
    rewrite IH. pose proof (split_not_nil sep r) as NE.
    destruct (JS.split sep r); [contradiction|reflexivity].
Qed.

Lemma split_plain (s : string) :
  Bundle.has_slash s = false -> JS.split "/" s = [s].
Proof.
  induction s as [|c r IH]; simpl; [reflexivity|].
  intros H. apply orb_false_iff in H as [Hc Hr].
  rewrite Hc, (IH Hr). reflexivity.
Qed.

Lemma pop_app (l l' : list string) :
  l' <> [] -> JS.pop (l ++ l') = JS.pop l'.
Proof.
  intros NE. induction l as [|x l IH]; simpl; [reflexivity|].
  destruct (l ++ l') eqn:E; [|exact IH].
  apply app_eq_nil in E as [_ E]. contradiction.
Qed.

(** The base name of [folder/n] is [n] when [n] holds no slash. *)
Lemma base_name_in_folder (folder n : string) :
  Bundle.has_slash n = false ->
  Bundle.base_name (folder ++ String "/" n) = n.
Proof.
  intros H. unfold Bundle.base_name.
  rewrite split_app, pop_app by apply split_not_nil.
  now rewrite (split_plain _ H).
Qed.

Lemma base_name_plain (n : string) :
  Bundle.has_slash n = false -> Bundle.base_name n = n.
Proof.
  intros H. unfold Bundle.base_name. now rewrite (split_plain _ H).
Qed.

Lemma toLower_app (a b : string) :
  JS.toLower (a ++ b) = (JS.toLower a ++ JS.toLower b)%string.
Proof. induction a; simpl; congruence. Qed.

Lemma toLower_app_inv (s p t : string) :
  JS.toLower s = (p ++ t)%string ->
  exists a b, s = (a ++ b)%string /\ JS.toLower a = p /\ JS.toLower b = t.
Proof.
  revert s. induction p as [|c p IH]; intros s H; simpl in H.
  - exists EmptyString, s. auto.
  - destruct s as [|d s]; simpl in H; [discriminate|].
    injection H as Hc Hs. destruct (IH _ Hs) as (a & b & -> & Ha & Hb).
    exists (String d a), b. simpl. repeat split; congruence.
Qed.

Lemma lower_dot_inv (s : string) (t : string) :
  JS.toLower s = String "." t -> exists r, s = String "." r /\ JS.toLower r = t.
Proof.
  destruct s as [|c r]; simpl; [discriminate|].
  intros [= Hc Hr]. exists r. split; [|assumption]. f_equal.
  revert Hc. unfold JS.lower.
  destruct c as [[] [] [] [] [] [] [] []]; vm_compute; congruence.
Qed.

Lemma is_image_name_spec (fileName : string) :
  Zip.is_image_name fileName = true <-> Decoded.has_image_extension fileName.
Proof.
  unfold Zip.is_image_name, Decoded.has_image_extension, Zip.image_extensions.
  rewrite existsb_exists. split.
  - intros (e & He & Hends). apply endsWith_suffix in Hends as [p Hp].
    apply toLower_app_inv in Hp as (a & b & -> & _ & Hb).
    assert (exists w, e = String "." w /\
                      In w ["jpg"; "jpeg"; "png"; "gif"; "webp"]) as (w & -> & Hw).
    { simpl in He. repeat destruct He as [<-|He]; try contradiction;
        (eexists; split; [reflexivity|simpl; tauto]). }
    apply lower_dot_inv in Hb as (r & -> & Hr).
    exists a, r. split; [reflexivity|]. now rewrite Hr.
  - intros (stem & ext & -> & Hin).
    exists (String "." (JS.toLower ext)). split.
    + simpl in Hin. simpl.
      repeat destruct Hin as [<-|Hin]; try contradiction; tauto.
    + apply endsWith_suffix. exists (JS.toLower stem).
      now rewrite toLower_app.
Qed.

(* ------------------------------------------------------------------ *)
(** * Decoding *)

Section DecodeFacts.
Variable randomUUID : nat -> string.

Lemma step_cases (a : Zip.acc) (o : JSZip.ZipObject) :
  Zip.step randomUUID a o =
  if Decoded.image_entry o then
    Zip.mkAcc (Zip.images a ++ Decoded.new_images randomUUID (Zip.drawn a) [o])
      (Zip.attachments a) (S (Zip.drawn a))
  else if Decoded.attachment_entry o then
    Zip.mkAcc (Zip.images a) (Zip.attachments a ++ [Decoded.new_attachment o])
      (Zip.drawn a)
  else a.
Proof.
  unfold Zip.step, Decoded.image_entry, Decoded.attachment_entry,
    Bundle.base_name.
  destruct (JSZip.dir o); simpl; [reflexivity|].
  destruct (Zip.is_image_name _); simpl; [reflexivity|].
  destruct (JSZip.name o =? "README.md")%string; reflexivity.
Qed.

Lemma image_not_attachment (o : JSZip.ZipObject) :
  Decoded.image_entry o = true -> Decoded.attachment_entry o = false.
Proof.
  unfold Decoded.image_entry, Decoded.attachment_entry.
  destruct (JSZip.dir o); simpl; [discriminate|].
  now intros ->.
Qed.

(** The loop, as a whole: the images are made from the image entries, in
    order, with consecutive identifiers; the attachments from the
    attachment entries. *)
Lemma loop_result (es : list JSZip.ZipObject) (a : Zip.acc) :
  fold_left (Zip.step randomUUID) es a =
  Zip.mkAcc
    (Zip.images a ++
       Decoded.new_images randomUUID (Zip.drawn a)
         (filter Decoded.image_entry es))
    (Zip.attachments a ++
       map Decoded.new_attachment (filter Decoded.attachment_entry es))
    (Zip.drawn a + List.length (filter Decoded.image_entry es)).
Proof.
  revert a. induction es as [|o es IH]; intros a; simpl.
  - rewrite !app_nil_r, Nat.add_0_r. now destruct a.
  - rewrite IH, step_cases.
    destruct (Decoded.image_entry o) eqn:I.
    + rewrite (image_not_attachment _ I). simpl.
      rewrite <- app_assoc. simpl. f_equal. lia.
    + destruct (Decoded.attachment_entry o); simpl.
      * now rewrite <- app_assoc.
      * reflexivity.
Qed.

Lemma readZipFile_assets (contents : JSZip.Files) (n : nat) :
  let es := JS.entries JSZip.name contents in
  let c := fst (Zip.readZipFile randomUUID contents n) in
  ZipContent.images c
  = Decoded.new_images randomUUID n (filter Decoded.image_entry es) /\
  ZipContent.attachments c
  = map Decoded.new_attachment (filter Decoded.attachment_entry es) /\
  snd (Zip.readZipFile randomUUID contents n)
  = n + List.length (filter Decoded.image_entry es).
Proof.
  unfold Zip.readZipFile. rewrite loop_result. simpl. auto.
Qed.

Lemma new_images_related (n : nat) (es : list JSZip.ZipObject) :
  Forall2 Decoded.image_of es (Decoded.new_images randomUUID n es).
Proof.
  revert n. induction es as [|o es IH]; intros n; simpl; constructor; auto.
  unfold Decoded.image_of. simpl. auto.
Qed.

Lemma new_attachments_related (es : list JSZip.ZipObject) :
  Forall2 Decoded.attachment_of es (map Decoded.new_attachment es).
Proof.
  induction es as [|o es IH]; simpl; constructor; auto.
  unfold Decoded.attachment_of. simpl. auto.
Qed.

Lemma new_images_ids (n : nat) (es : list JSZip.ZipObject) :
  map ImageFile.id (Decoded.new_images randomUUID n es)
  = map randomUUID (seq n (List.length es)).
Proof.
  revert n. induction es as [|o es IH]; intros n; simpl; [reflexivity|].
  now rewrite IH.
Qed.
End DecodeFacts.

(** ** The order of [Object.entries] is a rearrangement of the table *)

Section EntriesFacts.
Context {A : Type} (key : A -> string).

Lemma insert_index_perm (n : N) (x : A) (l : list (N * A)) :
  Permutation (JS.insert_index n x l) ((n, x) :: l).
Proof.
  induction l as [|[m y] l IH]; simpl; [reflexivity|].
  destruct (n <=? m)%N; [reflexivity|].
  rewrite IH. apply perm_swap.
Qed.

Lemma indexed_perm (props : list A) :
  Permutation (map snd (JS.indexed key props))
    (filter (fun x => negb (JS.named key x)) props).
Proof.
  induction props as [|x r IH]; simpl; [reflexivity|].
  unfold JS.named at 1.
  destruct (JS.array_index (key x)) as [n|]; simpl; [|exact IH].
  rewrite insert_index_perm. simpl. now constructor.
Qed.

Lemma filter_split_perm (p : A -> bool) (l : list A) :
  Permutation (filter (fun x => negb (p x)) l ++ filter p l) l.
Proof.
  induction l as [|x l IH]; simpl; [reflexivity|].
  destruct (p x); simpl.
  - rewrite <- Permutation_middle. now constructor.
  - now constructor.
Qed.

Lemma entries_perm (props : list A) :
  Permutation (JS.entries key props) props.
Proof.
  unfold JS.entries. rewrite indexed_perm. apply filter_split_perm.
Qed.

(** Without array-index keys the order is the insertion order. *)
Lemma entries_named (props : list A) :
  Forall (fun x => JS.array_index (key x) = None) props ->
  JS.entries key props = props.
Proof.
  unfold JS.entries. induction 1 as [|x l Hx Hl IH]; simpl; [reflexivity|].
  unfold JS.named at 1. rewrite Hx. simpl.
  assert (E : JS.indexed key l = []).
  { clear IH. induction Hl as [|y l' Hy _ IH']; simpl; [reflexivity|].
    now rewrite Hy. }
  rewrite E in *. simpl in *. now rewrite IH.
Qed.

(** Dropping properties whose keys are not array indices commutes with
    the enumeration. *)
Lemma entries_filter (p : A -> bool) (props : list A) :
  (forall x, p x = false -> JS.array_index (key x) = None) ->
  JS.entries key (filter p props) = filter p (JS.entries key props).
Proof.
  intros Hp. unfold JS.entries.
  assert (Hidx : JS.indexed key (filter p props) = JS.indexed key props).
  { induction props as [|x r IH]; simpl; [reflexivity|].
    destruct (p x) eqn:Px; simpl.
    - now rewrite IH.
    - now rewrite (Hp _ Px). }
  rewrite Hidx, filter_app. f_equal.
  - symmetry. apply forallb_filter_id. apply forallb_forall.
    intros x Hx. destruct (p x) eqn:Px; [reflexivity|].
    exfalso. apply (Permutation_in _ (indexed_perm props)) in Hx.
    apply filter_In in Hx as [_ Hx]. unfold JS.named in Hx.
    now rewrite (Hp _ Px) in Hx.
  - clear Hidx. induction props as [|x r IH]; simpl; [reflexivity|].
    destruct (p x) eqn:Px, (JS.named key x) eqn:Nx; simpl;
      rewrite ?Px, ?Nx, ?IH; reflexivity.
Qed.
End EntriesFacts.

Lemma image_entry_spec (o : JSZip.ZipObject) :
  Decoded.image_entry o = true <->
  JSZip.dir o = false /\
  Decoded.has_image_extension (Bundle.base_name (JSZip.name o)).
Proof.
  unfold Decoded.image_entry.
  rewrite andb_true_iff, negb_true_iff, is_image_name_spec. tauto.
Qed.

Lemma attachment_entry_spec (o : JSZip.ZipObject) :
  Decoded.attachment_entry o = true <->
  JSZip.dir o = false /\
  ~ Decoded.has_image_extension (Bundle.base_name (JSZip.name o)) /\
  JSZip.name o <> "README.md".
Proof.
  unfold Decoded.attachment_entry.
  rewrite !andb_true_iff, !negb_true_iff, String.eqb_neq.
  rewrite <- is_image_name_spec, not_true_iff_false. tauto.
Qed.

(** C7.  During decode every entry of the archive is visited once.  An
    entry that is not a directory and whose base name (final path segment)
    ends with one of the extensions jpg, jpeg, png, gif or webp, that is
    with a dot followed by one of these words, in any letter case, becomes
    an image; an entry that is not a directory, whose base name does not
    end so and whose path is not README.md becomes an attachment; nothing
    else becomes an asset, directories in particular.  In both cases the
    display name is the base name, the content is the octets of the entry
    and the size is their number. *)
Theorem readZipFile_classifies_by_extension
    (randomUUID : nat -> string) (contents : JSZip.Files) (n : nat) :
  let c := fst (Zip.readZipFile randomUUID contents n) in
  let es := JS.entries JSZip.name contents in
  Permutation es contents /\
  (forall o, Decoded.image_entry o = true <->
             JSZip.dir o = false /\
             Decoded.has_image_extension (Bundle.base_name (JSZip.name o))) /\
  (forall o, Decoded.attachment_entry o = true <->
             JSZip.dir o = false /\
             ~ Decoded.has_image_extension (Bundle.base_name (JSZip.name o)) /\
             JSZip.name o <> "README.md") /\
  Forall2 Decoded.image_of (filter Decoded.image_entry es)
    (ZipContent.images c) /\
  Forall2 Decoded.attachment_of (filter Decoded.attachment_entry es)
    (ZipContent.attachments c).
Proof.
  intros c es.
  destruct (readZipFile_assets randomUUID contents n) as (Hi & Ha & _).
  fold c es in Hi, Ha.
  split; [apply entries_perm|].
  split; [exact image_entry_spec|].
  split; [exact attachment_entry_spec|].
  rewrite Hi, Ha. split.
  - apply new_images_related.
  - apply new_attachments_related.
Qed.

(** C4 does not hold of the code: the attachment that [readZipFile] makes
    from an archive entry has no identifier, while the image next to it gets
    one. *)
Theorem readZipFile_attachment_without_id :
  let c := fst (Zip.readZipFile Sample.uuid Sample.archive 0) in
  map ImageFile.id (ZipContent.images c) = ["uuid-0"] /\
  map Attachment.name (ZipContent.attachments c) = ["notes.txt"; "README.md"] /\
  map Attachment.id (ZipContent.attachments c) = [None; None].
Proof. repeat split. Qed.

(** The defect is general: no decoded attachment has an identifier, every
    decoded image has the next one drawn. *)
Lemma readZipFile_ids
    (randomUUID : nat -> string) (contents : JSZip.Files) (n : nat) :
  let c := fst (Zip.readZipFile randomUUID contents n) in
  Forall (fun att => Attachment.id att = None) (ZipContent.attachments c) /\
  map ImageFile.id (ZipContent.images c)
  = map randomUUID (seq n (List.length (ZipContent.images c))).
Proof.
  intros c.
  destruct (readZipFile_assets randomUUID contents n) as (Hi & Ha & _).
  fold c in Hi, Ha. split.
  - rewrite Ha. apply Forall_forall. intros att Hatt.
    apply in_map_iff in Hatt as (o & <- & _). reflexivity.
  - rewrite Hi, new_images_ids. f_equal. f_equal.
    generalize (filter Decoded.image_entry (JS.entries JSZip.name contents)).
    intros l. generalize n. induction l; intros m; simpl; auto.
Qed.

(** Identifiers that exist are kept by rename and by content replacement. *)
Lemma rename_and_save_keep_ids (st : App.State) (image : App.Obj ImageFile.t)
    (t : string) (editedImage : Web.File) :
  map (fun img => ImageFile.id (App.fields img))
    (App.images (App.onRenameImage st image t))
  = map (fun img => ImageFile.id (App.fields img)) (App.images st) /\
  map (fun img => ImageFile.id (App.fields img))
    (App.images (App.handleImageSave st editedImage))
  = map (fun img => ImageFile.id (App.fields img)) (App.images st).
Proof.
  split.
  - unfold App.onRenameImage.
    pose proof (map_replacing_related
                  (fun img => App.same_object img image)
                  (fun img => App.with_image_name img t)
                  (App.images st) (App.heap st)) as H.
    destruct (App.map_replacing _ _ (App.images st) (App.heap st)) as [imgs h].
    simpl in *. symmetry.
    induction H as [|old new l l' [Ht Hf] _ IH]; simpl; [reflexivity|].
    f_equal; [|exact IH].
    destruct (App.same_object old image); [now rewrite Ht|now rewrite Hf].
  - unfold App.handleImageSave.
    pose proof (map_replacing_related (App.is_editing (App.editingImage st))
                  (fun img => App.with_image_content img editedImage
                                (Web.readAsDataURL editedImage))
                  (App.images st) (App.heap st)) as H.
    destruct (App.map_replacing _ _ (App.images st) (App.heap st)) as [imgs h].
    simpl in *. symmetry.
    induction H as [|old new l l' [Ht Hf] _ IH]; simpl; [reflexivity|].
    f_equal; [|exact IH].
    destruct (App.is_editing (App.editingImage st) old);
      [now rewrite Ht|now rewrite Hf].
Qed.

(* ------------------------------------------------------------------ *)
(** * The readme entry *)

Lemma get_unique (fs : JSZip.Files) (o : JSZip.ZipObject) :
  NoDup (map JSZip.name fs) -> In o fs -> JSZip.get fs (JSZip.name o) = Some o.
Proof.
  induction fs as [|x fs IH]; simpl; [contradiction|].
  intros ND [->|Hin].
  - now rewrite String.eqb_refl.
  - inversion ND as [|? ? Hx ND']; subst.
    destruct (String.eqb_spec (JSZip.name x) (JSZip.name o)) as [E|_].
    + exfalso. apply Hx. rewrite E. now apply in_map.
    + auto.
Qed.

Lemma get_some (fs : JSZip.Files) (k : string) (o : JSZip.ZipObject) :
  JSZip.get fs k = Some o -> In o fs /\ JSZip.name o = k.
Proof.
  induction fs as [|x fs IH]; simpl; [discriminate|].
  destruct (String.eqb_spec (JSZip.name x) k) as [E|_].
  - intros [= <-]. auto.
  - intros H. destruct (IH H). auto.
Qed.

Lemma get_filter_key (fs : JSZip.Files) (k : string) :
  JSZip.get (filter (fun o => JSZip.name o =? k) fs) k = JSZip.get fs k.
Proof.
  induction fs as [|x fs IH]; simpl; [reflexivity|].
  destruct (JSZip.name x =? k) eqn:E; simpl; now rewrite ?E.
Qed.

Lemma filter_filter_implied {A} (p q : A -> bool) (l : list A) :
  (forall x, q x = true -> p x = true) ->
  filter q (filter p l) = filter q l.
Proof.
  intros H. induction l as [|x l IH]; simpl; [reflexivity|].
  destruct (p x) eqn:Px; simpl.
  - now rewrite IH.
  - destruct (q x) eqn:Qx; [|exact IH].
    rewrite (H _ Qx) in Px. discriminate.
Qed.

Lemma length_append (a b : string) :
  String.length (a ++ b) = String.length a + String.length b.
Proof. induction a; simpl; auto. Qed.

Lemma nested_readme_is_attachment (o : JSZip.ZipObject) (folder : string) :
  JSZip.dir o = false ->
  JSZip.name o = (folder ++ "/README.md")%string ->
  Decoded.attachment_entry o = true /\
  Bundle.base_name (JSZip.name o) = "README.md".
Proof.
  intros Hd Hn.
  assert (B : Bundle.base_name (JSZip.name o) = "README.md").
  { rewrite Hn. now apply base_name_in_folder. }
  split; [|exact B].
  unfold Decoded.attachment_entry. rewrite Hd, B. simpl.
  apply negb_true_iff, String.eqb_neq. rewrite Hn. intros E.
  apply (f_equal String.length) in E. rewrite length_append in E.
  simpl in E. lia.
Qed.

(** C10.  On decode the readme text is the text of the entry whose path is
    exactly README.md (the empty text when there is no such file entry) and
    depends on no other entry; that entry yields no asset; a file entry
    [<folder>/README.md] becomes an attachment with display name README.md
    and the octets of the entry. *)
Theorem readme_is_the_root_entry_only
    (randomUUID : nat -> string) (contents : JSZip.Files) (n : nat) :
  NoDup (map JSZip.name contents) ->
  let decode fs := fst (Zip.readZipFile randomUUID fs n) in
  (forall o, In o contents -> JSZip.name o = "README.md" ->
             JSZip.dir o = false ->
             ZipContent.readme (decode contents) = JSZip.async_text o) /\
  ((forall o, In o contents -> JSZip.name o = "README.md" ->
              JSZip.dir o = true) ->
   ZipContent.readme (decode contents) = EmptyString) /\
  ZipContent.readme (decode contents)
  = ZipContent.readme
      (decode (filter (fun o => JSZip.name o =? "README.md") contents)) /\
  (let others := filter (fun o => negb (JSZip.name o =? "README.md")) contents in
   ZipContent.images (decode contents) = ZipContent.images (decode others) /\
   ZipContent.attachments (decode contents)
   = ZipContent.attachments (decode others)) /\
  (forall o folder,
      In o contents -> JSZip.dir o = false ->
      JSZip.name o = (folder ++ "/README.md")%string ->
      In (Attachment.mk None "README.md"
            (Web.mkFile "README.md" EmptyString (JSZip.data o))
            (List.length (JSZip.data o)))
         (ZipContent.attachments (decode contents))).
Proof.
  intros ND decode. unfold decode. repeat split.
  - intros o Hin Hn Hd. unfold Zip.readZipFile, JSZip.file_named.
    simpl. rewrite <- Hn, (get_unique _ _ ND Hin), Hd. reflexivity.
  - intros H. unfold Zip.readZipFile, JSZip.file_named. simpl.
    destruct (JSZip.get contents "README.md") as [o|] eqn:G; [|reflexivity].
    apply get_some in G as [Hin Hn]. now rewrite (H o Hin Hn).
  - unfold Zip.readZipFile, JSZip.file_named. simpl.
    now rewrite get_filter_key.
  - destruct (readZipFile_assets randomUUID contents n) as (-> & _).
    destruct (readZipFile_assets randomUUID
                (filter (fun o => negb (JSZip.name o =? "README.md")) contents) n)
      as (-> & _).
    rewrite entries_filter, filter_filter_implied; [reflexivity| |].
    + intros o Ho. unfold Decoded.image_entry in Ho.
      destruct (String.eqb_spec (JSZip.name o) "README.md") as [E|_];
        [|reflexivity].
      rewrite E in Ho. rewrite andb_comm in Ho. discriminate.
    + intros o Ho. apply negb_false_iff, String.eqb_eq in Ho. now rewrite Ho.
  - destruct (readZipFile_assets randomUUID contents n) as (_ & -> & _).
    destruct (readZipFile_assets randomUUID
                (filter (fun o => negb (JSZip.name o =? "README.md")) contents) n)
      as (_ & -> & _).
    rewrite entries_filter, filter_filter_implied; [reflexivity| |].
    + intros o Ho. unfold Decoded.attachment_entry in Ho.
      now apply andb_true_iff in Ho as [_ Ho].
    + intros o Ho. apply negb_false_iff, String.eqb_eq in Ho. now rewrite Ho.
  - intros o folder Hin Hd Hn.
    destruct (nested_readme_is_attachment o folder Hd Hn) as [Ha Hb].
    destruct (readZipFile_assets randomUUID contents n) as (_ & Hatt & _).
    rewrite Hatt. apply in_map_iff. exists o. split.
    + unfold Decoded.new_attachment. now rewrite Hb.
    + apply filter_In. split; [|exact Ha].
      apply (Permutation_in _ (Permutation_sym (entries_perm JSZip.name contents))).
      exact Hin.
Qed.

Lemma readme_is_the_root_entry_only_witness :
  NoDup (map JSZip.name Sample.archive) /\
  ZipContent.readme (fst (Zip.readZipFile Sample.uuid Sample.archive 0))
  = "![x](images/x.png)" /\
  In (Attachment.mk None "README.md"
        (Web.mkFile "README.md" EmptyString (list_byte_of_string "nested")) 6)
     (ZipContent.attachments (fst (Zip.readZipFile Sample.uuid Sample.archive 0))).
Proof.
  assert (ND : NoDup (map JSZip.name Sample.archive)).
  { simpl. repeat constructor; simpl; intuition discriminate. }
  pose proof (readme_is_the_root_entry_only Sample.uuid Sample.archive 0 ND)
    as (Hreadme & _ & _ & _ & Hnested).
  split; [exact ND|]. split.
  - apply (Hreadme (JSZip.mkZipObject "README.md" false
                      (list_byte_of_string "![x](images/x.png)")));
      simpl; auto.
  - apply (Hnested (JSZip.mkZipObject "docs/README.md" false
                      (list_byte_of_string "nested")) "docs");
      simpl; auto 10.
Defined.

(* ------------------------------------------------------------------ *)
(** * The table of a JSZip instance *)

Lemma get_none (fs : JSZip.Files) (k : string) :
  JSZip.get fs k = None <-> ~ In k (map JSZip.name fs).
Proof.
  induction fs as [|x fs IH]; simpl; [tauto|].
  destruct (String.eqb_spec (JSZip.name x) k) as [E|N].
  - split; [discriminate|]. intros H. exfalso. apply H. now left.
  - rewrite IH. tauto.
Qed.

Lemma get_set_same (fs : JSZip.Files) (o : JSZip.ZipObject) :
  JSZip.get (JSZip.set fs o) (JSZip.name o) = Some o.
Proof.
  induction fs as [|x fs IH]; simpl.
  - now rewrite String.eqb_refl.
  - destruct (JSZip.name x =? JSZip.name o) eqn:E; simpl.
    + now rewrite String.eqb_refl.
    + now rewrite E.
Qed.

Lemma get_set_other (fs : JSZip.Files) (o : JSZip.ZipObject) (k : string) :
  k <> JSZip.name o -> JSZip.get (JSZip.set fs o) k = JSZip.get fs k.
Proof.
  intros N. induction fs as [|x fs IH]; simpl.
  - destruct (String.eqb_spec (JSZip.name o) k); congruence.
  - destruct (String.eqb_spec (JSZip.name x) (JSZip.name o)) as [E|NE]; simpl.
    + destruct (String.eqb_spec (JSZip.name o) k); [congruence|].
      destruct (String.eqb_spec (JSZip.name x) k); congruence.
    + now rewrite IH.
Qed.

Lemma set_absent (fs : JSZip.Files) (o : JSZip.ZipObject) :
  JSZip.get fs (JSZip.name o) = None -> JSZip.set fs o = fs ++ [o].
Proof.
  induction fs as [|x fs IH]; simpl; [reflexivity|].
  destruct (JSZip.name x =? JSZip.name o); [discriminate|].
  intros H. now rewrite IH.
Qed.

Lemma in_set (fs : JSZip.Files) (o x : JSZip.ZipObject) :
  In x (JSZip.set fs o) -> In x fs \/ x = o.
Proof.
  induction fs as [|y fs IH]; simpl.
  - intros [<-|[]]. now right.
  - destruct (JSZip.name y =? JSZip.name o); simpl.
    + intros [<-|H]; auto.
    + intros [<-|H]; auto. destruct (IH H); auto.
Qed.

Lemma set_names (fs : JSZip.Files) (o : JSZip.ZipObject) :
  map JSZip.name (JSZip.set fs o) = map JSZip.name fs \/
  (~ In (JSZip.name o) (map JSZip.name fs) /\
   map JSZip.name (JSZip.set fs o) = map JSZip.name fs ++ [JSZip.name o]).
Proof.
  induction fs as [|x fs IH]; simpl.
  - right. auto.
  - destruct (String.eqb_spec (JSZip.name x) (JSZip.name o)) as [E|N]; simpl.
    + left. now rewrite E.
    + destruct IH as [->|[Hn ->]]; [now left|].
      right. split; [|reflexivity]. intros [H|H]; auto.
Qed.

Lemma set_NoDup (fs : JSZip.Files) (o : JSZip.ZipObject) :
  NoDup (map JSZip.name fs) -> NoDup (map JSZip.name (JSZip.set fs o)).
Proof.
  intros ND. destruct (set_names fs o) as [->|[Hn ->]]; [exact ND|].
  apply NoDup_app; [exact ND|repeat constructor; auto|].
  intros k Hk [<-|[]]. contradiction.
Qed.

Lemma slice_last_slash (p : string) : JS.slice_last (p ++ "/") = "/".
Proof.
  induction p as [|c p IH]; simpl; [reflexivity|].
  rewrite IH. destruct (p ++ "/")%string eqn:E; [|reflexivity].
  destruct p; discriminate.
Qed.

Lemma forceTrailingSlash_twice (p : string) :
  JSZip.forceTrailingSlash (JSZip.forceTrailingSlash p)
  = JSZip.forceTrailingSlash p.
Proof.
  unfold JSZip.forceTrailingSlash.
  destruct (JS.slice_last p =? "/") eqn:E.
  - now rewrite E.
  - now rewrite slice_last_slash.
Qed.

(** [fileAdd] keeps every entry stored under another name: the folders it
    adds are new names. *)
Lemma fileAdd_keeps (fuel : nat) (fs : JSZip.Files) (nm : string)
    (d : list byte) (isdir : bool) (k : string) (e : JSZip.ZipObject) :
  JSZip.get fs k = Some e -> k <> Bundle.stored_name nm isdir ->
  JSZip.get (JSZip.fileAdd fuel fs nm d isdir) k = Some e.
Proof.
  revert fs nm d isdir. induction fuel as [|fuel IH]; intros fs nm d isdir G N;
    simpl; fold (Bundle.stored_name nm isdir).
  - rewrite get_set_other by exact N.
    now destruct (JS.truthy _).
  - rewrite get_set_other by exact N.
    destruct (JS.truthy _); [|exact G].
    destruct (JSZip.get fs
                (JSZip.forceTrailingSlash
                   (JSZip.parentFolder (Bundle.stored_name nm isdir))))
      eqn:G'; [exact G|].
    apply IH; [exact G|]. intros E. rewrite E in G.
    unfold Bundle.stored_name at 1 in G.
    rewrite forceTrailingSlash_twice in G. congruence.
Qed.

Lemma fileAdd_stores (fuel : nat) (fs : JSZip.Files) (nm : string)
    (d : list byte) :
  JSZip.get (JSZip.fileAdd fuel fs nm d false) nm
  = Some (JSZip.mkZipObject nm false d).
Proof.
  destruct fuel; simpl;
    apply (get_set_same _ (JSZip.mkZipObject nm false d)).
Qed.

(** The entries of the table after [fileAdd]: the old ones, folders, and the
    entry stored. *)
Lemma in_fileAdd (fuel : nat) (fs : JSZip.Files) (nm : string)
    (d : list byte) (isdir : bool) (x : JSZip.ZipObject) :
  In x (JSZip.fileAdd fuel fs nm d isdir) ->
  In x fs \/ JSZip.dir x = true \/
  x = JSZip.mkZipObject (Bundle.stored_name nm isdir) isdir (if isdir then [] else d).
Proof.
  revert fs nm d isdir. induction fuel as [|fuel IH]; intros fs nm d isdir H;
    simpl in H; fold (Bundle.stored_name nm isdir) in H; apply in_set in H.
  - destruct H as [H| ->]; [|auto]. left. now destruct (JS.truthy _).
  - destruct H as [H| ->]; [|auto].
    destruct (JS.truthy _); [|auto].
    destruct (JSZip.get fs _); [auto|].
    apply IH in H as [H|[H| ->]]; auto.
Qed.

Lemma fileAdd_NoDup (fuel : nat) (fs : JSZip.Files) (nm : string)
    (d : list byte) (isdir : bool) :
  NoDup (map JSZip.name fs) ->
  NoDup (map JSZip.name (JSZip.fileAdd fuel fs nm d isdir)).
Proof.
  revert fs nm d isdir. induction fuel as [|fuel IH]; intros fs nm d isdir ND;
    simpl; apply set_NoDup.
  - now destruct (JS.truthy _).
  - destruct (JS.truthy _); [|exact ND].
    destruct (JSZip.get fs _); [exact ND|]. now apply IH.
Qed.

(* ------------------------------------------------------------------ *)
(** * The depth bound of [fileAdd] is never reached

    The parent folder added by a call has a strictly shorter name than the
    entry, so the length of the name is enough fuel, and more changes
    nothing. *)

Lemma lastIndexOf_lt (c : ascii) (s : string) (i : nat) :
  JS.lastIndexOf c s = Some i -> i < String.length s.
Proof.
  revert i. induction s as [|d r IH]; simpl; [discriminate|].
  intros i. destruct (JS.lastIndexOf c r) as [j|].
  - intros [= <-]. specialize (IH j eq_refl). lia.
  - destruct (Ascii.eqb d c); [|discriminate]. intros [= <-]. lia.
Qed.

Lemma lastIndexOf_before_last (c : ascii) (s : string) (i : nat) :
  JS.lastIndexOf c s = Some i ->
  JS.slice_last s <> String c EmptyString ->
  S i < String.length s.
Proof.
  revert i. induction s as [|d r IH]; simpl; [discriminate|].
  intros i. destruct (JS.lastIndexOf c r) as [j|] eqn:L.
  - intros [= <-] H. destruct r as [|e r']; [discriminate|].
    specialize (IH j eq_refl H). simpl in *. lia.
  - destruct (Ascii.eqb_spec d c) as [->|]; [|discriminate].
    intros [= <-] H. destruct r; [contradiction|]. simpl. lia.
Qed.

Lemma length_substring_le (m : nat) (s : string) :
  String.length (substring 0 m s) <= m /\
  String.length (substring 0 m s) <= String.length s.
Proof.
  revert s. induction m as [|m IH]; intros s; destruct s as [|c s]; simpl;
    try lia.
  destruct (IH s). lia.
Qed.

Lemma length_forceTrailingSlash (p : string) :
  String.length (JSZip.forceTrailingSlash p) <= S (String.length p).
Proof.
  unfold JSZip.forceTrailingSlash.
  destruct (JS.slice_last p =? "/"); [lia|].
  rewrite length_append. simpl. lia.
Qed.

Lemma parent_is_shorter (x : string) :
  JS.truthy (JSZip.parentFolder x) = true ->
  String.length (JSZip.forceTrailingSlash (JSZip.parentFolder x))
  < String.length x.
Proof.
  intros T.
  pose proof (length_forceTrailingSlash (JSZip.parentFolder x)) as F.
  revert T F. unfold JSZip.parentFolder.
  destruct (String.eqb_spec (JS.slice_last x) "/") as [E|N].
  - destruct (JS.lastIndexOf "/" (substring 0 (String.length x - 1) x))
      as [[|i]|] eqn:L; simpl; try discriminate.
    intros _ F. apply lastIndexOf_lt in L.
    destruct (length_substring_le (String.length x - 1) x) as [A _].
    destruct (length_substring_le (S i)
                (substring 0 (String.length x - 1) x)) as [B _].
    destruct x as [|c r]; [discriminate|]. simpl in *. lia.
  - destruct (JS.lastIndexOf "/" x) as [[|i]|] eqn:L; simpl; try discriminate.
    intros _ F. apply lastIndexOf_before_last in L; [|exact N].
    destruct (length_substring_le (S i) x) as [B _]. lia.
Qed.

Lemma fileAdd_one_more (fuel : nat) (fs : JSZip.Files) (nm : string)
    (d : list byte) (isdir : bool) :
  String.length (Bundle.stored_name nm isdir) <= fuel ->
  JSZip.fileAdd (S fuel) fs nm d isdir = JSZip.fileAdd fuel fs nm d isdir.
Proof.
  revert fs nm d isdir.
  induction fuel as [|fuel IH]; intros fs nm d isdir Hlen.
  - simpl. fold (Bundle.stored_name nm isdir).
    destruct (Bundle.stored_name nm isdir); [reflexivity|simpl in Hlen; lia].
  - change (JSZip.fileAdd (S (S fuel)) fs nm d isdir) with
      (JSZip.set
         (if JS.truthy (JSZip.parentFolder (Bundle.stored_name nm isdir)) then
            match JSZip.get fs (JSZip.forceTrailingSlash
                                  (JSZip.parentFolder (Bundle.stored_name nm isdir)))
            with
            | Some _ => fs
            | None =>
                JSZip.fileAdd (S fuel) fs
                  (JSZip.forceTrailingSlash
                     (JSZip.parentFolder (Bundle.stored_name nm isdir)))
                  [] true
            end
          else fs)
         (JSZip.mkZipObject (Bundle.stored_name nm isdir) isdir
            (if isdir then [] else d))).
    change (JSZip.fileAdd (S fuel) fs nm d isdir) with
      (JSZip.set
         (if JS.truthy (JSZip.parentFolder (Bundle.stored_name nm isdir)) then
            match JSZip.get fs (JSZip.forceTrailingSlash
                                  (JSZip.parentFolder (Bundle.stored_name nm isdir)))
            with
            | Some _ => fs
            | None =>
                JSZip.fileAdd fuel fs
                  (JSZip.forceTrailingSlash
                     (JSZip.parentFolder (Bundle.stored_name nm isdir)))
                  [] true
            end
          else fs)
         (JSZip.mkZipObject (Bundle.stored_name nm isdir) isdir
            (if isdir then [] else d))).
    destruct (JS.truthy (JSZip.parentFolder (Bundle.stored_name nm isdir)))
      eqn:T; [|reflexivity].
    destruct (JSZip.get fs _); [reflexivity|].
    rewrite IH; [reflexivity|].
    unfold Bundle.stored_name at 1. rewrite forceTrailingSlash_twice.
    apply parent_is_shorter in T. lia.
Qed.

(** Any fuel from the length of the stored name on gives the same table. *)
Lemma fileAdd_enough_fuel (fuel : nat) (fs : JSZip.Files) (nm : string)
    (d : list byte) (isdir : bool) :
  String.length (Bundle.stored_name nm isdir) <= fuel ->
  JSZip.fileAdd fuel fs nm d isdir
  = JSZip.fileAdd (String.length (Bundle.stored_name nm isdir)) fs nm d isdir.
Proof.
  induction 1 as [|fuel Hle IH]; [reflexivity|].
  now rewrite fileAdd_one_more.
Qed.

(* ------------------------------------------------------------------ *)
(** * Encoding *)

Lemma append_inj_l (r a b : string) : (r ++ a)%string = (r ++ b)%string -> a = b.
Proof. induction r; simpl; intros H; [assumption|]. injection H. auto. Qed.

Lemma folderAdd_keeps (fs : JSZip.Files) (nm k : string) (e : JSZip.ZipObject) :
  JSZip.get fs k = Some e -> JSZip.get (JSZip.folderAdd fs nm) k = Some e.
Proof.
  intros G. unfold JSZip.folderAdd.
  destruct (JSZip.get fs (JSZip.forceTrailingSlash nm)) eqn:G'; [exact G|].
  apply fileAdd_keeps; [exact G|]. intros E. rewrite E in G.
  unfold Bundle.stored_name in G. rewrite forceTrailingSlash_twice in G.
  congruence.
Qed.

Lemma in_folderAdd (fs : JSZip.Files) (nm : string) (x : JSZip.ZipObject) :
  In x (JSZip.folderAdd fs nm) -> In x fs \/ JSZip.dir x = true.
Proof.
  unfold JSZip.folderAdd.
  destruct (JSZip.get fs (JSZip.forceTrailingSlash nm)); [auto|].
  intros H. apply in_fileAdd in H as [H|[H| ->]]; auto.
Qed.

Lemma folderAdd_NoDup (fs : JSZip.Files) (nm : string) :
  NoDup (map JSZip.name fs) -> NoDup (map JSZip.name (JSZip.folderAdd fs nm)).
Proof.
  intros ND. unfold JSZip.folderAdd.
  destruct (JSZip.get fs (JSZip.forceTrailingSlash nm)); [exact ND|].
  now apply fileAdd_NoDup.
Qed.

Section WriteAllFacts.
Context {X : Type} (root : string) (nm : X -> string) (dat : X -> list byte).

Lemma write_all_keeps (items : list X) (fs : JSZip.Files) (k : string)
    (e : JSZip.ZipObject) :
  JSZip.get fs k = Some e ->
  (forall x, In x items -> k <> (root ++ nm x)%string) ->
  JSZip.get (Bundle.write_all root nm dat items fs) k = Some e.
Proof.
  revert fs. induction items as [|x items IH]; intros fs G N; simpl;
    [exact G|].
  apply IH.
  - unfold JSZip.file. apply fileAdd_keeps; [exact G|].
    apply N. now left.
  - intros y Hy. apply N. now right.
Qed.

Lemma write_all_last (pre post : list X) (x : X) (fs : JSZip.Files) :
  (forall y, In y post -> nm y <> nm x) ->
  JSZip.get (Bundle.write_all root nm dat (pre ++ x :: post) fs) (root ++ nm x)
  = Some (Bundle.written root nm dat x).
Proof.
  intros N. unfold Bundle.write_all. rewrite fold_left_app. simpl.
  apply write_all_keeps.
  - unfold JSZip.file. apply fileAdd_stores.
  - intros y Hy E. apply append_inj_l in E. symmetry in E.
    now apply (N y).
Qed.

Lemma in_write_all (items : list X) (fs : JSZip.Files) (o : JSZip.ZipObject) :
  In o (Bundle.write_all root nm dat items fs) ->
  In o fs \/ JSZip.dir o = true \/ exists x, In x items /\ o = Bundle.written root nm dat x.
Proof.
  revert fs. induction items as [|x items IH]; intros fs H; simpl in H;
    [auto|].
  apply IH in H as [H|[H|(y & Hy & ->)]]; auto.
  - unfold JSZip.file in H. apply in_fileAdd in H as [H|[H| ->]]; auto.
    right. right. exists x. split; [now left|reflexivity].
  - right. right. exists y. split; [now right|reflexivity].
Qed.

Lemma write_all_NoDup (items : list X) (fs : JSZip.Files) :
  NoDup (map JSZip.name fs) -> NoDup (map JSZip.name (Bundle.write_all root nm dat items fs)).
Proof.
  revert fs. induction items as [|x items IH]; intros fs ND; simpl;
    [exact ND|].
  apply IH. unfold JSZip.file. now apply fileAdd_NoDup.
Qed.
End WriteAllFacts.

(** [createZipFile], with the first two calls evaluated. *)
Lemma createZipFile_steps (markdown : string) (images : list ImageFile.t)
    (attachments : list Attachment.t) :
  Zip.createZipFile markdown images attachments =
  Bundle.write_all "attachments/" Attachment.name
    (fun att => Web.file_bytes (Attachment.file att)) attachments
    (JSZip.folderAdd
       (Bundle.write_all "images/" ImageFile.name
          (fun img => Web.fetch (ImageFile.url img)) images
          [Bundle.readme_written markdown;
           JSZip.mkZipObject "images/" true []])
       "attachments").
Proof. reflexivity. Qed.

Lemma image_path_not_attachment_path (a b : string) :
  ("images/" ++ a)%string <> ("attachments/" ++ b)%string.
Proof. simpl. discriminate. Qed.

(** C2, as amended.  Encoding adds no suffix.  Every asset is written to
    [images/<display name>] or [attachments/<display name>], a later asset
    taking the place of an earlier one that has the same display name: the
    archive has one entry per path, the entry of a path holds the content
    of the last asset of that namespace with that name, and its files are
    README.md and entries written for assets under their own names. *)
Theorem createZipFile_last_asset_of_a_name_wins
    (markdown : string) (images : list ImageFile.t)
    (attachments : list Attachment.t) :
  let zip := Zip.createZipFile markdown images attachments in
  NoDup (map JSZip.name zip) /\
  JSZip.get zip "README.md" = Some (Bundle.readme_written markdown) /\
  (forall pre img post,
      images = pre ++ img :: post ->
      (forall i, In i post -> ImageFile.name i <> ImageFile.name img) ->
      JSZip.get zip ("images/" ++ ImageFile.name img)
      = Some (Bundle.image_written img)) /\
  (forall pre att post,
      attachments = pre ++ att :: post ->
      (forall a, In a post -> Attachment.name a <> Attachment.name att) ->
      JSZip.get zip ("attachments/" ++ Attachment.name att)
      = Some (Bundle.attachment_written att)) /\
  (forall o, In o zip -> JSZip.dir o = false ->
             o = Bundle.readme_written markdown \/
             (exists img, In img images /\ o = Bundle.image_written img) \/
             (exists att, In att attachments /\
                          o = Bundle.attachment_written att)).
Proof.
  intros zip. unfold zip. rewrite createZipFile_steps.
  split; [|split; [|split; [|split]]].
  - apply write_all_NoDup, folderAdd_NoDup, write_all_NoDup.
    simpl. repeat constructor; simpl; intuition discriminate.
  - apply write_all_keeps; [|intros x _; simpl; discriminate].
    apply folderAdd_keeps.
    apply write_all_keeps; [reflexivity|intros x _; simpl; discriminate].
  - intros pre img post -> N.
    apply write_all_keeps;
      [|intros x _; apply image_path_not_attachment_path].
    apply folderAdd_keeps.
    exact (write_all_last "images/" ImageFile.name
             (fun img => Web.fetch (ImageFile.url img)) pre post img _ N).
  - intros pre att post -> N.
    exact (write_all_last "attachments/" Attachment.name
             (fun att => Web.file_bytes (Attachment.file att)) pre post att _ N).
  - intros o Hin Hd.
    apply in_write_all in Hin as [Hin|[Hin|(att & Hatt & ->)]];
      [|congruence|right; right; exists att; auto].
    apply in_folderAdd in Hin as [Hin|Hin]; [|congruence].
    apply in_write_all in Hin as [Hin|[Hin|(img & Himg & ->)]];
      [|congruence|right; left; exists img; auto].
    destruct Hin as [<-|[<-|[]]]; [now left|discriminate].
Qed.

Lemma createZipFile_last_asset_of_a_name_wins_witness :
  (forall i, In i (@nil ImageFile.t) ->
             ImageFile.name i <> ImageFile.name Sample.second_a_png) /\
  JSZip.get
    (Zip.createZipFile "" [Sample.first_a_png; Sample.second_a_png] [])
    "images/a.png"
  = Some (JSZip.mkZipObject "images/a.png" false [x02; x03]).
Proof.
  assert (N : forall i, In i (@nil ImageFile.t) ->
                        ImageFile.name i <> ImageFile.name Sample.second_a_png)
    by (intros i []).
  split; [exact N|].
  exact (proj1 (proj2 (proj2
    (createZipFile_last_asset_of_a_name_wins ""
       [Sample.first_a_png; Sample.second_a_png] [])))
    [Sample.first_a_png] Sample.second_a_png [] eq_refl N).
Defined.

(** C2 fails as stated: two images both named a.png are encoded as the one
    path images/a.png, holding the content of the second; there is no
    images/a-2.png, and the content of the first-inserted image is not in
    the archive. *)
Lemma two_images_named_a_png_share_one_path :
  let zip := Zip.createZipFile "" [Sample.first_a_png; Sample.second_a_png] [] in
  Bundle.file_entries zip = [("README.md", []); ("images/a.png", [x02; x03])] /\
  ~ In "images/a-2.png" (map JSZip.name zip).
Proof.
  split; [reflexivity|].
  simpl. intuition discriminate.
Qed.

(* ------------------------------------------------------------------ *)
(** * Encoding assets with distinct plain names, and decoding the result *)

Lemma lastIndexOf_plain (n : string) :
  Bundle.has_slash n = false -> JS.lastIndexOf "/" n = None.
Proof.
  induction n as [|c n IH]; simpl; [reflexivity|].
  intros H. apply orb_false_iff in H as [Hc Hn].
  now rewrite (IH Hn), Hc.
Qed.

Lemma lastIndexOf_in_folder (r n : string) :
  Bundle.has_slash n = false ->
  JS.lastIndexOf "/" (r ++ String "/" n) = Some (String.length r).
Proof.
  intros H. induction r as [|c r IH]; simpl.
  - now rewrite (lastIndexOf_plain _ H).
  - now rewrite IH.
Qed.

Lemma substring_prefix (r s : string) :
  substring 0 (String.length r) (r ++ s) = r.
Proof.
  induction r as [|c r IH]; simpl.
  - now destruct s.
  - now rewrite IH.
Qed.

Lemma slice_last_plain (r n : string) :
  Bundle.plain_name n -> (JS.slice_last (r ++ n) =? "/") = false.
Proof.
  intros [NE H].
  assert (L : forall m, m <> EmptyString -> Bundle.has_slash m = false ->
                        (JS.slice_last m =? "/") = false).
  { induction m as [|c m IH]; [congruence|]. simpl.
    intros _ Hs. apply orb_false_iff in Hs as [Hc Hm].
    destruct m as [|d m].
    - simpl. now rewrite Hc.
    - apply IH; [discriminate|exact Hm]. }
  assert (A : forall m, m <> EmptyString ->
                        JS.slice_last (r ++ m) = JS.slice_last m).
  { intros m Hm. induction r as [|c r IH]; simpl; [reflexivity|].
    rewrite IH. destruct (r ++ m)%string eqn:E; [|reflexivity].
    destruct r; simpl in E; [contradiction|discriminate]. }
  rewrite (A _ NE). now apply L.
Qed.

Lemma parentFolder_in_folder (r n : string) :
  r <> EmptyString -> Bundle.plain_name n ->
  JSZip.parentFolder (r ++ String "/" n) = r.
Proof.
  intros Hr Hn. unfold JSZip.parentFolder.
  change (r ++ String "/" n)%string with (r ++ ("/" ++ n))%string.
  rewrite <- append_assoc, (slice_last_plain _ _ Hn), append_assoc. simpl.
  rewrite (lastIndexOf_in_folder _ _ (proj2 Hn)).
  destruct r as [|c r]; [contradiction|].
  cbn [String.length].
  exact (substring_prefix (String c r) (String "/" n)).
Qed.

Lemma get_app (a b : JSZip.Files) (k : string) :
  JSZip.get (a ++ b) k =
  match JSZip.get a k with
  | Some o => Some o
  | None => JSZip.get b k
  end.
Proof.
  induction a as [|x a IH]; simpl; [reflexivity|].
  now destruct (JSZip.name x =? k).
Qed.

(** Writing a plain name that is new in an existing folder appends one
    entry. *)
Lemma file_in_folder (r n : string) (d : list byte) (fs : JSZip.Files) :
  r <> EmptyString ->
  JSZip.forceTrailingSlash r = (r ++ "/")%string ->
  Bundle.plain_name n ->
  JSZip.get fs (r ++ "/") <> None ->
  ~ In ((r ++ "/") ++ n)%string (map JSZip.name fs) ->
  JSZip.file fs (r ++ "/") n d
  = fs ++ [JSZip.mkZipObject ((r ++ "/") ++ n) false d].
Proof.
  intros Hr Hf Hn Hfolder Hnew. unfold JSZip.file.
  assert (L : exists fuel, String.length ((r ++ "/") ++ n) = S fuel).
  { destruct r; [contradiction|]. simpl. eauto. }
  destruct L as [fuel ->]. simpl.
  assert (P : JSZip.parentFolder ((r ++ "/") ++ n) = r).
  { rewrite append_assoc. now apply parentFolder_in_folder. }
  rewrite P, Hf.
  destruct r as [|c r]; [contradiction|]. cbn [JS.truthy].
  destruct (JSZip.get fs (String c r ++ "/")); [|contradiction].
  apply set_absent. simpl. now apply get_none.
Qed.

Section WriteFresh.
Context {X : Type} (r : string) (nm : X -> string) (dat : X -> list byte).
Hypothesis r_not_empty : r <> EmptyString.
Hypothesis r_slash : JSZip.forceTrailingSlash r = (r ++ "/")%string.

Lemma write_all_fresh (items : list X) (fs : JSZip.Files) :
  NoDup (map nm items) ->
  Forall (fun x => Bundle.plain_name (nm x)) items ->
  JSZip.get fs (r ++ "/") <> None ->
  (forall x, In x items ->
             ~ In ((r ++ "/") ++ nm x)%string (map JSZip.name fs)) ->
  Bundle.write_all (r ++ "/") nm dat items fs
  = fs ++ map (Bundle.written (r ++ "/") nm dat) items.
Proof.
  revert fs. induction items as [|x items IH]; intros fs ND Hp Hfolder Hnew;
    simpl.
  - now rewrite app_nil_r.
  - inversion ND as [|? ? Hx ND']; subst.
    inversion Hp as [|? ? Px Hp']; subst.
    rewrite (file_in_folder r (nm x) (dat x) fs r_not_empty r_slash Px
               Hfolder (Hnew x (or_introl eq_refl))).
    fold (Bundle.write_all (r ++ "/") nm dat items
            (fs ++ [JSZip.mkZipObject ((r ++ "/") ++ nm x) false (dat x)])).
    rewrite IH; auto.
    + rewrite <- app_assoc. reflexivity.
    + rewrite get_app. now destruct (JSZip.get fs (r ++ "/")).
    + intros y Hy. rewrite map_app, in_app_iff. simpl.
      intros [H|[H|[]]].
      * now apply (Hnew y (or_intror Hy)).
      * apply append_inj_l in H. apply Hx. rewrite H. now apply in_map.
Qed.
End WriteFresh.

Lemma names_of_written {X : Type} (root : string) (nm : X -> string)
    (dat : X -> list byte) (items : list X) (k : string) :
  In k (map JSZip.name (map (Bundle.written root nm dat) items)) ->
  exists x, In x items /\ k = (root ++ nm x)%string.
Proof.
  rewrite map_map. intros H. apply in_map_iff in H as (x & <- & Hx).
  exists x. auto.
Qed.

(** The archive of a bundle whose names are plain and distinct within each
    namespace: the readme, the two folders, one entry per asset, in
    order. *)
Lemma createZipFile_plain (markdown : string) (images : list ImageFile.t)
    (attachments : list Attachment.t) :
  NoDup (map ImageFile.name images) ->
  NoDup (map Attachment.name attachments) ->
  Forall (fun img => Bundle.plain_name (ImageFile.name img)) images ->
  Forall (fun att => Bundle.plain_name (Attachment.name att)) attachments ->
  Zip.createZipFile markdown images attachments =
  [Bundle.readme_written markdown; JSZip.mkZipObject "images/" true []] ++
  map Bundle.image_written images ++
  [JSZip.mkZipObject "attachments/" true []] ++
  map Bundle.attachment_written attachments.
Proof.
  intros NDi NDa Pi Pa. rewrite createZipFile_steps.
  pose proof (write_all_fresh "images" ImageFile.name
                (fun img => Web.fetch (ImageFile.url img))
                ltac:(discriminate) eq_refl images
                [Bundle.readme_written markdown;
                 JSZip.mkZipObject "images/" true []] NDi Pi) as Ei.
  cbn [append] in Ei. rewrite Ei; clear Ei.
  2: { simpl. discriminate. }
  2: { intros x Hx [H|[H|[]]]; [discriminate H|].
       apply Forall_forall with (x := x) in Pi; [|exact Hx].
       destruct Pi as [NE _]. apply NE.
       simpl in H. injection H as H. now symmetry. }
  set (withImages :=
         [Bundle.readme_written markdown; JSZip.mkZipObject "images/" true []] ++
         map (Bundle.written "images/" ImageFile.name
                (fun img => Web.fetch (ImageFile.url img))) images).
  assert (Names : forall k, In k (map JSZip.name withImages) ->
                            k = "README.md" \/ exists n, k = ("images/" ++ n)%string).
  { intros k Hk. unfold withImages in Hk. rewrite map_app, in_app_iff in Hk.
    destruct Hk as [[<-|[<-|[]]]|Hk].
    - now left.
    - right. now exists EmptyString.
    - apply names_of_written in Hk as (x & _ & ->). right. eauto. }
  assert (Ef : JSZip.folderAdd withImages "attachments"
               = withImages ++ [JSZip.mkZipObject "attachments/" true []]).
  { unfold JSZip.folderAdd.
    change (JSZip.forceTrailingSlash "attachments") with "attachments/".
    assert (G : JSZip.get withImages "attachments/" = None).
    { apply get_none. intros H. apply Names in H as [H|[n H]]; discriminate H. }
    rewrite G.
    assert (E : forall fs,
               JSZip.fileAdd (String.length "attachments/") fs "attachments/"
                 [] true
               = JSZip.set fs (JSZip.mkZipObject "attachments/" true []))
      by reflexivity.
    rewrite E. apply set_absent. exact G. }
  rewrite Ef.
  pose proof (write_all_fresh "attachments" Attachment.name
                (fun att => Web.file_bytes (Attachment.file att))
                ltac:(discriminate) eq_refl attachments
                (withImages ++ [JSZip.mkZipObject "attachments/" true []])
                NDa Pa) as Ea.
  cbn [append] in Ea. rewrite Ea; clear Ea.
  - unfold withImages. rewrite <- !app_assoc. reflexivity.
  - rewrite get_app.
    destruct (JSZip.get withImages "attachments/"); [discriminate|].
    simpl. discriminate.
  - intros x Hx H. rewrite map_app, in_app_iff in H.
    destruct H as [H|[H|[]]].
    + apply Names in H as [H|[n H]]; discriminate H.
    + apply Forall_forall with (x := x) in Pa; [|exact Hx].
      destruct Pa as [NE _]. apply NE.
      simpl in H. injection H as H. now symmetry.
Qed.

Lemma array_index_not_digit (c : ascii) (r : string) :
  JS.digit c = None -> JS.array_index (String c r) = None.
Proof.
  intros H. unfold JS.array_index.
  destruct (Ascii.eqb c "0" && JS.truthy r); [reflexivity|].
  destruct (10 <? String.length (String c r))%nat; [reflexivity|].
  simpl. now rewrite H.
Qed.

Lemma filter_all {A} (p : A -> bool) (l : list A) :
  Forall (fun x => p x = true) l -> filter p l = l.
Proof.
  induction 1 as [|x l Hx _ IH]; simpl; [reflexivity|]. now rewrite Hx, IH.
Qed.

Lemma filter_nothing {A} (p : A -> bool) (l : list A) :
  Forall (fun x => p x = false) l -> filter p l = [].
Proof.
  induction 1 as [|x l Hx _ IH]; simpl; [reflexivity|]. now rewrite Hx.
Qed.

Lemma image_written_entry (img : ImageFile.t) :
  Bundle.plain_name (ImageFile.name img) ->
  Decoded.image_entry (Bundle.image_written img)
  = Zip.is_image_name (ImageFile.name img) /\
  Decoded.attachment_entry (Bundle.image_written img)
  = negb (Zip.is_image_name (ImageFile.name img)) /\
  Bundle.base_name (JSZip.name (Bundle.image_written img)) = ImageFile.name img.
Proof.
  intros [_ H].
  assert (B : Bundle.base_name (JSZip.name (Bundle.image_written img))
              = ImageFile.name img)
    by exact (base_name_in_folder "images" _ H).
  unfold Decoded.image_entry, Decoded.attachment_entry. rewrite B.
  simpl. rewrite andb_true_r. auto.
Qed.

Lemma attachment_written_entry (att : Attachment.t) :
  Bundle.plain_name (Attachment.name att) ->
  Decoded.image_entry (Bundle.attachment_written att)
  = Zip.is_image_name (Attachment.name att) /\
  Decoded.attachment_entry (Bundle.attachment_written att)
  = negb (Zip.is_image_name (Attachment.name att)) /\
  Bundle.base_name (JSZip.name (Bundle.attachment_written att))
  = Attachment.name att.
Proof.
  intros [_ H].
  assert (B : Bundle.base_name (JSZip.name (Bundle.attachment_written att))
              = Attachment.name att)
    by exact (base_name_in_folder "attachments" _ H).
  unfold Decoded.image_entry, Decoded.attachment_entry. rewrite B.
  simpl. rewrite andb_true_r. auto.
Qed.

Lemma new_images_pairs (randomUUID : nat -> string) (n : nat)
    (images : list ImageFile.t) :
  Forall (fun img => Bundle.plain_name (ImageFile.name img)) images ->
  map Bundle.image_pair
    (Decoded.new_images randomUUID n (map Bundle.image_written images))
  = map Bundle.image_pair images.
Proof.
  intros H. revert n. induction H as [|img l Pimg _ IH]; intros n; simpl;
    [reflexivity|].
  rewrite IH. f_equal. unfold Bundle.image_pair. simpl.
  destruct (image_written_entry img Pimg) as (_ & _ & B).
  simpl in B. now rewrite B.
Qed.

Lemma new_attachments_pairs (attachments : list Attachment.t) :
  Forall (fun att => Bundle.plain_name (Attachment.name att)) attachments ->
  map Bundle.attachment_pair
    (map Decoded.new_attachment (map Bundle.attachment_written attachments))
  = map Bundle.attachment_pair attachments.
Proof.
  induction 1 as [|att l Patt _ IH]; simpl; [reflexivity|].
  rewrite IH. f_equal. unfold Bundle.attachment_pair. simpl.
  destruct (attachment_written_entry att Patt) as (_ & _ & B).
  simpl in B. now rewrite B.
Qed.

(** C1, as amended.  For every bundle whose display names are distinct
    within each namespace and are ordinary path segments (non-empty, no
    slash, not [.] or [..]), and in which exactly the images have a name
    with an image extension (a dot followed by jpg, jpeg, png, gif or
    webp): decoding the archive that encoding produces yields the same
    readme text and, per namespace, the same (display name, content)
    pairs, in the same order.  The identifiers are not compared. *)
Theorem decode_encode_round_trip
    (randomUUID : nat -> string) (n : nat) (markdown : string)
    (images : list ImageFile.t) (attachments : list Attachment.t) :
  NoDup (map ImageFile.name images) ->
  NoDup (map Attachment.name attachments) ->
  Forall (fun img => Bundle.ordinary_name (ImageFile.name img) /\
                     Decoded.has_image_extension (ImageFile.name img)) images ->
  Forall (fun att => Bundle.ordinary_name (Attachment.name att) /\
                     ~ Decoded.has_image_extension (Attachment.name att))
    attachments ->
  let c :=
    fst (Zip.readZipFile randomUUID
           (Zip.createZipFile markdown images attachments) n) in
  ZipContent.readme c = markdown /\
  map Bundle.image_pair (ZipContent.images c) = map Bundle.image_pair images /\
  map Bundle.attachment_pair (ZipContent.attachments c)
  = map Bundle.attachment_pair attachments /\
  Bundle.same_set (map Bundle.image_pair (ZipContent.images c))
    (map Bundle.image_pair images) /\
  Bundle.same_set (map Bundle.attachment_pair (ZipContent.attachments c))
    (map Bundle.attachment_pair attachments).
Proof.
  intros NDi NDa Hi Ha c.
  assert (Pi : Forall (fun img => Bundle.plain_name (ImageFile.name img)) images)
    by (eapply Forall_impl; [|exact Hi]; unfold Bundle.ordinary_name; simpl; tauto).
  assert (Pa : Forall (fun att => Bundle.plain_name (Attachment.name att))
                 attachments)
    by (eapply Forall_impl; [|exact Ha]; unfold Bundle.ordinary_name; simpl; tauto).
  assert (Ii : Forall (fun o => Decoded.image_entry o = true /\
                                Decoded.attachment_entry o = false)
                 (map Bundle.image_written images)).
  { apply Forall_map. eapply Forall_impl; [|exact Hi].
    intros img [[P _] E]. apply is_image_name_spec in E.
    destruct (image_written_entry img P) as (-> & -> & _).
    now rewrite E. }
  assert (Ia : Forall (fun o => Decoded.image_entry o = false /\
                                Decoded.attachment_entry o = true)
                 (map Bundle.attachment_written attachments)).
  { apply Forall_map. eapply Forall_impl; [|exact Ha].
    intros att [[P _] E]. rewrite <- is_image_name_spec in E.
    apply not_true_iff_false in E.
    destruct (attachment_written_entry att P) as (-> & -> & _).
    now rewrite E. }
  assert (R : ZipContent.readme c = markdown /\
              map Bundle.image_pair (ZipContent.images c)
              = map Bundle.image_pair images /\
              map Bundle.attachment_pair (ZipContent.attachments c)
              = map Bundle.attachment_pair attachments).
  { unfold c.
    destruct (readZipFile_assets randomUUID
                (Zip.createZipFile markdown images attachments) n)
      as (Himg & Hatt & _).
    rewrite Himg, Hatt. clear Himg Hatt.
    unfold Zip.readZipFile.
    rewrite (createZipFile_plain markdown images attachments NDi NDa Pi Pa).
    rewrite entries_named.
    2: { repeat (apply Forall_app; split); try (repeat constructor).
         - apply Forall_map, Forall_forall. intros img _.
           now apply array_index_not_digit.
         - apply Forall_map, Forall_forall. intros att _.
           now apply array_index_not_digit. }
    split; [|split].
    - simpl. unfold JSZip.async_text. simpl.
      apply string_of_list_byte_of_string.
    - rewrite !filter_app.
      rewrite (filter_all Decoded.image_entry
                 (map Bundle.image_written images))
        by (eapply Forall_impl; [|exact Ii]; simpl; tauto).
      rewrite (filter_nothing Decoded.image_entry
                 (map Bundle.attachment_written attachments))
        by (eapply Forall_impl; [|exact Ia]; simpl; tauto).
      simpl. rewrite app_nil_r. now apply new_images_pairs.
    - rewrite !filter_app.
      rewrite (filter_nothing Decoded.attachment_entry
                 (map Bundle.image_written images))
        by (eapply Forall_impl; [|exact Ii]; simpl; tauto).
      rewrite (filter_all Decoded.attachment_entry
                 (map Bundle.attachment_written attachments))
        by (eapply Forall_impl; [|exact Ia]; simpl; tauto).
      simpl. now apply new_attachments_pairs. }
  destruct R as (R1 & R2 & R3). repeat split; auto.
  - now rewrite R2.
  - now rewrite R2.
  - now rewrite R3.
  - now rewrite R3.
Qed.

Lemma decode_encode_round_trip_witness :
  let images := [App.fields Sample.my_photo; App.fields Sample.x_png] in
  let attachments := [App.fields Sample.notes_txt] in
  NoDup (map ImageFile.name images) /\
  NoDup (map Attachment.name attachments) /\
  Forall (fun img => Bundle.ordinary_name (ImageFile.name img) /\
                     Decoded.has_image_extension (ImageFile.name img)) images /\
  Forall (fun att => Bundle.ordinary_name (Attachment.name att) /\
                     ~ Decoded.has_image_extension (Attachment.name att))
    attachments /\
  map Bundle.image_pair
    (ZipContent.images
       (fst (Zip.readZipFile Sample.uuid
               (Zip.createZipFile "![x](images/x.png)" images attachments) 0)))
  = [("my photo.png", [x01; x02; x03]); ("x.png", [x0a; x0b; x0c])].
Proof.
  intros images attachments.
  assert (NDi : NoDup (map ImageFile.name images)).
  { simpl. repeat constructor; simpl; intuition discriminate. }
  assert (NDa : NoDup (map Attachment.name attachments)).
  { simpl. repeat constructor; simpl; intuition. }
  assert (Hi : Forall (fun img => Bundle.ordinary_name (ImageFile.name img) /\
                                  Decoded.has_image_extension (ImageFile.name img))
                 images).
  { repeat constructor; simpl; try discriminate.
    - now exists "my photo", "png"; simpl; auto.
    - now exists "x", "png"; simpl; auto. }
  assert (Ha : Forall (fun att => Bundle.ordinary_name (Attachment.name att) /\
                                  ~ Decoded.has_image_extension (Attachment.name att))
                 attachments).
  { repeat constructor; simpl; try discriminate.
    rewrite <- is_image_name_spec. vm_compute. discriminate. }
  repeat (split; [assumption|]).
  exact (proj1 (proj2
    (decode_encode_round_trip Sample.uuid 0 "![x](images/x.png)" images
       attachments NDi NDa Hi Ha))).
Defined.

(** C1 fails as stated: with display names unique in each namespace, an
    attachment named chart.png comes back as an image, and an image named
    d/a.png comes back named a.png. *)
Lemma round_trip_moves_and_renames_assets :
  let c1 := fst (Zip.readZipFile Sample.uuid
                   (Zip.createZipFile "" [] [Sample.chart_png]) 0) in
  let c2 := fst (Zip.readZipFile Sample.uuid
                   (Zip.createZipFile "" [Sample.nested_png] []) 0) in
  NoDup (map Attachment.name [Sample.chart_png]) /\
  NoDup (map ImageFile.name [Sample.nested_png]) /\
  map Bundle.image_pair (ZipContent.images c1) = [("chart.png", [x05; x06])] /\
  ZipContent.attachments c1 = [] /\
  ~ Bundle.same_set (map Bundle.attachment_pair (ZipContent.attachments c1))
      (map Bundle.attachment_pair [Sample.chart_png]) /\
  ~ Bundle.same_set (map Bundle.image_pair (ZipContent.images c1))
      (map Bundle.image_pair (@nil ImageFile.t)) /\
  map Bundle.image_pair (ZipContent.images c2) = [("a.png", [x07])] /\
  ~ Bundle.same_set (map Bundle.image_pair (ZipContent.images c2))
      (map Bundle.image_pair [Sample.nested_png]).
Proof.
  repeat split.
  - repeat constructor; simpl; intuition.
  - repeat constructor; simpl; intuition.
  - intros H. destruct (proj2 (H ("chart.png", [x05; x06]))) as [].
    simpl. now left.
  - intros H. destruct (proj1 (H ("chart.png", [x05; x06]))) as [].
    simpl. now left.
  - intros H. destruct (proj1 (H ("a.png", [x07]))) as [E|[]].
    + simpl. now left.
    + discriminate E.
Qed.

(* ------------------------------------------------------------------ *)
(** * What the other paths of the code do about sizes and identifiers *)

(** Every path that creates an image records the length of its content as
    its size, and a rename keeps that; only [handleImageSave] breaks it. *)
Lemma size_ok_where_images_are_made
    (randomUUID : nat -> string) (files : list Web.File) (h n : nat)
    (contents : JSZip.Files) (img : ImageFile.t) (newName : string) :
  Forall (fun o => Store.size_ok (App.fields o))
    (App.newImages randomUUID files h n) /\
  Forall Store.size_ok
    (ZipContent.images (fst (Zip.readZipFile randomUUID contents n))) /\
  (Store.size_ok img -> Store.size_ok (App.with_image_name img newName)).
Proof.
  split; [|split].
  - revert h n. induction files as [|f files IH]; intros h n; simpl;
      constructor; auto.
    unfold Store.size_ok. simpl. auto.
  - destruct (readZipFile_assets randomUUID contents n) as (-> & _).
    generalize (filter Decoded.image_entry (JS.entries JSZip.name contents)).
    intros l. generalize n. induction l as [|o l IH]; intros m; simpl;
      constructor; auto.
    unfold Store.size_ok. simpl. auto.
  - unfold Store.size_ok. simpl. auto.
Qed.

(** The upload handler gives every attachment an identifier; loading an
    archive puts attachments without one into the state. *)
Lemma identifiers_of_ingested_attachments
    (randomUUID : nat -> string) (st : App.State) (files : list Web.File)
    (contents : JSZip.Files) :
  Forall (fun a => Attachment.id (App.fields a) <> None)
    (App.newAttachments randomUUID files (App.heap st) (App.drawn st)) /\
  Forall (fun a => Attachment.id (App.fields a) = None)
    (App.attachments (App.handleZipUpload randomUUID st contents)).
Proof.
  split.
  - generalize (App.heap st), (App.drawn st).
    induction files as [|f files IH]; intros h n; simpl; constructor; auto.
    simpl. discriminate.
  - unfold App.handleZipUpload.
    pose proof (readZipFile_ids randomUUID contents (App.drawn st)) as [H _].
    destruct (Zip.readZipFile randomUUID contents (App.drawn st)) as [c m].
    simpl in *.
    generalize (App.heap st + List.length (ZipContent.images c)).
    induction H as [|a l Ha _ IH]; intros h; simpl; constructor; auto.
Qed.

(* ------------------------------------------------------------------ *)
(** * The scenarios of the specification, evaluated *)

Example resolver_exactness :
  App.resolveImage (Some "images/cat.png") [Sample.cat_png]
  = JS.Return (App.ShowImage Sample.cat_png) /\
  App.resolveImage (Some "./images/cat.png") [Sample.cat_png]
  = JS.Return (App.ShowImage Sample.cat_png) /\
  App.resolveImage (Some "images/dog.png") [Sample.cat_png]
  = JS.Return (App.ImageNotFound "images/dog.png").
Proof. repeat split. Qed.

Example resolver_url_decoding :
  App.resolveImage (Some "images/my%20photo.png") [Sample.cat_png; Sample.my_photo]
  = JS.Return (App.ShowImage Sample.my_photo).
Proof. reflexivity. Qed.

Example blank_rename_is_cancelled :
  JS.trim "   " = EmptyString /\
  App.handleSubmit "x.png" "   " = App.OnCancel /\
  App.images (App.submitImageRename Sample.sample_state Sample.x_png "   ")
  = App.images Sample.sample_state.
Proof. repeat split. Qed.

Example scenario_decode_and_encode_again :
  let c := fst (Zip.readZipFile Sample.uuid
                  (firstn 5 Sample.archive) 0) in
  ZipContent.readme c = "![x](images/x.png)" /\
  map (fun i => (ImageFile.name i, ImageFile.size i)) (ZipContent.images c)
  = [("x.png", 3)] /\
  map (fun a => (Attachment.name a, Attachment.size a)) (ZipContent.attachments c)
  = [("notes.txt", 5)] /\
  Bundle.file_entries
    (Zip.createZipFile (ZipContent.readme c) (ZipContent.images c)
       (ZipContent.attachments c))
  = Bundle.file_entries (firstn 5 Sample.archive).
Proof. repeat split. Qed.

(* ------------------------------------------------------------------ *)
(** * The size shown for an asset *)

Lemma tenths_nearest (num den : N) :
  (0 < den)%N ->
  (2 * den * Num.tenths num den <= 20 * num + den /\
   20 * num + den < 2 * den * (Num.tenths num den + 1))%N.
Proof.
  intros Hden. unfold Num.tenths. split.
  - apply N.Div0.mul_div_le.
  - rewrite N.add_1_r. apply N.mul_succ_div_gt. lia.
Qed.

(** The text shown for a size: the size itself in bytes below 1024; from
    there to below 1024 * 1024 the number of tenths of a KB nearest to the
    size (a half goes up) and from there on the nearest number of tenths
    of a MB, so that what is shown is never off by more than a twentieth
    of the unit.  The list of attachments formats sizes the same way. *)
Theorem formatFileSize_shows_the_nearest_tenth (size : N) :
  AttachmentList.formatSize size = App.formatFileSize size /\
  ((size < 1024)%N ->
   App.formatFileSize size = (Num.decimal size ++ " B")%string) /\
  ((1024 <= size < 1024 * 1024)%N ->
   exists n,
     App.formatFileSize size = (Num.fixed1 n ++ " KB")%string /\
     (1024 * n <= 10 * size + 512 < 1024 * (n + 1))%N /\
     (10 <= n <= 10240)%N) /\
  ((1024 * 1024 <= size)%N ->
   exists n,
     App.formatFileSize size = (Num.fixed1 n ++ " MB")%string /\
     (1048576 * n <= 10 * size + 524288 < 1048576 * (n + 1))%N /\
     (10 <= n)%N).
Proof.
  split; [reflexivity|]. unfold App.formatFileSize. split; [|split].
  - intros H. apply N.ltb_lt in H. now rewrite H.
  - intros [Hlo Hhi].
    assert (E1 : (size <? 1024)%N = false) by (apply N.ltb_ge; lia).
    assert (E2 : (size <? 1024 * 1024)%N = true) by (apply N.ltb_lt; lia).
    rewrite E1, E2. exists (Num.tenths size 1024). split; [reflexivity|].
    pose proof (tenths_nearest size 1024 ltac:(lia)) as [A B]. lia.
  - intros Hlo.
    assert (E1 : (size <? 1024)%N = false) by (apply N.ltb_ge; lia).
    assert (E2 : (size <? 1024 * 1024)%N = false) by (apply N.ltb_ge; lia).
    rewrite E1, E2. exists (Num.tenths size (1024 * 1024)).
    split; [reflexivity|].
    pose proof (tenths_nearest size (1024 * 1024) ltac:(lia)) as [A B].
    change (1024 * 1024)%N with 1048576%N in *. lia.
Qed.

Lemma formatFileSize_shows_the_nearest_tenth_witness :
  (1024 <= 1280 < 1024 * 1024)%N /\
  exists n,
    App.formatFileSize 1280 = (Num.fixed1 n ++ " KB")%string /\
    (1024 * n <= 10 * 1280 + 512 < 1024 * (n + 1))%N /\
    (10 <= n <= 10240)%N.
Proof.
  assert (H : (1024 <= 1280 < 1024 * 1024)%N) by lia.
  split; [exact H|].
  exact (proj1 (proj2 (proj2 (formatFileSize_shows_the_nearest_tenth 1280))) H).
Defined.

(** The last 51 sizes below 1024 * 1024 bytes are shown as 1024.0 KB: the
    unit is chosen from the size, the digits from the rounded quotient. *)
Theorem formatFileSize_just_below_one_MB (size : N) :
  (1048525 <= size < 1048576)%N ->
  App.formatFileSize size = "1024.0 KB".
Proof.
  intros [Hlo Hhi]. unfold App.formatFileSize.
  assert (E1 : (size <? 1024)%N = false) by (apply N.ltb_ge; lia).
  assert (E2 : (size <? 1024 * 1024)%N = true) by (apply N.ltb_lt; lia).
  rewrite E1, E2. unfold Num.toFixed1.
  assert (T : Num.tenths size 1024 = 10240%N).
  { unfold Num.tenths. symmetry.
    apply N.div_unique with (r := (20 * size + 1024 - 2 * 1024 * 10240)%N); lia. }
  rewrite T. reflexivity.
Qed.

Lemma formatFileSize_just_below_one_MB_witness :
  (1048525 <= 1048575 < 1048576)%N /\
  App.formatFileSize 1048575 = "1024.0 KB".
Proof.
  assert (H : (1048525 <= 1048575 < 1048576)%N) by lia.
  split; [exact H|]. exact (formatFileSize_just_below_one_MB 1048575 H).
Defined.

(* ------------------------------------------------------------------ *)
(** * Dragging in the image editor *)

Section Dragging.
Context {num : Type} (sub : num -> num -> num).

(** While the button is up the pointer moves nothing: from a state that is
    not dragging, any run of moves, releases and leaves keeps the state's
    position, scale and start point. *)
Theorem moves_without_a_press_change_nothing
    (st : ImageEditor.State num) (gs : list (ImageEditor.gesture num)) :
  ImageEditor.isDragging st = false ->
  Forall (fun g => forall e, g <> ImageEditor.Down e) gs ->
  fold_left (ImageEditor.handle sub) gs st = st.
Proof.
  intros Hd Hgs. revert st Hd.
  induction Hgs as [|g gs Hg _ IH]; intros st Hd; simpl; [reflexivity|].
  assert (E : ImageEditor.handle sub st g = st).
  { destruct g as [e|e| |]; simpl.
    - now contradiction (Hg e).
    - unfold ImageEditor.handleMouseMove. now rewrite Hd.
    - unfold ImageEditor.handleMouseUp. rewrite <- Hd. now destruct st.
    - unfold ImageEditor.handleMouseUp. rewrite <- Hd. now destruct st. }
  rewrite E. now apply IH.
Qed.

(** During a drag the position depends on the last pointer position only:
    after a press at [e0] followed by moves the last of which is at [e1],
    the position is [e1 - (e0 - p)] in each coordinate, [p] being the
    position at the press, and the drag is still on. *)
Theorem drag_follows_the_last_move
    (st : ImageEditor.State num) (e0 e1 : ImageEditor.MouseEvent num)
    (moves : list (ImageEditor.MouseEvent num)) :
  let st' :=
    fold_left (ImageEditor.handle sub)
      (ImageEditor.Down e0 :: map (@ImageEditor.Move num) (moves ++ [e1])) st in
  ImageEditor.position st' =
  ImageEditor.mkPoint
    (sub (ImageEditor.clientX e1)
       (sub (ImageEditor.clientX e0) (ImageEditor.x (ImageEditor.position st))))
    (sub (ImageEditor.clientY e1)
       (sub (ImageEditor.clientY e0) (ImageEditor.y (ImageEditor.position st)))) /\
  ImageEditor.isDragging st' = true /\
  ImageEditor.scale st' = ImageEditor.scale st.
Proof.
  simpl.
  set (s0 := ImageEditor.handleMouseDown sub st e0).
  assert (G : forall ms s,
             ImageEditor.isDragging s = true ->
             let s' := fold_left (ImageEditor.handle sub)
                         (map (@ImageEditor.Move num) ms) s in
             ImageEditor.isDragging s' = true /\
             ImageEditor.startPos s' = ImageEditor.startPos s /\
             ImageEditor.scale s' = ImageEditor.scale s).
  { induction ms as [|m ms IH]; intros s Hs; simpl; [auto|].
    pose proof (IH (ImageEditor.handleMouseMove sub s m)) as IH'.
    unfold ImageEditor.handleMouseMove in IH' |- *.
    rewrite Hs in IH' |- *. simpl in IH'. now apply IH'. }
  rewrite map_app, fold_left_app. simpl.
  destruct (G moves s0 eq_refl) as (A & B & C).
  unfold ImageEditor.handleMouseMove. rewrite A. simpl. rewrite B, C.
  auto.
Qed.
End Dragging.

Lemma moves_without_a_press_change_nothing_witness :
  let gs := [ImageEditor.Move Sample.press; ImageEditor.Up Z;
             ImageEditor.Move Sample.release_at; ImageEditor.Leave Z] in
  ImageEditor.isDragging Sample.editor_at_rest = false /\
  Forall (fun g => forall e, g <> ImageEditor.Down e) gs /\
  fold_left (ImageEditor.handle Z.sub) gs Sample.editor_at_rest
  = Sample.editor_at_rest.
Proof.
  intros gs.
  assert (Hd : ImageEditor.isDragging Sample.editor_at_rest = false)
    by reflexivity.
  assert (Hgs : Forall (fun g => forall e, g <> ImageEditor.Down e) gs)
    by (repeat constructor; discriminate).
  split; [exact Hd|]. split; [exact Hgs|].
  exact (moves_without_a_press_change_nothing Z.sub Sample.editor_at_rest gs
           Hd Hgs).
Defined.

(* ------------------------------------------------------------------ *)
(** * Trimming *)

Section ScanFacts.
Variable w1 : ascii -> bool.
Variable w2 : ascii -> ascii -> bool.
Variable w3 : ascii -> ascii -> ascii -> bool.

Lemma scan_by_length (n : nat) (s : string) :
  String.length s <= n ->
  (exists p, s = (p ++ Names.scan w1 w2 w3 s)%string) /\
  Names.solid_head w1 w2 w3 (Names.scan w1 w2 w3 s) = true.
Proof.
  revert s. induction n as [|n IH]; intros s Hn.
  - destruct s; [|simpl in Hn; lia]. split; [now exists EmptyString|reflexivity].
  - destruct s as [|a r1]; [split; [now exists EmptyString|reflexivity]|].
    simpl in Hn. cbn [Names.scan].
    destruct (w1 a) eqn:W1.
    { destruct (IH r1 ltac:(lia)) as [[p Hp] H]. split; [|exact H].
      exists (String a p). simpl. now rewrite <- Hp. }
    destruct r1 as [|b r2].
    { split; [now exists EmptyString|]. simpl. now rewrite W1. }
    simpl in Hn. destruct (w2 a b) eqn:W2.
    { destruct (IH r2 ltac:(lia)) as [[p Hp] H]. split; [|exact H].
      exists (String a (String b p)). simpl. now rewrite <- Hp. }
    destruct r2 as [|c r3].
    { split; [now exists EmptyString|]. simpl. now rewrite W1, W2. }
    simpl in Hn. destruct (w3 a b c) eqn:W3.
    { destruct (IH r3 ltac:(lia)) as [[p Hp] H]. split; [|exact H].
      exists (String a (String b (String c p))). simpl. now rewrite <- Hp. }
    split; [now exists EmptyString|]. simpl. now rewrite W1, W2, W3.
Qed.

Lemma scan_suffix (s : string) :
  exists p, s = (p ++ Names.scan w1 w2 w3 s)%string.
Proof. exact (proj1 (scan_by_length (String.length s) s (le_n _))). Qed.

Lemma scan_solid (s : string) :
  Names.solid_head w1 w2 w3 (Names.scan w1 w2 w3 s) = true.
Proof. exact (proj2 (scan_by_length (String.length s) s (le_n _))). Qed.

Lemma solid_scan (s : string) :
  Names.solid_head w1 w2 w3 s = true -> Names.scan w1 w2 w3 s = s.
Proof.
  destruct s as [|a [|b [|c r3]]]; simpl; try reflexivity.
  - now destruct (w1 a).
  - destruct (w1 a); [discriminate|]. now destruct (w2 a b).
  - destruct (w1 a); [discriminate|]. destruct (w2 a b); [discriminate|].
    now destruct (w3 a b c).
Qed.

Lemma solid_prefix (p q : string) :
  Names.solid_head w1 w2 w3 (p ++ q) = true ->
  Names.solid_head w1 w2 w3 p = true.
Proof.
  destruct p as [|a [|b [|c r3]]]; simpl; try reflexivity.
  - destruct (w1 a); [discriminate|reflexivity].
  - destruct (w1 a); [discriminate|]. simpl.
    destruct q; [auto|]. destruct (w2 a b); [discriminate|reflexivity].
  - auto.
Qed.
End ScanFacts.

Lemma trimStart_scan (s : string) :
  JS.trimStart s = Names.scan JS.ws1 JS.ws2 JS.ws3 s.
Proof. reflexivity. Qed.

Lemma trimStart_rev_scan (s : string) :
  JS.trimStart_rev s =
  Names.scan JS.ws1 (fun a b => JS.ws2 b a) (fun a b c => JS.ws3 c b a) s.
Proof. reflexivity. Qed.

Lemma rev_append (a b : string) :
  JS.rev (a ++ b) = (JS.rev b ++ JS.rev a)%string.
Proof.
  induction a as [|c a IH]; simpl.
  - now rewrite append_nil_r.
  - now rewrite IH, append_assoc.
Qed.

Lemma rev_rev (s : string) : JS.rev (JS.rev s) = s.
Proof.
  induction s as [|c s IH]; simpl; [reflexivity|].
  rewrite rev_append, IH. reflexivity.
Qed.

(** [trimEnd] cuts a suffix off. *)
Lemma trimEnd_prefix (s : string) :
  exists q, s = (JS.trimEnd s ++ q)%string.
Proof.
  unfold JS.trimEnd. rewrite trimStart_rev_scan.
  destruct (scan_suffix JS.ws1 (fun a b => JS.ws2 b a)
              (fun a b c => JS.ws3 c b a) (JS.rev s)) as [p Hp].
  exists (JS.rev p). rewrite <- rev_append, <- Hp. now rewrite rev_rev.
Qed.

Lemma trimEnd_twice (s : string) : JS.trimEnd (JS.trimEnd s) = JS.trimEnd s.
Proof.
  unfold JS.trimEnd. rewrite rev_rev. f_equal.
  change (JS.trimStart_rev (JS.trimStart_rev (JS.rev s)))
    with (Names.scan JS.ws1 (fun a b => JS.ws2 b a) (fun a b c => JS.ws3 c b a)
            (JS.trimStart_rev (JS.rev s))).
  apply solid_scan. rewrite trimStart_rev_scan. apply scan_solid.
Qed.

(** Trimming what is trimmed changes nothing, and what is trimmed is a
    part of the text. *)
Lemma trim_twice (s : string) : JS.trim (JS.trim s) = JS.trim s.
Proof.
  unfold JS.trim.
  destruct (trimEnd_prefix (JS.trimStart s)) as [q Hq].
  assert (H : JS.trimStart (JS.trimEnd (JS.trimStart s))
              = JS.trimEnd (JS.trimStart s)).
  { rewrite (trimStart_scan (JS.trimEnd _)). apply solid_scan.
    apply solid_prefix with (q := q). rewrite <- Hq, trimStart_scan.
    apply scan_solid. }
  rewrite H. apply trimEnd_twice.
Qed.

Lemma trim_part (s : string) :
  exists p q, s = (p ++ JS.trim s ++ q)%string.
Proof.
  unfold JS.trim.
  destruct (scan_suffix JS.ws1 JS.ws2 JS.ws3 s) as [p Hp].
  rewrite <- trimStart_scan in Hp.
  destruct (trimEnd_prefix (JS.trimStart s)) as [q Hq].
  exists p, q. now rewrite <- Hq.
Qed.

(** A rename that goes through stores a name that is not empty, differs
    from the old one, is a part of the text typed, and has no white space
    left at either end: trimming it again gives the same name. *)
Theorem handleSubmit_renames_to_a_trimmed_name
    (name value newName : string) :
  App.handleSubmit name value = App.OnRename newName ->
  newName <> EmptyString /\
  newName <> name /\
  JS.trim newName = newName /\
  (exists p q, value = (p ++ newName ++ q)%string) /\
  App.handleSubmit name newName = App.OnRename newName.
Proof.
  intros H.
  destruct (handleSubmit_cases name value)
    as [[_ E]|[[_ E]|(NE & NN & E)]]; rewrite E in H; try discriminate.
  injection H as <-.
  assert (T : JS.trim (JS.trim value) = JS.trim value) by apply trim_twice.
  repeat split; auto.
  - apply trim_part.
  - destruct (handleSubmit_cases name (JS.trim value))
      as [[E' _]|[[E' _]|(_ & _ & E')]]; rewrite T in *; congruence.
Qed.

Lemma handleSubmit_renames_to_a_trimmed_name_witness :
  App.handleSubmit "x.png" "  cat.png " = App.OnRename "cat.png" /\
  JS.trim "cat.png" = "cat.png".
Proof.
  assert (H : App.handleSubmit "x.png" "  cat.png " = App.OnRename "cat.png")
    by reflexivity.
  split; [exact H|].
  exact (proj1 (proj2 (proj2
    (handleSubmit_renames_to_a_trimmed_name "x.png" "  cat.png " "cat.png" H)))).
Defined.

(* ------------------------------------------------------------------ *)
(** * Targets the resolvers leave as they are *)

Lemma decode_no_percent (s : string) :
  Names.has_percent s = false -> JS.decode JS.Any s = JS.Return s.
Proof.
  induction s as [|c r IH]; simpl; [reflexivity|].
  intros H. apply orb_false_iff in H as [Hc Hr].
  rewrite Hc, (IH Hr). reflexivity.
Qed.

Lemma has_percent_remove (p : ascii -> bool) (s : string) :
  Names.has_percent s = false ->
  Names.has_percent (JS.remove_chars p s) = false.
Proof.
  induction s as [|c r IH]; simpl; [reflexivity|].
  intros H. apply orb_false_iff in H as [Hc Hr].
  destruct (p c); simpl; [auto|]. now rewrite Hc, IH.
Qed.

Lemma tame_char_spec (c : ascii) :
  Names.tame_char c = true ->
  (33 <= N_of_ascii c <= 126)%N /\
  Ascii.eqb c "%" = false /\
  JS.is_bang_or_backslash c = false /\
  JS.is_open_punct c = false /\
  JS.is_close_punct c = false.
Proof.
  unfold Names.tame_char. cbv zeta.
  rewrite !andb_true_iff, !negb_true_iff, N.leb_le, N.leb_le. tauto.
Qed.

Lemma tame_append (a b : string) :
  Names.tame (a ++ b) = Names.tame a && Names.tame b.
Proof.
  induction a as [|c a IH]; simpl; [reflexivity|].
  now rewrite IH, andb_assoc.
Qed.

Lemma tame_rev (s : string) : Names.tame (JS.rev s) = Names.tame s.
Proof.
  induction s as [|c s IH]; simpl; [reflexivity|].
  rewrite tame_append, IH. simpl. rewrite andb_true_r. apply andb_comm.
Qed.

Lemma tame_no_percent (s : string) :
  Names.tame s = true -> Names.has_percent s = false.
Proof.
  induction s as [|c r IH]; simpl; [reflexivity|].
  intros H. apply andb_true_iff in H as [Hc Hr].
  apply tame_char_spec in Hc as (_ & -> & _). simpl. auto.
Qed.

Lemma tame_head_solid (s : string) :
  Names.tame s = true ->
  Names.solid_head JS.ws1 JS.ws2 JS.ws3 s = true /\
  Names.solid_head JS.ws1 (fun a b => JS.ws2 b a) (fun a b c => JS.ws3 c b a) s
  = true.
Proof.
  destruct s as [|a r1]; [auto|]. simpl.
  intros H. apply andb_true_iff in H as [Ha _].
  apply tame_char_spec in Ha as ([Lo Hi] & _).
  assert (W1 : JS.ws1 a = false).
  { unfold JS.ws1. cbv zeta.
    apply orb_false_iff. split.
    - apply andb_false_iff. right. apply N.leb_gt. lia.
    - apply N.eqb_neq. lia. }
  assert (W2 : forall b, JS.ws2 a b = false /\ JS.ws2 b a = false).
  { intros b. unfold JS.ws2. split.
    - apply andb_false_iff. left. apply N.eqb_neq. lia.
    - apply andb_false_iff. right. apply N.eqb_neq. lia. }
  assert (W3 : forall b c, JS.ws3 a b c = false /\ JS.ws3 c b a = false).
  { intros b c. unfold JS.ws3. cbv zeta.
    assert (E : forall k, (k < 33 \/ 126 < k)%N ->
                          (N_of_ascii a =? k)%N = false)
      by (intros k Hk; apply N.eqb_neq; lia).
    assert (L : (128 <=? N_of_ascii a)%N = false) by (apply N.leb_gt; lia).
    split.
    - rewrite !E by lia. reflexivity.
    - rewrite !E by lia. rewrite L. simpl.
      rewrite !andb_false_r. reflexivity. }
  rewrite W1. simpl.
  split.
  - destruct r1 as [|b r2]; [reflexivity|].
    rewrite (proj1 (W2 b)). simpl.
    destruct r2 as [|c r3]; [reflexivity|]. now rewrite (proj1 (W3 b c)).
  - destruct r1 as [|b r2]; [reflexivity|].
    rewrite (proj2 (W2 b)). simpl.
    destruct r2 as [|c r3]; [reflexivity|]. now rewrite (proj2 (W3 b c)).
Qed.

(** The renderers of images and of links throw only for a target that
    holds a percent sign: without one, and without a target at all, each
    returns a view. *)
Theorem resolvers_return_without_percent
    (src : option string) (images : list (App.Obj ImageFile.t))
    (attachments : list (App.Obj Attachment.t)) :
  Names.has_percent (JS.or_empty src) = false ->
  (exists v, App.resolveImage src images = JS.Return v) /\
  (exists v, App.resolveAttachment src attachments = JS.Return v).
Proof.
  intros H. split.
  - unfold App.resolveImage.
    assert (D : JS.decodeURIComponent
                  (JS.or_empty (option_map JS.replace_bang_backslash src))
                = JS.Return
                    (JS.or_empty (option_map JS.replace_bang_backslash src))).
    { apply decode_no_percent. destruct src as [s|]; simpl in *; [|reflexivity].
      now apply has_percent_remove. }
    rewrite D. simpl.
    destruct (find _ images); eexists; reflexivity.
  - unfold App.resolveAttachment.
    rewrite (decode_no_percent _ H : JS.decodeURIComponent _ = _). simpl.
    destruct (find _ attachments); eexists; reflexivity.
Qed.

Lemma resolvers_return_without_percent_witness :
  Names.has_percent (JS.or_empty (Some "images/dog.png")) = false /\
  exists v, App.resolveImage (Some "images/dog.png") [Sample.cat_png]
            = JS.Return v.
Proof.
  assert (H : Names.has_percent (JS.or_empty (Some "images/dog.png")) = false)
    by reflexivity.
  split; [exact H|].
  exact (proj1 (resolvers_return_without_percent (Some "images/dog.png")
                  [Sample.cat_png] [] H)).
Defined.

(* ------------------------------------------------------------------ *)
(** * Which asset a canonical path resolves to *)

Lemma suffix_trans (a b c : string) :
  Resolver.suffix a b -> Resolver.suffix b c -> Resolver.suffix a c.
Proof.
  intros [p ->] [q ->]. exists (q ++ p)%string. now rewrite append_assoc.
Qed.

Lemma suffix_refl (a : string) : Resolver.suffix a a.
Proof. now exists EmptyString. Qed.

Lemma suffix_append (p a : string) : Resolver.suffix a (p ++ a).
Proof. now exists p. Qed.

(** Whatever an image is accepted by, its name ends the cleaned target
    when cleaning the name leaves it as it is. *)
Lemma accepted_ends_with_name (c : string) (img : App.Obj ImageFile.t) :
  JS.trim (JS.replace_markdown_punct (ImageFile.name (App.fields img)))
  = ImageFile.name (App.fields img) ->
  Resolver.accepts_image c img ->
  Resolver.suffix (ImageFile.name (App.fields img)) c.
Proof.
  intros Hclean [H|[H|[H|[H|H]]]].
  - rewrite H. apply suffix_append.
  - rewrite H. apply suffix_refl.
  - eapply suffix_trans; [|exact H]. apply suffix_append.
  - exact H.
  - rewrite H, Hclean. apply suffix_refl.
Qed.

Lemma split_unique {A B} (f : A -> B) (l : list A) (a a' b b' : list A) (x : A) :
  NoDup (map f l) -> l = a ++ x :: b -> l = a' ++ x :: b' -> a = a'.
Proof.
  revert l a'. induction a as [|y a IH]; intros l a' ND E E'.
  - destruct a' as [|z a']; [reflexivity|]. exfalso.
    rewrite E in E'. simpl in E'. injection E' as Ex Eb.
    rewrite E in ND. simpl in ND. apply NoDup_cons_iff in ND as [Hx _].
    apply Hx. apply in_map. rewrite Eb, Ex. apply in_elt.
  - destruct a' as [|z a'].
    + exfalso. rewrite E' in E. simpl in E. injection E as Ex Eb.
      rewrite E' in ND. simpl in ND. apply NoDup_cons_iff in ND as [Hx _].
      apply Hx. apply in_map. rewrite Eb, Ex. apply in_elt.
    + rewrite E in E'. simpl in E'. injection E' as Ey Et.
      f_equal; [exact Ey|]. rewrite E in ND. simpl in ND.
      apply NoDup_cons_iff in ND as [_ ND'].
      exact (IH (a ++ x :: b) a' ND' eq_refl Et).
Qed.

(** An image listed after another one whose name ends its own name is
    never shown: whatever the target, the earlier image, or one before
    it, is taken first.  (The names are compared as suffixes, so t.png
    listed before cat.png hides it, and so does a second image of the
    same name.) *)
Theorem later_image_is_hidden_by_a_suffix_name
    (src : option string) (pre mid post : list (App.Obj ImageFile.t))
    (e img : App.Obj ImageFile.t) :
  NoDup (map (@App.addr _) (pre ++ e :: mid ++ img :: post)) ->
  Resolver.suffix (ImageFile.name (App.fields e))
    (ImageFile.name (App.fields img)) ->
  JS.trim (JS.replace_markdown_punct (ImageFile.name (App.fields img)))
  = ImageFile.name (App.fields img) ->
  App.resolveImage src (pre ++ e :: mid ++ img :: post)
  <> JS.Return (App.ShowImage img).
Proof.
  intros ND Hsuf Hclean H. unfold App.resolveImage in H.
  destruct (JS.decodeURIComponent _) as [d|]; [|discriminate]. simpl in H.
  destruct (find (App.image_matches d) _) as [x|] eqn:F; [|discriminate].
  injection H as ->.
  apply (find_first_such _ _ (image_matches_accepts d)) in F
    as (l1 & l2 & E & Hacc & Hpre).
  assert (L : l1 = pre ++ e :: mid).
  { apply (split_unique (@App.addr _) _ l1 (pre ++ e :: mid) l2 post img ND E).
    now rewrite <- app_assoc. }
  subst l1. rewrite Forall_forall in Hpre.
  apply (Hpre e); [apply in_elt|].
  right. right. right. left.
  eapply suffix_trans; [exact Hsuf|].
  now apply accepted_ends_with_name.
Qed.

Lemma later_image_is_hidden_by_a_suffix_name_witness :
  NoDup (map (@App.addr _) ([] ++ Sample.t_png :: [] ++ Sample.cat_png :: [])) /\
  Resolver.suffix "t.png" "cat.png" /\
  App.resolveImage (Some "images/cat.png") [Sample.t_png; Sample.cat_png]
  <> JS.Return (App.ShowImage Sample.cat_png).
Proof.
  assert (ND : NoDup (map (@App.addr _)
                        ([] ++ Sample.t_png :: [] ++ Sample.cat_png :: []))).
  { simpl. repeat constructor; simpl; intuition discriminate. }
  assert (S : Resolver.suffix "t.png" "cat.png") by (now exists "ca").
  split; [exact ND|]. split; [exact S|].
  exact (later_image_is_hidden_by_a_suffix_name (Some "images/cat.png")
           [] [] [] Sample.t_png Sample.cat_png ND S eq_refl).
Defined.

Lemma avoids_remove (p : ascii -> bool) (s : string) :
  Names.avoids p s = true -> JS.remove_chars p s = s.
Proof.
  induction s as [|c r IH]; simpl; [reflexivity|].
  intros H. apply andb_true_iff in H as [Hc Hr].
  apply negb_true_iff in Hc. now rewrite Hc, (IH Hr).
Qed.

(** A name that does not end with white space still does not after
    [images/] is put before it. *)
Lemma trimEnd_image_path (n : string) :
  JS.trimEnd n = n -> JS.trimEnd ("images/" ++ n) = ("images/" ++ n)%string.
Proof.
  intros H. unfold JS.trimEnd in *.
  apply (f_equal JS.rev) in H. rewrite rev_rev in H.
  rewrite (rev_append "images/" n).
  set (s := JS.rev n) in *.
  assert (S : Names.solid_head JS.ws1 (fun a b => JS.ws2 b a)
                (fun a b c => JS.ws3 c b a) s = true).
  { rewrite <- H, trimStart_rev_scan. apply scan_solid. }
  assert (T : Names.solid_head JS.ws1 (fun a b => JS.ws2 b a)
                (fun a b c => JS.ws3 c b a) (s ++ JS.rev "images/") = true).
  { destruct s as [|a [|b [|c r]]]; [reflexivity| | |exact S].
    - simpl in S |- *. rewrite andb_true_r in S. rewrite S. reflexivity.
    - simpl in S |- *. exact S. }
  rewrite trimStart_rev_scan, (solid_scan _ _ _ _ T).
  rewrite rev_append, rev_rev. unfold s. now rewrite rev_rev.
Qed.

(** A tame name is one the renderer leaves as it is. *)
Lemma tame_avoids (n : string) :
  Names.tame n = true ->
  Names.has_percent n = false /\
  Names.avoids JS.is_bang_or_backslash n = true /\
  Names.avoids JS.is_close_punct n = true /\
  JS.trimEnd n = n.
Proof.
  intros H. split; [now apply tame_no_percent|].
  assert (A : forall p, (forall c, Names.tame_char c = true -> p c = false) ->
                        Names.avoids p n = true).
  { intros p Hp. induction n as [|c r IH]; simpl in *; [reflexivity|].
    apply andb_true_iff in H as [Hc Hr]. now rewrite (Hp c Hc), (IH Hr). }
  split; [|split].
  - apply A. intros c Hc. now apply tame_char_spec in Hc.
  - apply A. intros c Hc. now apply tame_char_spec in Hc.
  - unfold JS.trimEnd. rewrite trimStart_rev_scan, solid_scan; [apply rev_rev|].
    apply tame_head_solid. now rewrite tame_rev.
Qed.

(** The reference the copy button writes for an image, [images/<name>],
    resolves to that image when its name holds no percent sign, no
    exclamation mark, no backslash, no closing parenthesis or bracket, does
    not end with white space, and no image listed before it has a name
    that ends the path, or that is the path once cleaned.  Any other
    character may occur in the name, those outside ASCII included. *)
Theorem copied_image_reference_resolves_to_the_image
    (pre post : list (App.Obj ImageFile.t)) (img : App.Obj ImageFile.t) :
  let n := ImageFile.name (App.fields img) in
  let target := ("images/" ++ n)%string in
  Names.has_percent n = false ->
  Names.avoids JS.is_bang_or_backslash n = true ->
  Names.avoids JS.is_close_punct n = true ->
  JS.trimEnd n = n ->
  (forall e, In e pre ->
             ~ Resolver.suffix (ImageFile.name (App.fields e)) target /\
             Resolver.cleaned (ImageFile.name (App.fields e)) <> target) ->
  App.copyImageMarkdown img = ("![" ++ n ++ "](" ++ target ++ ")")%string /\
  App.resolveImage (Some target) (pre ++ img :: post)
  = JS.Return (App.ShowImage img).
Proof.
  intros n target Hp Hb Hc Ht Hpre. split; [reflexivity|].
  assert (D : JS.decodeURIComponent
                (JS.or_empty
                   (option_map JS.replace_bang_backslash (Some target)))
              = JS.Return target).
  { simpl. unfold JS.replace_bang_backslash.
    rewrite (avoids_remove JS.is_bang_or_backslash target)
      by (unfold target; simpl; exact Hb).
    apply decode_no_percent. unfold target. simpl. exact Hp. }
  assert (C : Resolver.cleaned target = target).
  { unfold Resolver.cleaned.
    assert (R : JS.replace_markdown_punct target = target).
    { unfold target. simpl. now rewrite (avoids_remove _ n Hc). }
    rewrite R. unfold JS.trim.
    assert (L : JS.trimStart target = target) by reflexivity.
    rewrite L. now apply trimEnd_image_path. }
  unfold App.resolveImage. rewrite D. simpl.
  assert (F : find (App.image_matches target) (pre ++ img :: post) = Some img).
  { apply (find_first_such _ _ (image_matches_accepts target)).
    exists pre, post. split; [reflexivity|].
    rewrite C. split.
    - left. reflexivity.
    - apply Forall_forall. intros e He Hacc.
      destruct (Hpre e He) as [Hs Hcl].
      destruct Hacc as [H|[H|[H|[H|H]]]].
      + apply Hs. rewrite H. apply suffix_append.
      + apply Hs. rewrite H. apply suffix_refl.
      + apply Hs. eapply suffix_trans; [|exact H]. apply suffix_append.
      + now apply Hs.
      + apply Hcl. now rewrite H. }
  now rewrite F.
Qed.

Lemma copied_image_reference_resolves_to_the_image_witness :
  let n := ImageFile.name (App.fields Sample.neko_png) in
  Names.tame n = false /\
  Names.has_percent n = false /\
  Names.avoids JS.is_bang_or_backslash n = true /\
  Names.avoids JS.is_close_punct n = true /\
  JS.trimEnd n = n /\
  App.resolveImage (Some ("images/" ++ n)%string)
    [Sample.x_png; Sample.neko_png]
  = JS.Return (App.ShowImage Sample.neko_png).
Proof.
  intros n.
  assert (Hp : Names.has_percent n = false) by reflexivity.
  assert (Hb : Names.avoids JS.is_bang_or_backslash n = true) by reflexivity.
  assert (Hc : Names.avoids JS.is_close_punct n = true) by reflexivity.
  assert (Ht : JS.trimEnd n = n) by reflexivity.
  split; [reflexivity|].
  repeat (split; [assumption|]).
  refine (proj2 (copied_image_reference_resolves_to_the_image
                   [Sample.x_png] [] Sample.neko_png Hp Hb Hc Ht _)).
  intros e [<-|[]]. split.
  - intros [p E]. apply (f_equal JS.rev) in E. rewrite (rev_append p) in E.
    vm_compute in E. discriminate E.
  - vm_compute. discriminate.
Defined.

(** Any string that holds the separator has its last one at or after the
    place it is known to be. *)
Lemma lastIndexOf_at_least (c : ascii) (a b : string) :
  exists i, JS.lastIndexOf c (a ++ String c b) = Some i /\ String.length a <= i.
Proof.
  induction a as [|d a [i [Hi Hle]]]; simpl.
  - destruct (JS.lastIndexOf c b) as [j|].
    + exists (S j). split; [reflexivity|lia].
    + exists 0. rewrite Ascii.eqb_refl. auto.
  - rewrite Hi. exists (S i). split; [reflexivity|lia].
Qed.

Lemma attachment_path_suffix (n m : string) :
  Bundle.has_slash n = false ->
  Resolver.suffix ("attachments/" ++ m) ("attachments/" ++ n) -> m = n.
Proof.
  intros Hn [p Hp].
  pose proof (lastIndexOf_in_folder "attachments" n Hn) as L1.
  change ("attachments" ++ String "/" n)%string
    with ("attachments/" ++ n)%string in L1.
  destruct (lastIndexOf_at_least "/" (p ++ "attachments") m) as (i & L2 & Hle).
  rewrite append_assoc in L2.
  change ("attachments" ++ String "/" m)%string
    with ("attachments/" ++ m)%string in L2.
  rewrite <- Hp, L1 in L2. injection L2 as <-.
  rewrite length_append in Hle. simpl in Hle.
  destruct p as [|c p]; [|simpl in Hle; lia].
  simpl in Hp. now injection Hp.
Qed.

(** The link the copy buttons write for an attachment,
    [attachments/<name>], resolves to that attachment when its name holds
    no slash and no percent sign and no attachment listed before it has
    the same name. *)
Theorem copied_attachment_link_resolves_to_the_attachment
    (pre post : list (App.Obj Attachment.t)) (att : App.Obj Attachment.t) :
  let n := Attachment.name (App.fields att) in
  let target := ("attachments/" ++ n)%string in
  Bundle.has_slash n = false ->
  Names.has_percent n = false ->
  (forall e, In e pre -> Attachment.name (App.fields e) <> n) ->
  App.copyAttachmentMarkdown att = ("[" ++ n ++ "](" ++ target ++ ")")%string /\
  AttachmentList.copyMarkdownLink (App.fields att)
  = App.copyAttachmentMarkdown att /\
  App.resolveAttachment (Some target) (pre ++ att :: post)
  = JS.Return (App.DownloadButton att).
Proof.
  intros n target Hs Hp Hpre. split; [reflexivity|]. split; [reflexivity|].
  unfold App.resolveAttachment.
  assert (D : JS.decodeURIComponent (JS.or_empty (Some target))
              = JS.Return target).
  { apply decode_no_percent. unfold target. simpl. exact Hp. }
  rewrite D. simpl.
  assert (F : find (App.attachment_matches target) (pre ++ att :: post)
              = Some att).
  { apply (find_first_such _ _ (attachment_matches_accepts target)).
    exists pre, post. split; [reflexivity|]. split.
    - left. reflexivity.
    - apply Forall_forall. intros e He Hacc. apply (Hpre e He).
      apply attachment_path_suffix; [exact Hs|].
      destruct Hacc as [H|H]; [|exact H].
      unfold target in H. rewrite <- H. apply suffix_refl. }
  now rewrite F.
Qed.

Lemma copied_attachment_link_resolves_to_the_attachment_witness :
  Bundle.has_slash "report.pdf" = false /\
  Names.has_percent "report.pdf" = false /\
  App.resolveAttachment (Some "attachments/report.pdf")
    [Sample.notes_txt; Sample.report_pdf]
  = JS.Return (App.DownloadButton Sample.report_pdf).
Proof.
  assert (Hs : Bundle.has_slash (Attachment.name (App.fields Sample.report_pdf))
               = false) by reflexivity.
  assert (Hp : Names.has_percent (Attachment.name (App.fields Sample.report_pdf))
               = false) by reflexivity.
  split; [exact Hs|]. split; [exact Hp|].
  refine (proj2 (proj2 (copied_attachment_link_resolves_to_the_attachment
                          [Sample.notes_txt] [] Sample.report_pdf Hs Hp _))).
  intros e [<-|[]]. discriminate.
Defined.

(* ------------------------------------------------------------------ *)
(** * Decoding: every file once, in any order *)

Lemma filter_perm {A} (p : A -> bool) (l l' : list A) :
  Permutation l l' -> Permutation (filter p l) (filter p l').
Proof.
  induction 1 as [|x l l' _ IH|x y l|l l' l'' _ IH1 _ IH2]; simpl.
  - constructor.
  - destruct (p x); [now constructor|exact IH].
  - destruct (p x), (p y); try reflexivity. apply perm_swap.
  - now transitivity (filter p l').
Qed.

Lemma filter_count_split {A} (p q r : A -> bool) (l : list A) :
  (forall x, r x = p x || q x) ->
  (forall x, p x = true -> q x = false) ->
  List.length (filter p l) + List.length (filter q l)
  = List.length (filter r l).
Proof.
  intros Hr Hpq. induction l as [|x l IH]; simpl; [reflexivity|].
  rewrite (Hr x). destruct (p x) eqn:P; simpl.
  - rewrite (Hpq x P). simpl. lia.
  - destruct (q x); simpl; lia.
Qed.

Lemma asset_entry_split (o : JSZip.ZipObject) :
  Decoded.asset_entry o
  = Decoded.image_entry o || Decoded.attachment_entry o.
Proof.
  unfold Decoded.asset_entry, Decoded.image_entry, Decoded.attachment_entry.
  destruct (JSZip.dir o); simpl; [reflexivity|].
  destruct (String.eqb_spec (JSZip.name o) "README.md") as [E|N]; simpl.
  - rewrite E. reflexivity.
  - rewrite andb_true_r. now destruct (Zip.is_image_name _).
Qed.

Lemma new_images_length (randomUUID : nat -> string) (n : nat)
    (es : list JSZip.ZipObject) :
  List.length (Decoded.new_images randomUUID n es) = List.length es.
Proof.
  revert n. induction es as [|o es IH]; intros n; simpl; [reflexivity|].
  now rewrite IH.
Qed.

Lemma new_images_entry_pairs (randomUUID : nat -> string) (n : nat)
    (es : list JSZip.ZipObject) :
  map Bundle.image_pair (Decoded.new_images randomUUID n es)
  = map Decoded.entry_pair es.
Proof.
  revert n. induction es as [|o es IH]; intros n; simpl; [reflexivity|].
  now rewrite IH.
Qed.

Lemma new_attachments_entry_pairs (es : list JSZip.ZipObject) :
  map Bundle.attachment_pair (map Decoded.new_attachment es)
  = map Decoded.entry_pair es.
Proof.
  induction es as [|o es IH]; simpl; [reflexivity|]. now rewrite IH.
Qed.

(** Decoding neither drops nor repeats a file: the images and the
    attachments it returns are together as many as the entries of the
    archive that are files other than README.md, and as many identifiers
    are drawn as there are images. *)
Theorem readZipFile_makes_one_asset_per_file
    (randomUUID : nat -> string) (contents : JSZip.Files) (n : nat) :
  let c := fst (Zip.readZipFile randomUUID contents n) in
  List.length (ZipContent.images c) + List.length (ZipContent.attachments c)
  = List.length (filter Decoded.asset_entry contents) /\
  snd (Zip.readZipFile randomUUID contents n)
  = n + List.length (ZipContent.images c).
Proof.
  intros c.
  destruct (readZipFile_assets randomUUID contents n) as (Hi & Ha & Hn).
  fold c in Hi, Ha. rewrite Hi, Ha, Hn, new_images_length, length_map.
  split; [|reflexivity].
  rewrite (filter_count_split Decoded.image_entry Decoded.attachment_entry
             Decoded.asset_entry).
  - apply Permutation_length, filter_perm, entries_perm.
  - exact asset_entry_split.
  - exact image_not_attachment.
Qed.

Lemma get_perm (fs fs' : JSZip.Files) (k : string) :
  NoDup (map JSZip.name fs) -> Permutation fs fs' ->
  JSZip.get fs' k = JSZip.get fs k.
Proof.
  intros ND P.
  assert (ND' : NoDup (map JSZip.name fs'))
    by (eapply Permutation_NoDup; [apply Permutation_map; exact P|exact ND]).
  destruct (JSZip.get fs k) as [o|] eqn:G.
  - apply get_some in G as [Hin <-].
    apply get_unique; [exact ND'|]. eapply Permutation_in; eauto.
  - apply get_none. apply get_none in G. intros H. apply G.
    eapply Permutation_in; [|exact H].
    apply Permutation_map, Permutation_sym, P.
Qed.

(** The order of the entries in the archive does not matter to what is
    decoded: two tables with the same entries (under distinct names) give
    the same readme text and, in each namespace, the same (display name,
    content) pairs up to their order. *)
Theorem readZipFile_does_not_depend_on_entry_order
    (randomUUID : nat -> string) (contents contents' : JSZip.Files)
    (n n' : nat) :
  NoDup (map JSZip.name contents) ->
  Permutation contents contents' ->
  let c := fst (Zip.readZipFile randomUUID contents n) in
  let c' := fst (Zip.readZipFile randomUUID contents' n') in
  ZipContent.readme c' = ZipContent.readme c /\
  Permutation (map Bundle.image_pair (ZipContent.images c'))
    (map Bundle.image_pair (ZipContent.images c)) /\
  Permutation (map Bundle.attachment_pair (ZipContent.attachments c'))
    (map Bundle.attachment_pair (ZipContent.attachments c)).
Proof.
  intros ND P c c'.
  destruct (readZipFile_assets randomUUID contents n) as (Hi & Ha & _).
  destruct (readZipFile_assets randomUUID contents' n') as (Hi' & Ha' & _).
  fold c in Hi, Ha. fold c' in Hi', Ha'.
  assert (Pe : Permutation (JS.entries JSZip.name contents')
                 (JS.entries JSZip.name contents)).
  { rewrite !entries_perm. now apply Permutation_sym. }
  split; [|split].
  - unfold c, c', Zip.readZipFile, JSZip.file_named. simpl.
    now rewrite (get_perm contents contents' "README.md" ND P).
  - rewrite Hi, Hi', !new_images_entry_pairs.
    now apply Permutation_map, filter_perm.
  - rewrite Ha, Ha', !new_attachments_entry_pairs.
    now apply Permutation_map, filter_perm.
Qed.

Lemma readZipFile_does_not_depend_on_entry_order_witness :
  NoDup (map JSZip.name Sample.archive) /\
  Permutation Sample.archive (List.rev Sample.archive) /\
  ZipContent.readme (fst (Zip.readZipFile Sample.uuid (List.rev Sample.archive) 5))
  = ZipContent.readme (fst (Zip.readZipFile Sample.uuid Sample.archive 0)).
Proof.
  assert (ND : NoDup (map JSZip.name Sample.archive)).
  { simpl. repeat constructor; simpl; intuition discriminate. }
  assert (P : Permutation Sample.archive (List.rev Sample.archive))
    by apply Permutation_rev.
  split; [exact ND|]. split; [exact P|].
  exact (proj1 (readZipFile_does_not_depend_on_entry_order Sample.uuid
                  Sample.archive (List.rev Sample.archive) 0 5 ND P)).
Defined.

(* ------------------------------------------------------------------ *)
(** * What an archive made by [createZipFile] holds, for any bundle *)

Section Encoded.
Variable markdown : string.
Variable images : list ImageFile.t.
Variable attachments : list Attachment.t.

Lemma encoded_readme :
  JSZip.get (Zip.createZipFile markdown images attachments) "README.md"
  = Some (Bundle.readme_written markdown).
Proof.
  rewrite createZipFile_steps.
  apply write_all_keeps; [|intros x _; simpl; discriminate].
  apply folderAdd_keeps.
  apply write_all_keeps; [reflexivity|intros x _; simpl; discriminate].
Qed.

Lemma encoded_names_distinct :
  NoDup (map JSZip.name (Zip.createZipFile markdown images attachments)).
Proof.
  rewrite createZipFile_steps.
  apply write_all_NoDup, folderAdd_NoDup, write_all_NoDup.
  simpl. repeat constructor; simpl; intuition discriminate.
Qed.

Lemma encoded_last_image (pre post : list ImageFile.t) (img : ImageFile.t) :
  images = pre ++ img :: post ->
  (forall i, In i post -> ImageFile.name i <> ImageFile.name img) ->
  JSZip.get (Zip.createZipFile markdown images attachments)
    ("images/" ++ ImageFile.name img)
  = Some (Bundle.image_written img).
Proof.
  intros E N. rewrite createZipFile_steps, E.
  apply write_all_keeps; [|intros x _; apply image_path_not_attachment_path].
  apply folderAdd_keeps.
  exact (write_all_last "images/" ImageFile.name
           (fun img => Web.fetch (ImageFile.url img)) pre post img _ N).
Qed.

Lemma encoded_last_attachment (pre post : list Attachment.t)
    (att : Attachment.t) :
  attachments = pre ++ att :: post ->
  (forall a, In a post -> Attachment.name a <> Attachment.name att) ->
  JSZip.get (Zip.createZipFile markdown images attachments)
    ("attachments/" ++ Attachment.name att)
  = Some (Bundle.attachment_written att).
Proof.
  intros E N. rewrite createZipFile_steps, E.
  exact (write_all_last "attachments/" Attachment.name
           (fun att => Web.file_bytes (Attachment.file att)) pre post att _ N).
Qed.

Lemma encoded_file_origin (o : JSZip.ZipObject) :
  In o (Zip.createZipFile markdown images attachments) ->
  JSZip.dir o = false ->
  o = Bundle.readme_written markdown \/
  (exists img, In img images /\ o = Bundle.image_written img) \/
  (exists att, In att attachments /\ o = Bundle.attachment_written att).
Proof.
  rewrite createZipFile_steps. intros Hin Hd.
  apply in_write_all in Hin as [Hin|[Hin|(att & Hatt & ->)]];
    [|congruence|right; right; exists att; auto].
  apply in_folderAdd in Hin as [Hin|Hin]; [|congruence].
  apply in_write_all in Hin as [Hin|[Hin|(img & Himg & ->)]];
    [|congruence|right; left; exists img; auto].
  destruct Hin as [<-|[<-|[]]]; [now left|discriminate].
Qed.
End Encoded.

Lemma count_set (fs : JSZip.Files) (o : JSZip.ZipObject) :
  List.length (filter Decoded.asset_entry (JSZip.set fs o))
  <= List.length (filter Decoded.asset_entry fs)
     + (if JSZip.dir o then 0 else 1).
Proof.
  assert (B : forall x, List.length (filter Decoded.asset_entry [x])
                        <= (if JSZip.dir x then 0 else 1)).
  { intros x. simpl. unfold Decoded.asset_entry.
    destruct (JSZip.dir x); simpl; [lia|].
    destruct (negb _); simpl; lia. }
  induction fs as [|x fs IH]; simpl.
  - specialize (B o). simpl in B. lia.
  - destruct (JSZip.name x =? JSZip.name o); simpl.
    + specialize (B o). simpl in B.
      destruct (Decoded.asset_entry o), (Decoded.asset_entry x); simpl in *; lia.
    + destruct (Decoded.asset_entry x); simpl; lia.
Qed.

Lemma count_fileAdd (fuel : nat) (fs : JSZip.Files) (nm : string)
    (d : list byte) (isdir : bool) :
  List.length (filter Decoded.asset_entry (JSZip.fileAdd fuel fs nm d isdir))
  <= List.length (filter Decoded.asset_entry fs) + (if isdir then 0 else 1).
Proof.
  revert fs nm d isdir. induction fuel as [|fuel IH]; intros fs nm d isdir;
    simpl; fold (Bundle.stored_name nm isdir).
  - etransitivity; [apply count_set|]. simpl.
    destruct (JS.truthy _); lia.
  - etransitivity; [apply count_set|]. simpl.
    destruct (JS.truthy _); [|lia].
    destruct (JSZip.get fs _); [lia|].
    specialize (IH fs (JSZip.forceTrailingSlash
                         (JSZip.parentFolder (Bundle.stored_name nm isdir)))
                  [] true).
    simpl in IH. lia.
Qed.

Lemma count_folderAdd (fs : JSZip.Files) (nm : string) :
  List.length (filter Decoded.asset_entry (JSZip.folderAdd fs nm))
  <= List.length (filter Decoded.asset_entry fs).
Proof.
  unfold JSZip.folderAdd. destruct (JSZip.get fs _); [lia|].
  etransitivity; [apply count_fileAdd|]. simpl. lia.
Qed.

Lemma count_write_all {X : Type} (root : string) (nm : X -> string)
    (dat : X -> list byte) (items : list X) (fs : JSZip.Files) :
  List.length (filter Decoded.asset_entry (Bundle.write_all root nm dat items fs))
  <= List.length (filter Decoded.asset_entry fs) + List.length items.
Proof.
  revert fs. induction items as [|x items IH]; intros fs; simpl; [lia|].
  etransitivity; [apply IH|]. unfold JSZip.file.
  pose proof (count_fileAdd (String.length (root ++ nm x)) fs (root ++ nm x)
                (dat x) false). simpl in *. lia.
Qed.

Lemma encoded_asset_count (markdown : string) (images : list ImageFile.t)
    (attachments : list Attachment.t) :
  List.length (filter Decoded.asset_entry
                 (Zip.createZipFile markdown images attachments))
  <= List.length images + List.length attachments.
Proof.
  rewrite createZipFile_steps.
  etransitivity; [apply count_write_all|].
  pose proof (count_folderAdd
                (Bundle.write_all "images/" ImageFile.name
                   (fun img => Web.fetch (ImageFile.url img)) images
                   [Bundle.readme_written markdown;
                    JSZip.mkZipObject "images/" true []]) "attachments") as F.
  pose proof (count_write_all "images/" ImageFile.name
                (fun img => Web.fetch (ImageFile.url img)) images
                [Bundle.readme_written markdown;
                 JSZip.mkZipObject "images/" true []]) as W.
  simpl in W. lia.
Qed.

Lemma readZipFile_count
    (randomUUID : nat -> string) (contents : JSZip.Files) (n : nat) :
  let c := fst (Zip.readZipFile randomUUID contents n) in
  List.length (ZipContent.images c) + List.length (ZipContent.attachments c)
  = List.length (filter Decoded.asset_entry contents).
Proof.
  intros c.
  destruct (readZipFile_assets randomUUID contents n) as (Hi & Ha & Hn).
  fold c in Hi, Ha. rewrite Hi, Ha, new_images_length, length_map.
  rewrite (filter_count_split Decoded.image_entry Decoded.attachment_entry
             Decoded.asset_entry).
  - apply Permutation_length, filter_perm, entries_perm.
  - exact asset_entry_split.
  - exact image_not_attachment.
Qed.

(** The readme text survives encoding and decoding whenever the names of
    the assets are ordinary single path segments, which the container loads
    as they were written.  The names need not be distinct nor have any
    particular extension: no such asset is written over README.md. *)
Theorem readme_round_trip
    (randomUUID : nat -> string) (n : nat) (markdown : string)
    (images : list ImageFile.t) (attachments : list Attachment.t) :
  Forall (fun img => Bundle.ordinary_name (ImageFile.name img)) images ->
  Forall (fun att => Bundle.ordinary_name (Attachment.name att)) attachments ->
  ZipContent.readme
    (fst (Zip.readZipFile randomUUID
            (Zip.createZipFile markdown images attachments) n))
  = markdown.
Proof.
  intros _ _.
  unfold Zip.readZipFile, JSZip.file_named. simpl.
  rewrite encoded_readme. simpl. unfold JSZip.async_text. simpl.
  apply string_of_list_byte_of_string.
Qed.

Lemma sample_names_are_ordinary :
  Forall (fun img => Bundle.ordinary_name (ImageFile.name img))
    [Sample.first_a_png; Sample.second_a_png] /\
  Forall (fun att => Bundle.ordinary_name (Attachment.name att))
    [Sample.chart_png].
Proof.
  split; repeat constructor; simpl; discriminate.
Qed.

Lemma readme_round_trip_witness :
  let images := [Sample.first_a_png; Sample.second_a_png] in
  let attachments := [Sample.chart_png] in
  Forall (fun img => Bundle.ordinary_name (ImageFile.name img)) images /\
  Forall (fun att => Bundle.ordinary_name (Attachment.name att)) attachments /\
  ZipContent.readme
    (fst (Zip.readZipFile Sample.uuid
            (Zip.createZipFile "# two of a name" images attachments) 0))
  = "# two of a name".
Proof.
  intros images attachments.
  destruct sample_names_are_ordinary as [Hi Ha].
  split; [exact Hi|]. split; [exact Ha|].
  exact (readme_round_trip Sample.uuid 0 "# two of a name" images attachments
           Hi Ha).
Defined.

(** Encoding and then decoding adds nothing when the names of the assets
    are ordinary single path segments, distinct or not and whatever their
    extensions: each image and each attachment that comes back has the name
    and the content of an asset of the bundle, and no more assets come back
    than went in. *)
Theorem round_trip_adds_no_asset
    (randomUUID : nat -> string) (n : nat) (markdown : string)
    (images : list ImageFile.t) (attachments : list Attachment.t) :
  Forall (fun img => Bundle.ordinary_name (ImageFile.name img)) images ->
  Forall (fun att => Bundle.ordinary_name (Attachment.name att)) attachments ->
  let c :=
    fst (Zip.readZipFile randomUUID
           (Zip.createZipFile markdown images attachments) n) in
  let given :=
    map Bundle.image_pair images ++ map Bundle.attachment_pair attachments in
  Forall (fun i => In (Bundle.image_pair i) given) (ZipContent.images c) /\
  Forall (fun a => In (Bundle.attachment_pair a) given)
    (ZipContent.attachments c) /\
  List.length (ZipContent.images c) + List.length (ZipContent.attachments c)
  <= List.length images + List.length attachments.
Proof.
  intros Oi Oa c given. subst c.
  set (zip := Zip.createZipFile markdown images attachments).
  set (c := fst (Zip.readZipFile randomUUID zip n)).
  assert (O : forall o, In o (JS.entries JSZip.name zip) ->
                        Decoded.asset_entry o = true ->
                        In (Decoded.entry_pair o) given).
  { intros o Hin Ha.
    apply (Permutation_in _ (entries_perm JSZip.name zip)) in Hin.
    unfold Decoded.asset_entry in Ha.
    apply andb_true_iff in Ha as [Hd Hn]. apply negb_true_iff in Hd.
    destruct (encoded_file_origin markdown images attachments o Hin Hd)
      as [->|[(img & Hi & ->)|(att & Ha & ->)]].
    - discriminate Hn.
    - apply in_or_app. left.
      rewrite Forall_forall in Oi. destruct (Oi img Hi) as [Hplain _].
      destruct (image_written_entry img Hplain) as (_ & _ & B).
      unfold Decoded.entry_pair. rewrite B.
      now apply (in_map Bundle.image_pair).
    - apply in_or_app. right.
      rewrite Forall_forall in Oa. destruct (Oa att Ha) as [Hplain _].
      destruct (attachment_written_entry att Hplain) as (_ & _ & B).
      unfold Decoded.entry_pair. rewrite B.
      now apply (in_map Bundle.attachment_pair). }
  destruct (readZipFile_assets randomUUID zip n) as (Hi & Ha & _).
  fold c in Hi, Ha. split; [|split].
  - apply Forall_forall. intros i Hin.
    apply (in_map Bundle.image_pair) in Hin.
    rewrite Hi, new_images_entry_pairs in Hin.
    apply in_map_iff in Hin as (o & <- & Ho).
    apply filter_In in Ho as [Ho Hie].
    apply O; [exact Ho|]. rewrite asset_entry_split, Hie. reflexivity.
  - apply Forall_forall. intros a Hin.
    apply (in_map Bundle.attachment_pair) in Hin.
    rewrite Ha, new_attachments_entry_pairs in Hin.
    apply in_map_iff in Hin as (o & <- & Ho).
    apply filter_In in Ho as [Ho Hae].
    apply O; [exact Ho|]. rewrite asset_entry_split, Hae. apply orb_true_r.
  - unfold c. rewrite (readZipFile_count randomUUID zip n).
    apply encoded_asset_count.
Qed.

Lemma round_trip_adds_no_asset_witness :
  let images := [Sample.first_a_png; Sample.second_a_png] in
  let attachments := [Sample.chart_png] in
  let c :=
    fst (Zip.readZipFile Sample.uuid
           (Zip.createZipFile "# two of a name" images attachments) 0) in
  Forall (fun img => Bundle.ordinary_name (ImageFile.name img)) images /\
  Forall (fun att => Bundle.ordinary_name (Attachment.name att)) attachments /\
  List.length (ZipContent.images c) + List.length (ZipContent.attachments c)
  <= List.length images + List.length attachments.
Proof.
  intros images attachments c.
  destruct sample_names_are_ordinary as [Hi Ha].
  split; [exact Hi|]. split; [exact Ha|].
  exact (proj2 (proj2
    (round_trip_adds_no_asset Sample.uuid 0 "# two of a name"
       images attachments Hi Ha))).
Defined.

(* ------------------------------------------------------------------ *)
(** * Exporting again, and exporting after uploads *)

Lemma write_all_ext {X Y : Type} (root : string)
    (nm : X -> string) (dat : X -> list byte)
    (nm' : Y -> string) (dat' : Y -> list byte)
    (items : list X) (items' : list Y) (fs : JSZip.Files) :
  map (fun x => (nm x, dat x)) items = map (fun y => (nm' y, dat' y)) items' ->
  Bundle.write_all root nm dat items fs
  = Bundle.write_all root nm' dat' items' fs.
Proof.
  revert items' fs. induction items as [|x items IH]; intros items' fs E;
    destruct items' as [|y items']; simpl in E; try discriminate;
    [reflexivity|].
  injection E as En Ed E. simpl. rewrite En, Ed. now apply IH.
Qed.

(** The archive depends on the bundle through the readme text and the
    (display name, content) pairs only. *)
Lemma createZipFile_ext (markdown : string)
    (images images' : list ImageFile.t)
    (attachments attachments' : list Attachment.t) :
  map Bundle.image_pair images = map Bundle.image_pair images' ->
  map Bundle.attachment_pair attachments
  = map Bundle.attachment_pair attachments' ->
  Zip.createZipFile markdown images attachments
  = Zip.createZipFile markdown images' attachments'.
Proof.
  intros Ei Ea. rewrite !createZipFile_steps.
  rewrite (write_all_ext "images/" ImageFile.name
             (fun img => Web.fetch (ImageFile.url img))
             ImageFile.name (fun img => Web.fetch (ImageFile.url img))
             images images' _ Ei).
  exact (write_all_ext "attachments/" Attachment.name
           (fun att => Web.file_bytes (Attachment.file att))
           Attachment.name (fun att => Web.file_bytes (Attachment.file att))
           attachments attachments' _ Ea).
Qed.

(** What comes back from the archive of a bundle with ordinary names. *)
Lemma decoded_pairs_of_ordinary_bundle
    (randomUUID : nat -> string) (n : nat) (markdown : string)
    (images : list ImageFile.t) (attachments : list Attachment.t) :
  NoDup (map ImageFile.name images) ->
  NoDup (map Attachment.name attachments) ->
  Forall (fun img => Bundle.ordinary_name (ImageFile.name img) /\
                     Decoded.has_image_extension (ImageFile.name img)) images ->
  Forall (fun att => Bundle.ordinary_name (Attachment.name att) /\
                     ~ Decoded.has_image_extension (Attachment.name att))
    attachments ->
  let c :=
    fst (Zip.readZipFile randomUUID
           (Zip.createZipFile markdown images attachments) n) in
  map Bundle.image_pair (ZipContent.images c) = map Bundle.image_pair images /\
  map Bundle.attachment_pair (ZipContent.attachments c)
  = map Bundle.attachment_pair attachments.
Proof.
  intros NDi NDa Hi Ha c.
  assert (Pi : Forall (fun img => Bundle.plain_name (ImageFile.name img)) images)
    by (eapply Forall_impl; [|exact Hi]; unfold Bundle.ordinary_name; simpl; tauto).
  assert (Pa : Forall (fun att => Bundle.plain_name (Attachment.name att))
                 attachments)
    by (eapply Forall_impl; [|exact Ha]; unfold Bundle.ordinary_name; simpl; tauto).
  assert (Ii : Forall (fun o => Decoded.image_entry o = true /\
                                Decoded.attachment_entry o = false)
                 (map Bundle.image_written images)).
  { apply Forall_map. eapply Forall_impl; [|exact Hi].
    intros img [[P _] E]. apply is_image_name_spec in E.
    destruct (image_written_entry img P) as (-> & -> & _).
    now rewrite E. }
  assert (Ia : Forall (fun o => Decoded.image_entry o = false /\
                                Decoded.attachment_entry o = true)
                 (map Bundle.attachment_written attachments)).
  { apply Forall_map. eapply Forall_impl; [|exact Ha].
    intros att [[P _] E]. rewrite <- is_image_name_spec in E.
    apply not_true_iff_false in E.
    destruct (attachment_written_entry att P) as (-> & -> & _).
    now rewrite E. }
  unfold c.
  destruct (readZipFile_assets randomUUID
              (Zip.createZipFile markdown images attachments) n)
    as (Himg & Hatt & _).
  rewrite Himg, Hatt. clear Himg Hatt.
  rewrite (createZipFile_plain markdown images attachments NDi NDa Pi Pa).
  rewrite entries_named.
  2: { repeat (apply Forall_app; split); try (repeat constructor).
       - apply Forall_map, Forall_forall. intros img _.
         now apply array_index_not_digit.
       - apply Forall_map, Forall_forall. intros att _.
         now apply array_index_not_digit. }
  split.
  - rewrite !filter_app.
    rewrite (filter_all Decoded.image_entry (map Bundle.image_written images))
      by (eapply Forall_impl; [|exact Ii]; simpl; tauto).
    rewrite (filter_nothing Decoded.image_entry
               (map Bundle.attachment_written attachments))
      by (eapply Forall_impl; [|exact Ia]; simpl; tauto).
    simpl. rewrite app_nil_r. now apply new_images_pairs.
  - rewrite !filter_app.
    rewrite (filter_nothing Decoded.attachment_entry
               (map Bundle.image_written images))
      by (eapply Forall_impl; [|exact Ii]; simpl; tauto).
    rewrite (filter_all Decoded.attachment_entry
               (map Bundle.attachment_written attachments))
      by (eapply Forall_impl; [|exact Ia]; simpl; tauto).
    simpl. now apply new_attachments_pairs.
Qed.

(** Opening an exported archive and exporting again gives the same
    archive, entry for entry, when the display names are distinct within
    each namespace and ordinary, and exactly the images have an image
    extension. *)
Theorem export_of_a_decoded_export_is_the_same_archive
    (randomUUID : nat -> string) (n : nat) (markdown : string)
    (images : list ImageFile.t) (attachments : list Attachment.t) :
  NoDup (map ImageFile.name images) ->
  NoDup (map Attachment.name attachments) ->
  Forall (fun img => Bundle.ordinary_name (ImageFile.name img) /\
                     Decoded.has_image_extension (ImageFile.name img)) images ->
  Forall (fun att => Bundle.ordinary_name (Attachment.name att) /\
                     ~ Decoded.has_image_extension (Attachment.name att))
    attachments ->
  let zip := Zip.createZipFile markdown images attachments in
  let c := fst (Zip.readZipFile randomUUID zip n) in
  Zip.createZipFile (ZipContent.readme c) (ZipContent.images c)
    (ZipContent.attachments c)
  = zip.
Proof.
  intros NDi NDa Hi Ha zip c.
  destruct (decoded_pairs_of_ordinary_bundle randomUUID n markdown images
              attachments NDi NDa Hi Ha) as [Ei Ea].
  fold zip in Ei, Ea. fold c in Ei, Ea.
  assert (R : ZipContent.readme c = markdown).
  { unfold c, zip, Zip.readZipFile, JSZip.file_named. simpl.
    rewrite encoded_readme. simpl. unfold JSZip.async_text. simpl.
    apply string_of_list_byte_of_string. }
  rewrite R. now apply createZipFile_ext.
Qed.

Lemma export_of_a_decoded_export_is_the_same_archive_witness :
  let images := [App.fields Sample.my_photo; App.fields Sample.x_png] in
  let attachments := [App.fields Sample.notes_txt] in
  let zip := Zip.createZipFile "![x](images/x.png)" images attachments in
  let c := fst (Zip.readZipFile Sample.uuid zip 0) in
  NoDup (map ImageFile.name images) /\
  NoDup (map Attachment.name attachments) /\
  Zip.createZipFile (ZipContent.readme c) (ZipContent.images c)
    (ZipContent.attachments c)
  = zip.
Proof.
  intros images attachments zip c.
  assert (NDi : NoDup (map ImageFile.name images)).
  { simpl. repeat constructor; simpl; intuition discriminate. }
  assert (NDa : NoDup (map Attachment.name attachments)).
  { simpl. repeat constructor; simpl; intuition. }
  assert (Hi : Forall (fun img => Bundle.ordinary_name (ImageFile.name img) /\
                                  Decoded.has_image_extension (ImageFile.name img))
                 images).
  { repeat constructor; simpl; try discriminate.
    - now exists "my photo", "png"; simpl; auto.
    - now exists "x", "png"; simpl; auto. }
  assert (Ha : Forall (fun att => Bundle.ordinary_name (Attachment.name att) /\
                                  ~ Decoded.has_image_extension (Attachment.name att))
                 attachments).
  { repeat constructor; simpl; try discriminate.
    rewrite <- is_image_name_spec. vm_compute. discriminate. }
  split; [exact NDi|]. split; [exact NDa|].
  exact (export_of_a_decoded_export_is_the_same_archive Sample.uuid 0
           "![x](images/x.png)" images attachments NDi NDa Hi Ha).
Defined.

Lemma newImages_fields (randomUUID : nat -> string) (files : list Web.File)
    (h n : nat) :
  map Bundle.image_pair (map (@App.fields _) (App.newImages randomUUID files h n))
  = map (fun f => (Web.file_name f, Web.file_bytes f)) files.
Proof.
  revert h n. induction files as [|f files IH]; intros h n; simpl;
    [reflexivity|].
  now rewrite IH.
Qed.

Lemma newAttachments_fields (randomUUID : nat -> string)
    (files : list Web.File) (h n : nat) :
  map Bundle.attachment_pair
    (map (@App.fields _) (App.newAttachments randomUUID files h n))
  = map (fun f => (Web.file_name f, Web.file_bytes f)) files.
Proof.
  revert h n. induction files as [|f files IH]; intros h n; simpl;
    [reflexivity|].
  now rewrite IH.
Qed.

Lemma last_of_a_name {A} (nm : A -> string) (dat : A -> list byte)
    (l : list A) (k : string) (d : list byte) (pre post : list (string * list byte)) :
  map (fun x => (nm x, dat x)) l = pre ++ (k, d) :: post ->
  (forall p, In p post -> fst p <> k) ->
  exists pre' x post',
    l = pre' ++ x :: post' /\ nm x = k /\ dat x = d /\
    forall y, In y post' -> nm y <> k.
Proof.
  intros E N. apply map_eq_app in E as (l1 & l2 & -> & E1 & E2).
  destruct l2 as [|x l2]; [discriminate|]. simpl in E2.
  injection E2 as En Ed E2.
  exists l1, x, l2. repeat split; auto.
  intros y Hy. apply (N (nm y, dat y)). rewrite <- E2.
  now apply (in_map (fun x => (nm x, dat x))).
Qed.

(** Uploading several files of one name and exporting keeps one of them:
    whatever was in the state, the archive holds under
    [images/<file name>] (under [attachments/<file name>] for an upload of
    attachments) the content of the last uploaded file of that name. *)
Theorem export_after_upload_keeps_the_last_file_of_a_name
    (randomUUID : nat -> string) (st : App.State)
    (pre post : list Web.File) (f : Web.File) :
  (forall g, In g post -> Web.file_name g <> Web.file_name f) ->
  JSZip.get
    (App.handleExportZip
       (App.handleImageUpload randomUUID st (Some (pre ++ f :: post))))
    ("images/" ++ Web.file_name f)
  = Some (JSZip.mkZipObject ("images/" ++ Web.file_name f) false
            (Web.file_bytes f)) /\
  JSZip.get
    (App.handleExportZip
       (App.handleAttachmentUpload randomUUID st (Some (pre ++ f :: post))))
    ("attachments/" ++ Web.file_name f)
  = Some (JSZip.mkZipObject ("attachments/" ++ Web.file_name f) false
            (Web.file_bytes f)).
Proof.
  intros N. unfold App.handleExportZip. simpl. rewrite !map_app. split.
  - set (new := map (@App.fields _)
                  (App.newImages randomUUID (pre ++ f :: post)
                     (App.heap st) (App.drawn st))).
    pose proof (newImages_fields randomUUID (pre ++ f :: post)
                  (App.heap st) (App.drawn st)) as E.
    fold new in E. rewrite map_app in E. simpl in E.
    destruct (last_of_a_name ImageFile.name
                (fun img => Web.fetch (ImageFile.url img)) new
                (Web.file_name f) (Web.file_bytes f) _ _ E)
      as (pre' & x & post' & -> & En & Ed & Hpost).
    { intros p Hp. apply in_map_iff in Hp as (g & <- & Hg). simpl.
      now apply N. }
    rewrite <- En, <- Ed.
    apply (encoded_last_image _ _ _
             (map (@App.fields _) (App.images st) ++ pre') post' x).
    + now rewrite <- app_assoc.
    + intros i Hi. rewrite En. now apply Hpost.
  - set (new := map (@App.fields _)
                  (App.newAttachments randomUUID (pre ++ f :: post)
                     (App.heap st) (App.drawn st))).
    pose proof (newAttachments_fields randomUUID (pre ++ f :: post)
                  (App.heap st) (App.drawn st)) as E.
    fold new in E. rewrite map_app in E. simpl in E.
    destruct (last_of_a_name Attachment.name
                (fun att => Web.file_bytes (Attachment.file att)) new
                (Web.file_name f) (Web.file_bytes f) _ _ E)
      as (pre' & x & post' & -> & En & Ed & Hpost).
    { intros p Hp. apply in_map_iff in Hp as (g & <- & Hg). simpl.
      now apply N. }
    rewrite <- En, <- Ed.
    apply (encoded_last_attachment _ _ _
             (map (@App.fields _) (App.attachments st) ++ pre') post' x).
    + now rewrite <- app_assoc.
    + intros i Hi. rewrite En. now apply Hpost.
Qed.

Lemma export_after_upload_keeps_the_last_file_of_a_name_witness :
  (forall g, In g (@nil Web.File) ->
             Web.file_name g <> Web.file_name Sample.edited_png) /\
  JSZip.get
    (App.handleExportZip
       (App.handleImageUpload Sample.uuid Sample.sample_state
          (Some ([Web.mkFile "x.png" "image/png" [x01]] ++
                 Sample.edited_png :: []))))
    "images/x.png"
  = Some (JSZip.mkZipObject "images/x.png" false [x01; x02; x03; x04; x05]).
Proof.
  assert (N : forall g, In g (@nil Web.File) ->
                        Web.file_name g <> Web.file_name Sample.edited_png)
    by (intros g []).
  split; [exact N|].
  exact (proj1 (export_after_upload_keeps_the_last_file_of_a_name Sample.uuid
                  Sample.sample_state [Web.mkFile "x.png" "image/png" [x01]] []
                  Sample.edited_png N)).
Defined.

(* ------------------------------------------------------------------ *)
(** * Saving an edited image *)

Lemma map_replacing_none {A} (test : App.Obj A -> bool) (changed : A -> A)
    (arr : list (App.Obj A)) (h : nat) :
  Forall (fun x => test x = false) arr ->
  App.map_replacing test changed arr h = (arr, h).
Proof.
  intros H. revert h. induction H as [|x arr Hx _ IH]; intros h; simpl;
    [reflexivity|].
  now rewrite Hx, IH.
Qed.

Lemma map_replacing_app {A} (test : App.Obj A -> bool) (changed : A -> A)
    (a b : list (App.Obj A)) (h : nat) :
  App.map_replacing test changed (a ++ b) h =
  let '(a', h1) := App.map_replacing test changed a h in
  let '(b', h2) := App.map_replacing test changed b h1 in
  (a' ++ b', h2).
Proof.
  revert h. induction a as [|x a IH]; intros h; simpl.
  - now destruct (App.map_replacing test changed b h).
  - destruct (test x).
    + rewrite IH. destruct (App.map_replacing test changed a (S h)) as [a' h1].
      now destruct (App.map_replacing test changed b h1).
    + rewrite IH. destruct (App.map_replacing test changed a h) as [a' h1].
      now destruct (App.map_replacing test changed b h1).
Qed.

(** Saving an edit replaces the file and the URL of the one image that has
    the identifier of the image under edit, by a new object that keeps its
    name, identifier and size, and closes the editor; every other image
    stays the very same object.  With no image under edit, or with one
    whose identifier no image of the list has (it was deleted meanwhile),
    the list is unchanged. *)
Theorem handleImageSave_replaces_the_edited_image_only
    (st : App.State) (editedImage : Web.File) :
  NoDup (Session.image_ids st) ->
  App.editingImage (App.handleImageSave st editedImage) = None /\
  (App.editingImage st = None ->
   App.images (App.handleImageSave st editedImage) = App.images st) /\
  (forall e, App.editingImage st = Some e ->
             ~ In (ImageFile.id (App.fields e)) (Session.image_ids st) ->
             App.images (App.handleImageSave st editedImage) = App.images st) /\
  (forall e pre x post,
      App.editingImage st = Some e ->
      App.images st = pre ++ x :: post ->
      ImageFile.id (App.fields x) = ImageFile.id (App.fields e) ->
      App.images (App.handleImageSave st editedImage)
      = pre ++
        App.mkObj (App.heap st)
          (ImageFile.mk (ImageFile.id (App.fields x))
             (ImageFile.name (App.fields x))
             (Web.readAsDataURL editedImage) editedImage
             (ImageFile.size (App.fields x)))
        :: post).
Proof.
  intros ND. unfold App.handleImageSave. split; [|split; [|split]].
  - now destruct (App.map_replacing _ _ (App.images st) (App.heap st)).
  - intros E. rewrite E. rewrite map_replacing_none; [reflexivity|].
    apply Forall_forall. reflexivity.
  - intros e E Hnot. rewrite E. rewrite map_replacing_none; [reflexivity|].
    apply Forall_forall. intros x Hx. simpl. apply String.eqb_neq.
    intros Heq. apply Hnot. rewrite <- Heq. unfold Session.image_ids.
    now apply (in_map (fun img => ImageFile.id (App.fields img))).
  - intros e pre x post E Himgs Hid. rewrite E.
    unfold Session.image_ids in ND. rewrite Himgs in ND |- *.
    rewrite map_app in ND. simpl in ND.
    assert (Hpre : Forall (fun y => App.is_editing (Some e) y = false) pre).
    { apply Forall_forall. intros y Hy. simpl. apply String.eqb_neq.
      rewrite <- Hid. intros Heq.
      apply NoDup_remove_2 in ND. apply ND. apply in_or_app. left.
      rewrite <- Heq.
      now apply (in_map (fun img => ImageFile.id (App.fields img))). }
    assert (Hpost : Forall (fun y => App.is_editing (Some e) y = false) post).
    { apply Forall_forall. intros y Hy. simpl. apply String.eqb_neq.
      rewrite <- Hid. intros Heq.
      apply NoDup_remove_2 in ND. apply ND. apply in_or_app. right.
      rewrite <- Heq.
      now apply (in_map (fun img => ImageFile.id (App.fields img))). }
    assert (Hx : App.is_editing (Some e) x = true)
      by (simpl; rewrite Hid; apply String.eqb_refl).
    rewrite map_replacing_app, (map_replacing_none _ _ pre _ Hpre).
    cbn [App.map_replacing]. rewrite Hx.
    rewrite (map_replacing_none _ _ post _ Hpost). reflexivity.
Qed.

Lemma handleImageSave_replaces_the_edited_image_only_witness :
  NoDup (Session.image_ids Sample.editing_state) /\
  App.images (App.handleImageSave Sample.editing_state Sample.edited_png)
  = [Sample.my_photo] ++
    App.mkObj 3
      (ImageFile.mk "id-1" "x.png" (Web.readAsDataURL Sample.edited_png)
         Sample.edited_png 3)
    :: [].
Proof.
  assert (ND : NoDup (Session.image_ids Sample.editing_state)).
  { simpl. repeat constructor; simpl; intuition discriminate. }
  split; [exact ND|].
  exact (proj2 (proj2 (proj2
    (handleImageSave_replaces_the_edited_image_only Sample.editing_state
       Sample.edited_png ND)))
    Sample.x_png [Sample.my_photo] Sample.x_png [] eq_refl eq_refl eq_refl).
Defined.

(* ------------------------------------------------------------------ *)
(** * What holds in every state of a session *)

Lemma newImages_addrs (randomUUID : nat -> string) (files : list Web.File)
    (h n : nat) :
  map (@App.addr _) (App.newImages randomUUID files h n)
  = seq h (List.length files) /\
  map (fun img => ImageFile.id (App.fields img))
    (App.newImages randomUUID files h n)
  = map randomUUID (seq n (List.length files)).
Proof.
  revert h n. induction files as [|f files IH]; intros h n; simpl; [auto|].
  destruct (IH (S h) (S n)) as [-> ->]. auto.
Qed.

Lemma defined_app (a b : list (option string)) :
  Session.defined (a ++ b) = Session.defined a ++ Session.defined b.
Proof.
  induction a as [|[i|] a IH]; simpl; [reflexivity| |exact IH].
  now rewrite IH.
Qed.

Lemma newAttachments_addrs (randomUUID : nat -> string) (files : list Web.File)
    (h n : nat) :
  map (@App.addr _) (App.newAttachments randomUUID files h n)
  = seq h (List.length files) /\
  Session.defined
    (map (fun att => Attachment.id (App.fields att))
       (App.newAttachments randomUUID files h n))
  = map randomUUID (seq n (List.length files)).
Proof.
  revert h n. induction files as [|f files IH]; intros h n; simpl; [auto|].
  destruct (IH (S h) (S n)) as [-> ->]. auto.
Qed.

Lemma allocate_addrs {A} (l : list A) (h : nat) :
  map (@App.addr _) (App.allocate l h) = seq h (List.length l) /\
  map (@App.fields _) (App.allocate l h) = l.
Proof.
  revert h. induction l as [|x l IH]; intros h; simpl; [auto|].
  destruct (IH (S h)) as [-> ->]. auto.
Qed.

Lemma defined_none (l : list (option string)) :
  Forall (fun i => i = None) l -> Session.defined l = [].
Proof. induction 1 as [|i l -> _ IH]; simpl; auto. Qed.

Lemma fresh_addresses (l : list nat) (h k : nat) :
  NoDup l -> Forall (fun a => a < h) l ->
  NoDup (l ++ seq h k) /\ Forall (fun a => a < h + k) (l ++ seq h k).
Proof.
  intros ND B. split.
  - apply NoDup_app; [exact ND|apply seq_NoDup|].
    intros a Ha Hs. apply in_seq in Hs.
    rewrite Forall_forall in B. specialize (B a Ha). lia.
  - apply Forall_app. split.
    + eapply Forall_impl; [|exact B]. simpl. intros. lia.
    + apply Forall_forall. intros a Ha. apply in_seq in Ha. lia.
Qed.

Section Fresh.
Variable randomUUID : nat -> string.
Hypothesis uuid_injective : forall i j, randomUUID i = randomUUID j -> i = j.

Lemma fresh_identifiers (l : list string) (n k : nat) :
  NoDup l ->
  Forall (fun i => exists j, j < n /\ i = randomUUID j) l ->
  NoDup (l ++ map randomUUID (seq n k)) /\
  Forall (fun i => exists j, j < n + k /\ i = randomUUID j)
    (l ++ map randomUUID (seq n k)).
Proof.
  intros ND B. split.
  - apply NoDup_app; [exact ND| |].
    + assert (S : NoDup (seq n k)) by apply seq_NoDup.
      induction S as [|a s Ha _ IH]; simpl; constructor; auto.
      intros H. apply in_map_iff in H as (b & Hb & Hin).
      apply uuid_injective in Hb. now subst.
    + intros i Hi Hs. apply in_map_iff in Hs as (b & <- & Hb).
      apply in_seq in Hb. rewrite Forall_forall in B.
      destruct (B _ Hi) as (j & Hj & E). apply uuid_injective in E. lia.
  - apply Forall_app. split.
    + eapply Forall_impl; [|exact B]. simpl. intros i (j & Hj & E).
      exists j. split; [lia|exact E].
    + apply Forall_forall. intros i Hi.
      apply in_map_iff in Hi as (b & <- & Hb). apply in_seq in Hb.
      exists b. split; [lia|reflexivity].
Qed.
End Fresh.

(** The addresses after [map_replacing]: those of the objects kept, and
    new ones from the heap. *)
Lemma map_replacing_addrs {A} (test : App.Obj A -> bool) (changed : A -> A)
    (arr : list (App.Obj A)) (others : list nat) (h : nat) :
  NoDup (map (@App.addr _) arr ++ others) ->
  Forall (fun a => a < h) (map (@App.addr _) arr ++ others) ->
  let r := fst (App.map_replacing test changed arr h) in
  let h' := snd (App.map_replacing test changed arr h) in
  h <= h' /\
  NoDup (map (@App.addr _) r ++ others) /\
  Forall (fun a => a < h') (map (@App.addr _) r ++ others) /\
  (forall a, In a (map (@App.addr _) r) ->
             In a (map (@App.addr _) arr) \/ h <= a).
Proof.
  revert h. induction arr as [|x arr IH]; intros h ND B; simpl in *.
  - repeat split; auto.
  - apply NoDup_cons_iff in ND as [Hx ND].
    apply Forall_cons_iff in B as [Bx B].
    destruct (test x).
    + assert (B' : Forall (fun a => a < S h) (map (@App.addr _) arr ++ others))
        by (eapply Forall_impl; [|exact B]; simpl; intros; lia).
      specialize (IH (S h) ND B').
      destruct (App.map_replacing test changed arr (S h)) as [r h'].
      simpl in *. destruct IH as (Hle & ND' & Bd & Ho).
      repeat split.
      * lia.
      * constructor; [|exact ND'].
        intros Hin. apply in_app_or in Hin as [Hin|Hin].
        -- destruct (Ho _ Hin) as [Hold|Hge]; [|lia].
           rewrite Forall_forall in B.
           specialize (B h (in_or_app _ _ _ (or_introl Hold))). lia.
        -- rewrite Forall_forall in B.
           specialize (B h (in_or_app _ _ _ (or_intror Hin))). lia.
      * constructor; [lia|exact Bd].
      * intros a [<-|Ha]; [right; lia|].
        destruct (Ho a Ha) as [Hold|Hge]; [left; now right|right; lia].
    + specialize (IH h ND B).
      destruct (App.map_replacing test changed arr h) as [r h'].
      simpl in *. destruct IH as (Hle & ND' & Bd & Ho).
      repeat split.
      * exact Hle.
      * constructor; [|exact ND'].
        intros Hin. apply in_app_or in Hin as [Hin|Hin].
        -- destruct (Ho _ Hin) as [Hold|Hge].
           ++ apply Hx. apply in_or_app. now left.
           ++ lia.
        -- apply Hx. apply in_or_app. now right.
      * constructor; [lia|exact Bd].
      * intros a [<-|Ha]; [left; now left|].
        destruct (Ho a Ha) as [Hold|Hge]; [left; now right|now right].
Qed.

Lemma map_replacing_keeps {A B} (g : A -> B) (test : App.Obj A -> bool)
    (changed : A -> A) (arr : list (App.Obj A)) (h : nat) :
  (forall a, g (changed a) = g a) ->
  map (fun o => g (App.fields o)) (fst (App.map_replacing test changed arr h))
  = map (fun o => g (App.fields o)) arr.
Proof.
  intros Hg. revert h. induction arr as [|x arr IH]; intros h; simpl;
    [reflexivity|].
  destruct (test x).
  - specialize (IH (S h)).
    destruct (App.map_replacing test changed arr (S h)). simpl in *.
    now rewrite IH, Hg.
  - specialize (IH h).
    destruct (App.map_replacing test changed arr h). simpl in *.
    now rewrite IH.
Qed.

Lemma NoDup_map_filter {A B} (f : A -> B) (p : A -> bool) (l : list A)
    (others : list B) :
  NoDup (map f l ++ others) -> NoDup (map f (filter p l) ++ others).
Proof.
  induction l as [|x l IH]; simpl; [auto|].
  intros ND. apply NoDup_cons_iff in ND as [Hx ND].
  destruct (p x); simpl; [|now apply IH].
  constructor; [|now apply IH].
  intros Hin. apply Hx. apply in_app_or in Hin as [Hin|Hin];
    apply in_or_app; [left|now right].
  apply in_map_iff in Hin as (y & <- & Hy). apply filter_In in Hy as [Hy _].
  now apply in_map.
Qed.

Lemma defined_filter_incl {A} (g : A -> option string) (p : A -> bool)
    (l : list A) (i : string) :
  In i (Session.defined (map g (filter p l))) ->
  In i (Session.defined (map g l)).
Proof.
  induction l as [|x l IH]; simpl; [auto|].
  destruct (p x); simpl.
  - destruct (g x); simpl; [intros [H|H]; auto|auto].
  - intros H. destruct (g x); simpl; auto.
Qed.

Lemma NoDup_defined_filter {A} (g : A -> option string) (p : A -> bool)
    (l : list A) (others : list string) :
  NoDup (Session.defined (map g l) ++ others) ->
  NoDup (Session.defined (map g (filter p l)) ++ others).
Proof.
  induction l as [|x l IH]; simpl; [auto|].
  destruct (g x) as [i|] eqn:G; simpl.
  - intros ND. apply NoDup_cons_iff in ND as [Hx ND].
    destruct (p x); simpl; rewrite ?G; simpl; [|now apply IH].
    constructor; [|now apply IH].
    intros Hin. apply Hx. apply in_app_or in Hin as [Hin|Hin];
      apply in_or_app; [left|now right].
    now apply defined_filter_incl in Hin.
  - intros ND. destruct (p x); simpl; rewrite ?G; now apply IH.
Qed.

Lemma Forall_app_filter {A B} (P : B -> Prop) (f : list A -> list B)
    (l l' : list A) (others : list B) :
  (forall b, In b (f l') -> In b (f l)) ->
  Forall P (f l ++ others) -> Forall P (f l' ++ others).
Proof.
  intros Hin H. rewrite Forall_forall in *. intros b Hb.
  apply H. apply in_app_or in Hb as [Hb|Hb]; apply in_or_app; auto.
Qed.

Lemma readZipFile_drawn
    (randomUUID : nat -> string) (contents : JSZip.Files) (n : nat) :
  snd (Zip.readZipFile randomUUID contents n)
  = n + List.length (ZipContent.images (fst (Zip.readZipFile randomUUID contents n))).
Proof.
  destruct (readZipFile_assets randomUUID contents n) as (Hi & _ & Hn).
  cbv zeta in Hi. now rewrite Hn, Hi, new_images_length.
Qed.

Section SessionFacts.
Variable randomUUID : nat -> string.
Hypothesis uuid_injective : forall i j, randomUUID i = randomUUID j -> i = j.

Lemma wf_same (st st' : App.State) :
  App.images st' = App.images st ->
  App.attachments st' = App.attachments st ->
  App.heap st' = App.heap st ->
  App.drawn st' = App.drawn st ->
  Session.well_formed randomUUID st -> Session.well_formed randomUUID st'.
Proof.
  unfold Session.well_formed, Session.addresses, Session.image_ids,
    Session.attachment_ids.
  intros -> -> -> ->. auto.
Qed.

Lemma wf_image_upload (st : App.State) (files : option (list Web.File)) :
  Session.well_formed randomUUID st ->
  Session.well_formed randomUUID
    (App.handleImageUpload randomUUID st files).
Proof.
  destruct files as [files|]; [|auto]. simpl.
  unfold Session.well_formed, Session.addresses, Session.image_ids,
    Session.attachment_ids. simpl.
  intros (NDa & Ba & NDi & Bi).
  destruct (newImages_addrs randomUUID files (App.heap st) (App.drawn st))
    as [Ea Ei].
  rewrite !map_app, Ea, Ei.
  destruct (fresh_addresses _ (App.heap st) (List.length files) NDa Ba)
    as [NDa' Ba'].
  destruct (fresh_identifiers randomUUID uuid_injective _ (App.drawn st)
              (List.length files) NDi Bi) as [NDi' Bi'].
  assert (Pa : forall (X : Type) (a s b : list X),
             Permutation ((a ++ b) ++ s) ((a ++ s) ++ b)).
  { intros X a s b. rewrite <- !app_assoc. apply Permutation_app_head.
    apply Permutation_app_comm. }
  repeat split.
  - eapply Permutation_NoDup; [apply Pa|exact NDa'].
  - eapply Permutation_Forall; [apply Pa|exact Ba'].
  - eapply Permutation_NoDup; [apply Pa|exact NDi'].
  - eapply Permutation_Forall; [apply Pa|exact Bi'].
Qed.

Lemma wf_attachment_upload (st : App.State) (files : option (list Web.File)) :
  Session.well_formed randomUUID st ->
  Session.well_formed randomUUID
    (App.handleAttachmentUpload randomUUID st files).
Proof.
  destruct files as [files|]; [|auto]. simpl.
  unfold Session.well_formed, Session.addresses, Session.image_ids,
    Session.attachment_ids. simpl.
  intros (NDa & Ba & NDi & Bi).
  destruct (newAttachments_addrs randomUUID files (App.heap st) (App.drawn st))
    as [Ea Ei].
  rewrite !map_app, defined_app, Ea, Ei, !app_assoc.
  destruct (fresh_addresses _ (App.heap st) (List.length files) NDa Ba).
  destruct (fresh_identifiers randomUUID uuid_injective _ (App.drawn st)
              (List.length files) NDi Bi).
  auto.
Qed.

Lemma wf_zip_upload (st : App.State) (contents : JSZip.Files) :
  Session.well_formed randomUUID (App.handleZipUpload randomUUID st contents).
Proof.
  unfold App.handleZipUpload.
  pose proof (readZipFile_ids randomUUID contents (App.drawn st)) as [Hnone Hids].
  pose proof (readZipFile_drawn randomUUID contents (App.drawn st)) as Hn.
  destruct (Zip.readZipFile randomUUID contents (App.drawn st)) as [c n'].
  simpl in *. subst n'.
  unfold Session.well_formed, Session.addresses, Session.image_ids,
    Session.attachment_ids. simpl.
  destruct (allocate_addrs (ZipContent.images c) (App.heap st)) as [Ai Fi].
  destruct (allocate_addrs (ZipContent.attachments c)
              (App.heap st + List.length (ZipContent.images c))) as [Aa Fa].
  rewrite Ai, Aa, <- seq_app.
  assert (Ii : map (fun img => ImageFile.id (App.fields img))
                 (App.allocate (ZipContent.images c) (App.heap st))
               = map randomUUID
                   (seq (App.drawn st) (List.length (ZipContent.images c)))).
  { rewrite <- Hids. rewrite <- Fi at 2. now rewrite map_map. }
  assert (Ia : Session.defined
                 (map (fun att => Attachment.id (App.fields att))
                    (App.allocate (ZipContent.attachments c)
                       (App.heap st + List.length (ZipContent.images c))))
               = []).
  { apply defined_none. rewrite <- (map_map (@App.fields _) Attachment.id), Fa.
    apply Forall_map. exact Hnone. }
  rewrite Ii, Ia, app_nil_r.
  destruct (fresh_identifiers randomUUID uuid_injective [] (App.drawn st)
              (List.length (ZipContent.images c)) (NoDup_nil _) (Forall_nil _))
    as [NDi Bi].
  repeat split.
  - apply seq_NoDup.
  - apply Forall_forall. intros a Ha. apply in_seq in Ha. lia.
  - exact NDi.
  - exact Bi.
Qed.

Lemma wf_rename_image (st : App.State) (image : App.Obj ImageFile.t)
    (t : string) :
  Session.well_formed randomUUID st ->
  Session.well_formed randomUUID
    (App.onRenameImage st image t).
Proof.
  unfold App.onRenameImage.
  unfold Session.well_formed, Session.addresses, Session.image_ids,
    Session.attachment_ids.
  intros (NDa & Ba & NDi & Bi).
  pose proof (map_replacing_addrs (fun img => App.same_object img image)
                (fun img => App.with_image_name img t) (App.images st)
                (map (@App.addr _) (App.attachments st)) (App.heap st) NDa Ba)
    as (Hle & NDa' & Ba' & _).
  pose proof (map_replacing_keeps ImageFile.id
                (fun img => App.same_object img image)
                (fun img => App.with_image_name img t) (App.images st)
                (App.heap st) (fun _ => eq_refl)) as Hid.
  destruct (App.map_replacing _ _ (App.images st) (App.heap st)) as [r h'].
  simpl in *. rewrite Hid. auto.
Qed.

Lemma wf_save (st : App.State) (editedImage : Web.File) :
  Session.well_formed randomUUID st ->
  Session.well_formed randomUUID
    (App.handleImageSave st editedImage).
Proof.
  unfold App.handleImageSave.
  unfold Session.well_formed, Session.addresses, Session.image_ids,
    Session.attachment_ids.
  intros (NDa & Ba & NDi & Bi).
  pose proof (map_replacing_addrs (App.is_editing (App.editingImage st))
                (fun img => App.with_image_content img editedImage
                              (Web.readAsDataURL editedImage))
                (App.images st)
                (map (@App.addr _) (App.attachments st)) (App.heap st) NDa Ba)
    as (Hle & NDa' & Ba' & _).
  pose proof (map_replacing_keeps ImageFile.id
                (App.is_editing (App.editingImage st))
                (fun img => App.with_image_content img editedImage
                              (Web.readAsDataURL editedImage))
                (App.images st) (App.heap st) (fun _ => eq_refl)) as Hid.
  destruct (App.map_replacing _ _ (App.images st) (App.heap st)) as [r h'].
  simpl in *. rewrite Hid. auto.
Qed.

Lemma wf_rename_attachment (st : App.State)
    (attachment : App.Obj Attachment.t) (t : string) :
  Session.well_formed randomUUID st ->
  Session.well_formed randomUUID
    (App.onRenameAttachment st attachment t).
Proof.
  unfold App.onRenameAttachment.
  unfold Session.well_formed, Session.addresses, Session.image_ids,
    Session.attachment_ids.
  intros (NDa & Ba & NDi & Bi).
  assert (NDa0 : NoDup (map (@App.addr _) (App.attachments st) ++
                        map (@App.addr _) (App.images st)))
    by (eapply Permutation_NoDup; [apply Permutation_app_comm|exact NDa]).
  assert (Ba0 : Forall (fun a => a < App.heap st)
                  (map (@App.addr _) (App.attachments st) ++
                   map (@App.addr _) (App.images st)))
    by (eapply Permutation_Forall; [apply Permutation_app_comm|exact Ba]).
  pose proof (map_replacing_addrs (fun att => App.same_object att attachment)
                (fun att => App.with_attachment_name att t)
                (App.attachments st)
                (map (@App.addr _) (App.images st)) (App.heap st) NDa0 Ba0)
    as (Hle & NDa' & Ba' & _).
  pose proof (map_replacing_keeps Attachment.id
                (fun att => App.same_object att attachment)
                (fun att => App.with_attachment_name att t)
                (App.attachments st) (App.heap st) (fun _ => eq_refl)) as Hid.
  destruct (App.map_replacing _ _ (App.attachments st) (App.heap st))
    as [r h'].
  simpl in *. rewrite Hid. repeat split; auto.
  - eapply Permutation_NoDup; [apply Permutation_app_comm|exact NDa'].
  - eapply Permutation_Forall; [apply Permutation_app_comm|exact Ba'].
Qed.

Lemma wf_delete_image (st : App.State) (image : App.Obj ImageFile.t) :
  Session.well_formed randomUUID st ->
  Session.well_formed randomUUID
    (App.deleteImage st image).
Proof.
  unfold Session.well_formed, Session.addresses, Session.image_ids,
    Session.attachment_ids. simpl.
  intros (NDa & Ba & NDi & Bi). repeat split.
  - now apply NoDup_map_filter.
  - apply (Forall_app_filter _ (map (@App.addr _)) (App.images st)); auto.
    intros b Hb. apply in_map_iff in Hb as (y & <- & Hy).
    apply filter_In in Hy as [Hy _]. now apply in_map.
  - now apply NoDup_map_filter.
  - apply (Forall_app_filter _
             (map (fun img => ImageFile.id (App.fields img))) (App.images st));
      auto.
    intros b Hb. apply in_map_iff in Hb as (y & <- & Hy).
    apply filter_In in Hy as [Hy _].
    now apply (in_map (fun img => ImageFile.id (App.fields img))).
Qed.

Lemma wf_delete_attachment (st : App.State)
    (attachment : App.Obj Attachment.t) :
  Session.well_formed randomUUID st ->
  Session.well_formed randomUUID
    (App.deleteAttachment st attachment).
Proof.
  unfold Session.well_formed, Session.addresses, Session.image_ids,
    Session.attachment_ids. simpl.
  intros (NDa & Ba & NDi & Bi).
  set (p := fun a : App.Obj Attachment.t => negb (App.same_object a attachment)).
  assert (Ia : forall b, In b (map (@App.addr _) (filter p (App.attachments st))) ->
                         In b (map (@App.addr _) (App.attachments st))).
  { intros b Hb. apply in_map_iff in Hb as (y & <- & Hy).
    apply filter_In in Hy as [Hy _]. now apply in_map. }
  repeat split.
  - eapply Permutation_NoDup; [apply Permutation_app_comm|].
    apply NoDup_map_filter.
    eapply Permutation_NoDup; [apply Permutation_app_comm|exact NDa].
  - rewrite Forall_forall in *. intros b Hb. apply Ba.
    apply in_app_or in Hb as [Hb|Hb]; apply in_or_app; auto.
  - eapply Permutation_NoDup; [apply Permutation_app_comm|].
    apply (NoDup_defined_filter (fun att => Attachment.id (App.fields att))).
    eapply Permutation_NoDup; [apply Permutation_app_comm|exact NDi].
  - rewrite Forall_forall in *. intros b Hb. apply Bi.
    apply in_app_or in Hb as [Hb|Hb]; apply in_or_app; auto.
    right. now apply defined_filter_incl in Hb.
Qed.

Lemma wf_step (st : App.State) (ev : Session.event) :
  Session.well_formed randomUUID st ->
  Session.well_formed randomUUID
    (Session.step randomUUID st ev).
Proof.
  intros H. destruct ev; simpl.
  - now apply wf_image_upload.
  - now apply wf_attachment_upload.
  - apply wf_zip_upload.
  - now apply (wf_same st).
  - now apply (wf_same st).
  - unfold App.submitImageRename.
    destruct (App.handleSubmit _ value);
      [now apply wf_rename_image|now apply (wf_same st)].
  - unfold App.submitAttachmentRename.
    destruct (App.handleSubmit _ value);
      [now apply wf_rename_attachment|now apply (wf_same st)].
  - now apply (wf_same st).
  - now apply wf_delete_image.
  - now apply wf_delete_attachment.
  - now apply (wf_same st).
  - now apply wf_save.
  - now apply (wf_same st).
Qed.

Lemma wf_run (events : list Session.event) (st : App.State) :
  Session.well_formed randomUUID st ->
  Session.well_formed randomUUID
    (fold_left (Session.step randomUUID) events st).
Proof.
  revert st. induction events as [|ev events IH]; intros st H; simpl;
    [exact H|].
  apply IH. now apply wf_step.
Qed.

Lemma wf_initial : Session.well_formed randomUUID App.initial.
Proof.
  unfold Session.well_formed. simpl. repeat split; constructor.
Qed.
End SessionFacts.

(** In every state that calls of the handlers lead to from the initial
    one, whatever they are bound to or given: the objects of the two lists
    are pairwise distinct; and, when [crypto.randomUUID] never returns the
    same value twice, the identifiers of the images and the identifiers
    that attachments have are pairwise distinct, so that an identifier
    names at most one asset. *)
Theorem session_states_are_well_formed
    (randomUUID : nat -> string) (events : list Session.event) :
  (forall i j, randomUUID i = randomUUID j -> i = j) ->
  let st := Session.run randomUUID events in
  Session.well_formed randomUUID st /\
  NoDup (map (@App.addr _) (App.images st)) /\
  NoDup (map (@App.addr _) (App.attachments st)) /\
  NoDup (Session.image_ids st) /\
  NoDup (Session.attachment_ids st).
Proof.
  intros Hinj st.
  assert (W : Session.well_formed randomUUID st)
    by (apply wf_run; [exact Hinj|apply wf_initial]).
  split; [exact W|].
  destruct W as (NDa & _ & NDi & _).
  unfold Session.addresses in NDa.
  repeat split.
  - now apply NoDup_app_remove_r in NDa.
  - now apply NoDup_app_remove_l in NDa.
  - now apply NoDup_app_remove_r in NDi.
  - now apply NoDup_app_remove_l in NDi.
Qed.

Lemma sample_uuid_injective (i j : nat) :
  Sample.uuid i = Sample.uuid j -> i = j.
Proof.
  unfold Sample.uuid. simpl. intros H. injection H as H.
  assert (E : Some (Nat.to_uint i) = Some (Nat.to_uint j))
    by (now rewrite <- !NilEmpty.usu, H).
  injection E as E.
  now rewrite <- (Unsigned.of_to i), <- (Unsigned.of_to j), E.
Qed.

Lemma session_states_are_well_formed_witness :
  let events :=
    [Session.ImageUpload (Some [Sample.edited_png; Sample.edited_png]);
     Session.ZipUpload Sample.archive;
     Session.AttachmentUpload (Some [Sample.edited_png]);
     Session.ImageEdit Sample.x_png;
     Session.ImageSave Sample.edited_png;
     Session.DeleteImage Sample.x_png] in
  let st := Session.run Sample.uuid events in
  (forall i j, Sample.uuid i = Sample.uuid j -> i = j) /\
  Session.well_formed Sample.uuid st /\
  NoDup (map (@App.addr _) (App.images st)) /\
  NoDup (map (@App.addr _) (App.attachments st)) /\
  NoDup (Session.image_ids st) /\
  NoDup (Session.attachment_ids st).
Proof.
  intros events st. split; [exact sample_uuid_injective|].
  exact (session_states_are_well_formed Sample.uuid events
           sample_uuid_injective).
Defined.
